(** * Graph analytics and enrichment engine: a shallow embedding

    The development embeds the analytics code of the knowledge-graph builder:

    - the record shapes of the type declarations ([src/unnamed/part_003]),
    - [src/services/embeddingService.ts] ([cosineSimilarity],
      [getEmbedding]),
    - the hand-written analytics module [src/unnamed/part_005] (degree
      centrality, PageRank, community detection, edge signs, triadic
      balance, enrichment), embedded as module [Part005], and its
      string-based duplicate detector, embedded as module
      [LegacyDuplicates],
    - [src/services/graphService.ts] (clustering coefficient, capped triadic
      balance, lexical duplicate detection, the cytoscape-backed
      enrichment), embedded as module [GraphService],
    - the functions that the two analytics modules share word for word:
      community detection, edge metrics, regional metrics and semantic
      duplicate detection (module [Semantic]),
    - the store [src/unnamed/part_002] ([mergeNodes], [removeNode],
      [bulkDeleteSelection], [addToast], [toggleNodeSelection],
      [addNodesAndEdges]) and
      the merge handler of the sidebar [src/unnamed/part_000]
      ([handleMerge]).

    Conventions of the embedding.

    - A JavaScript [number] is [Num q] for an exact rational [q], or [NaN].
      Rounding of IEEE doubles is not modelled; infinities never arise
      because every division of the embedded code is guarded, except the
      one of the string-based duplicate detector, whose only division by
      zero is [0 / 0].
    - An optional field ([x?: T]) is an [option]; [None] is [undefined].
    - An object used as a dictionary ([Record<string, T>]) is a [gmap string T],
      or a list of entries in the order of their creation where
      [Object.entries] reads it; a [Set<string>] used only for membership
      is a [gset string]; a [Set] that is later turned into an array is a
      duplicate-free list in insertion order.
    - Such a dictionary also answers for the members that every object
      inherits from [Object.prototype].  Where that changes a result on a
      graph whose node ids are not such names, it is part of the
      embedding: in the table of [calculateDegreeCentrality], whose guard
      passes for an inherited name at a loose edge end
      ([Part005.inheritedNames]).  Elsewhere it changes nothing: the
      signed adjacency and the other tables are read at the ids of nodes
      only, and [ranks[sourceId]] is read in an arithmetic position, where
      an inherited member gives [NaN] as a missing entry does.  A node
      whose own id is the name of an inherited member is outside the
      embedding.
    - A call that can throw returns an [option]; [None] is the exception,
      which ends every calling function of the embedded code as well
      (none of them catches it).
    - [forEach] over an array is a [fold_left] over the list.
    - Strings are sequences of code units ([String.string]).
    - What lies outside the program is a parameter: the numbers that the
      cytoscape library computes, the draws of [Math.random()], the
      embedding model, [parseInt] and the generator of edge ids. *)

From Stdlib Require Import String Ascii ZArith QArith Qround Lia List.
From Stdlib Require Import Reals.
From Stdlib Require Import Sorted.
From Stdlib Require Import DecimalString.
From Stdlib Require Lra Lqa.
From stdpp Require Import gmap strings list fin_maps.

Local Open Scope string_scope.

(** ** JavaScript numbers *)

Inductive number : Type :=
| Num (q : Q)
| NaN.

Definition nadd (a b : number) : number :=
  match a, b with
  | Num x, Num y => Num (x + y)%Q
  | _, _ => NaN
  end.

Definition nmul (a b : number) : number :=
  match a, b with
  | Num x, Num y => Num (x * y)%Q
  | _, _ => NaN
  end.

(** Division; a zero divisor is answered with [NaN] (the embedded code
    never divides by zero: each division sits behind a guard). *)
Definition ndiv (a b : number) : number :=
  match a, b with
  | Num x, Num y => if Qeq_bool y 0 then NaN else Num (x / y)%Q
  | _, _ => NaN
  end.

Definition of_nat (n : nat) : number := Num (inject_Z (Z.of_nat n)).

(** [x || 0] on a possibly missing number: [undefined], [NaN] and [0]
    all give [0]. *)
Definition or_zero (o : option number) : Q :=
  match o with
  | Some (Num q) => q
  | _ => 0%Q
  end.

(** A missing property read in an arithmetic position is [NaN]. *)
Definition to_number (o : option number) : number :=
  match o with
  | Some n => n
  | None => NaN
  end.

(** [v] is an ordinary number denoting the rational [q]. *)
Definition is_num (v : number) (q : Q) : Prop :=
  exists q', v = Num q' /\ (q' == q)%Q.

(** [v] is an ordinary number in the closed unit interval. *)
Definition in_unit (v : number) : Prop :=
  exists q, v = Num q /\ (0 <= q)%Q /\ (q <= 1)%Q.

(** [Math.floor]. *)
Definition Math_floor (v : number) : number :=
  match v with
  | Num q => Num (inject_Z (Qfloor q))
  | NaN => NaN
  end.

(** [parseFloat(x.toFixed(6))]: the nearest multiple of [10^-6], ties to
    the larger magnitude; the sign is handled apart as [toFixed] does. *)
Definition toFixed6_Q (q : Q) : Q :=
  let scaled (x : Q) :=
    (inject_Z (Qfloor (x * inject_Z 1000000 + (1 # 2))) / inject_Z 1000000)%Q in
  (if Qle_bool 0 q then scaled q else - scaled (- q))%Q.

Definition toFixed6 (v : number) : number :=
  match v with
  | Num q => Num (toFixed6_Q q)
  | NaN => NaN
  end.

(** ** The record shapes of the type declarations *)

Inductive NodeType : Type :=
| person | organization | event | concept | publication
| Person | Organization | Event | Concept | Publication.

#[global] Instance NodeType_eq_dec : EqDecision NodeType.
Proof. solve_decision. Defined.

Inductive Certainty : Type := confirmed | disputed | alleged.

Inductive Sign : Type := positive | negative.

Module NodeData.
Record t : Type := mk {
  id : string;
  label : string;
  type : NodeType;
  year : option Z;
  description : option string;
  dates : option string;
  importance : option number;
  region : option string;
  degreeCentrality : option number;
  pagerank : option number;
  community : option nat;
  kCore : option number;
  betweenness : option number;
  closeness : option number;
  eigenvector : option number;
  clustering : option number;
  embedding : option (list number);
  sources : option (list string);
  certainty : option Certainty
}.
End NodeData.

Module EdgeData.
Record t : Type := mk {
  id : string;
  source : string;
  target : string;
  label : string;
  dates : option string;
  weight : option number;
  sign : option Sign;
  isBalanced : option bool;
  certainty : option Certainty
}.
End EdgeData.

Module GraphNode.
Record t : Type := mk {
  data : NodeData.t;
  position : option (number * number);
  selected : option bool
}.
End GraphNode.

Module GraphEdge.
Record t : Type := mk { data : EdgeData.t }.
End GraphEdge.

Module Meta.
Record t : Type := mk {
  modularity : option number;
  globalBalance : option number;
  lastSaved : option number
}.
End Meta.

Module KnowledgeGraph.
Record t : Type := mk {
  nodes : list GraphNode.t;
  edges : list GraphEdge.t;
  meta : option Meta.t
}.
End KnowledgeGraph.

(** The [reason] text of a candidate (a formatted percentage) is left out. *)
Module DuplicateCandidate.
Record t : Type := mk {
  nodeA : NodeData.t;
  nodeB : NodeData.t;
  similarity : Q
}.
End DuplicateCandidate.

(** Shorthands for the paths [n.data.id], [e.data.source], [e.data.target]. *)
Definition nid (n : GraphNode.t) : string := NodeData.id (GraphNode.data n).
Definition esrc (e : GraphEdge.t) : string := EdgeData.source (GraphEdge.data e).
Definition etgt (e : GraphEdge.t) : string := EdgeData.target (GraphEdge.data e).

(** ** Library functions of the host language *)

(** [String.prototype.toLowerCase], on the ASCII letters (other code units
    are kept). *)
Definition lower_ascii (c : ascii) : ascii :=
  let n := nat_of_ascii c in
  if (65 <=? n)%nat && (n <=? 90)%nat then ascii_of_nat (n + 32) else c.

Fixpoint toLowerCase (s : string) : string :=
  match s with
  | EmptyString => EmptyString
  | String c rest => String (lower_ascii c) (toLowerCase rest)
  end.

(** [text.includes(kw)]. *)
Fixpoint includes (text kw : string) : bool :=
  String.prefix kw text ||
  match text with
  | EmptyString => false
  | String _ rest => includes rest kw
  end.

(** ** Edge metrics (the same function in both analytics modules) *)

Definition negativeKeywords : list string :=
  ["conflict"; "rival"; "anti"; "against"; "enemy"; "opponent"; "fight";
   "konflikt"; "rywal"; "przeciw"; "wro"].

Definition isNegative (lbl : string) : bool :=
  let text := toLowerCase lbl in
  existsb (fun kw => includes text kw) negativeKeywords.

Definition heuristicSign (lbl : string) : Sign :=
  if isNegative lbl then negative else positive.

(** [{ ...edge, data: { ...edge.data, sign: edge.data.sign || heuristic,
       certainty: edge.data.certainty || 'confirmed' } }]; the label is a
    string, on which [label || ''] is the label itself. *)
Definition processEdge (edge : GraphEdge.t) : GraphEdge.t :=
  let d := GraphEdge.data edge in
  GraphEdge.mk
    (EdgeData.mk
       (EdgeData.id d) (EdgeData.source d) (EdgeData.target d)
       (EdgeData.label d) (EdgeData.dates d) (EdgeData.weight d)
       (Some (match EdgeData.sign d with
              | Some s => s
              | None => heuristicSign (EdgeData.label d)
              end))
       (EdgeData.isBalanced d)
       (Some (match EdgeData.certainty d with
              | Some c => c
              | None => confirmed
              end))).

Definition processEdgeMetrics (edges : list GraphEdge.t) : list GraphEdge.t :=
  List.map processEdge edges.

(** ** Community detection (the same function in both analytics modules) *)

Module Bfs.
Record state : Type := mk {
  queue : list string;
  visited : gset string;
  communities : gmap string nat
}.
End Bfs.

(** [graph.edges.filter(e => source === current || target === current)
       .map(e => source === current ? target : source)] *)
Definition neighborsOf (edges : list GraphEdge.t) (current : string) : list string :=
  List.map (fun e => if String.eqb (esrc e) current then etgt e else esrc e)
    (List.filter
       (fun e => String.eqb (esrc e) current || String.eqb (etgt e) current)
       edges).

(** The body of [neighbors.forEach]. *)
Definition visitNeighbor (communityId : nat) (st : Bfs.state) (neighbor : string)
  : Bfs.state :=
  if decide (neighbor ∈ Bfs.visited st) then st
  else Bfs.mk (Bfs.queue st ++ [neighbor])
              ({[neighbor]} ∪ Bfs.visited st)
              (<[neighbor := communityId]> (Bfs.communities st)).

(** The [while (queue.length > 0)] loop, unrolled at most [fuel] times. *)
Fixpoint bfsLoop (fuel : nat) (edges : list GraphEdge.t) (communityId : nat)
    (st : Bfs.state) : Bfs.state :=
  match fuel with
  | O => st
  | S fuel' =>
      match Bfs.queue st with
      | [] => st
      | current :: rest =>
          bfsLoop fuel' edges communityId
            (fold_left (visitNeighbor communityId) (neighborsOf edges current)
               (Bfs.mk rest (Bfs.visited st) (Bfs.communities st)))
      end
  end.

(** Every pass pops one id and each id is pushed at most once, so
    [2 * |edges| + 1] passes empty the queue (lemma [bfs_queue_empty]). *)
Definition bfsFuel (edges : list GraphEdge.t) : nat := 2 * length edges + 1.

Definition bfs (edges : list GraphEdge.t) (startNodeId : string) (communityId : nat)
    (visited : gset string) (communities : gmap string nat) : Bfs.state :=
  bfsLoop (bfsFuel edges) edges communityId
    (Bfs.mk [startNodeId] ({[startNodeId]} ∪ visited)
       (<[startNodeId := communityId]> communities)).

Module Detect.
Record state : Type := mk {
  communities : gmap string nat;
  visited : gset string;
  nextCommunityId : nat
}.
End Detect.

Definition detectStep (edges : list GraphEdge.t) (st : Detect.state)
    (node : GraphNode.t) : Detect.state :=
  if decide (nid node ∈ Detect.visited st) then st
  else
    let r := bfs edges (nid node) (Detect.nextCommunityId st)
               (Detect.visited st) (Detect.communities st) in
    Detect.mk (Bfs.communities r) (Bfs.visited r) (S (Detect.nextCommunityId st)).

Definition detectCommunities (graph : KnowledgeGraph.t) : gmap string nat :=
  Detect.communities
    (fold_left (detectStep (KnowledgeGraph.edges graph))
       (KnowledgeGraph.nodes graph) (Detect.mk ∅ ∅ 0)).

(** ** Triadic balance: the signed adjacency and the triple loop
    (shared by both analytics modules, which differ only in the node cap) *)

(** [if (!adj[k]) adj[k] = {}] *)
Definition ensureRow (k : string) (adj : gmap string (gmap string Z))
  : gmap string (gmap string Z) :=
  match adj !! k with
  | Some _ => adj
  | None => <[k := ∅]> adj
  end.

(** [adj[a][b] = val] *)
Definition assignCell (a b : string) (val : Z) (adj : gmap string (gmap string Z))
  : gmap string (gmap string Z) :=
  <[a := <[b := val]> (default ∅ (adj !! a))]> adj.

Definition signValue (e : GraphEdge.t) : Z :=
  match EdgeData.sign (GraphEdge.data e) with
  | Some negative => (-1)%Z
  | _ => 1%Z
  end.

(** The body of [edges.forEach] that fills [adj]. *)
Definition addSignedEdge (adj : gmap string (gmap string Z)) (e : GraphEdge.t)
  : gmap string (gmap string Z) :=
  let val := signValue e in
  assignCell (etgt e) (esrc e) val
    (assignCell (esrc e) (etgt e) val
       (ensureRow (etgt e) (ensureRow (esrc e) adj))).

Definition signedAdjacency (edges : list GraphEdge.t) : gmap string (gmap string Z) :=
  fold_left addSignedEdge edges ∅.

(** [adj[u]?.[v]] *)
Definition cell (adj : gmap string (gmap string Z)) (u v : string) : option Z :=
  match adj !! u with
  | Some row => row !! v
  | None => None
  end.

(** Truthiness of a cell: [undefined] and [0] are falsy. *)
Definition truthy (o : option Z) : bool :=
  match o with
  | Some z => negb (z =? 0)%Z
  | None => false
  end.

Module Counters.
Record t : Type := mk { totalTriangles : nat; balancedTriangles : nat }.
End Counters.

(** The body of the innermost loop. *)
Definition visitTriple (adj : gmap string (gmap string Z)) (c : Counters.t)
    (u v w : string) : Counters.t :=
  let uv := cell adj u v in
  let vw := cell adj v w in
  let wu := cell adj w u in
  if truthy uv && truthy vw && truthy wu then
    Counters.mk (S (Counters.totalTriangles c))
      (if (0 <? default 0 uv * default 0 vw * default 0 wu)%Z
       then S (Counters.balancedTriangles c)
       else Counters.balancedTriangles c)
  else c.

(** [for (k = j + 1; ...)] over the ids after position [j]. *)
Definition forK (adj : gmap string (gmap string Z)) (u v : string)
    (ws : list string) (c : Counters.t) : Counters.t :=
  fold_left (fun c w => visitTriple adj c u v w) ws c.

(** [for (j = i + 1; ...)] over the ids after position [i]. *)
Fixpoint forJ (adj : gmap string (gmap string Z)) (u : string)
    (vs : list string) (c : Counters.t) : Counters.t :=
  match vs with
  | [] => c
  | v :: rest => forJ adj u rest (forK adj u v rest c)
  end.

(** [for (i = 0; ...)]. *)
Fixpoint forI (adj : gmap string (gmap string Z)) (us : list string)
    (c : Counters.t) : Counters.t :=
  match us with
  | [] => c
  | u :: rest => forI adj rest (forJ adj u rest c)
  end.

(** [totalTriangles > 0 ? balancedTriangles / totalTriangles : 1] *)
Definition balanceRatio (c : Counters.t) : number :=
  if (0 <? Counters.totalTriangles c)%nat
  then ndiv (of_nat (Counters.balancedTriangles c)) (of_nat (Counters.totalTriangles c))
  else Num 1.

Module TriadicBalance.
Record t : Type := mk { globalBalance : number; unbalancedEdges : gset string }.
End TriadicBalance.

(** ** The hand-written analytics module ([src/unnamed/part_005]) *)

Module Part005.

(** An entry of the table of [calculateDegreeCentrality] before the
    normalisation: a whole count, or [NaN]. *)
Inductive count : Type :=
| Count (c : nat)
| NotANumber.

Definition numberOf (v : count) : number :=
  match v with
  | Count c => of_nat c
  | NotANumber => NaN
  end.

(** The function members that every object inherits from
    [Object.prototype].  Read on the table at such a name, [centrality[k]]
    is a function and not [undefined], although the table has no entry of
    its own there.  ([__proto__] is inherited too, but as an accessor whose
    setter ignores a number: an increment at that name leaves the table as
    it is.) *)
Definition inheritedNames : list string :=
  ["constructor"; "hasOwnProperty"; "isPrototypeOf"; "propertyIsEnumerable";
   "toLocaleString"; "toString"; "valueOf";
   "__defineGetter__"; "__defineSetter__"; "__lookupGetter__"; "__lookupSetter__"].

Definition inherited (k : string) : bool := existsb (String.eqb k) inheritedNames.

(** [x++] on an entry. *)
Definition increment (v : count) : count :=
  match v with
  | Count c => Count (S c)
  | NotANumber => NotANumber
  end.

(** [if (centrality[k] !== undefined) centrality[k]++].  On an entry of
    the table the count goes up.  On an inherited name the guard passes as
    well; the increment turns the inherited function into [NaN] and stores
    it as an entry of the table. *)
Definition bump (k : string) (centrality : gmap string count) : gmap string count :=
  match centrality !! k with
  | Some v => <[k := increment v]> centrality
  | None => if inherited k then <[k := NotANumber]> centrality else centrality
  end.

(** The table before normalisation. *)
Definition rawDegrees (graph : KnowledgeGraph.t) : gmap string count :=
  let centrality0 :=
    fold_left (fun c node => <[nid node := Count 0]> c) (KnowledgeGraph.nodes graph) ∅ in
  fold_left (fun c edge => bump (etgt edge) (bump (esrc edge) c))
    (KnowledgeGraph.edges graph) centrality0.

(** [Math.max] of two entries: [NaN] as soon as one of them is. *)
Definition Math_max (a b : count) : count :=
  match a, b with
  | Count x, Count y => Count (Nat.max x y)
  | _, _ => NotANumber
  end.

(** [Math.max(...Object.values(centrality), 1)] *)
Definition maxDegree (centrality : gmap string count) : count :=
  map_fold (fun _ v acc => Math_max v acc) (Count 1) centrality.

Definition calculateDegreeCentrality (graph : KnowledgeGraph.t) : gmap string number :=
  let centrality := rawDegrees graph in
  let max := maxDegree centrality in
  (fun c => ndiv (numberOf c) (numberOf max)) <$> centrality.

(** [graph.edges.filter(e => e.data.source === sourceId).length] *)
Definition outDegree (edges : list GraphEdge.t) (sourceId : string) : nat :=
  length (List.filter (fun e => String.eqb (esrc e) sourceId) edges).

(** The inner [incomingEdges.forEach] of one node. *)
Definition incomingSum (edges : list GraphEdge.t) (ranks : gmap string number)
    (nodeId : string) : number :=
  fold_left
    (fun acc edge =>
       let sourceId := esrc edge in
       let out := outDegree edges sourceId in
       if (0 <? out)%nat
       then nadd acc (ndiv (to_number (ranks !! sourceId)) (of_nat out))
       else acc)
    (List.filter (fun e => String.eqb (etgt e) nodeId) edges)
    (Num 0).

(** One power-iteration round. *)
Definition pageRankRound (graph : KnowledgeGraph.t) (damping : Q) (N : nat)
    (ranks : gmap string number) : gmap string number :=
  fold_left
    (fun newRanks node =>
       <[nid node :=
           nadd (ndiv (Num (1 - damping)) (of_nat N))
                (nmul (Num damping)
                      (incomingSum (KnowledgeGraph.edges graph) ranks (nid node)))]>
         newRanks)
    (KnowledgeGraph.nodes graph) ∅.

Definition calculatePageRank (graph : KnowledgeGraph.t) (iterations : nat)
    (damping : Q) : gmap string number :=
  let N := length (KnowledgeGraph.nodes graph) in
  if (N =? 0)%nat then ∅
  else
    let ranks0 :=
      fold_left (fun ranks n => <[nid n := ndiv (Num 1) (of_nat N)]> ranks)
        (KnowledgeGraph.nodes graph) ∅ in
    Nat.iter iterations (pageRankRound graph damping N) ranks0.

(** Default arguments [iterations = 20], [damping = 0.85]. *)
Definition defaultIterations : nat := 20.
Definition defaultDamping : Q := 85 # 100.

(** No cap on the node list in this module. *)
Definition calculateTriadicBalance (graph : KnowledgeGraph.t) : TriadicBalance.t :=
  let adj := signedAdjacency (KnowledgeGraph.edges graph) in
  let c := forI adj (List.map nid (KnowledgeGraph.nodes graph)) (Counters.mk 0 0) in
  TriadicBalance.mk (balanceRatio c) ∅.

Definition enrichNode (dc pr : gmap string number) (comm : gmap string nat)
    (node : GraphNode.t) : GraphNode.t :=
  let d := GraphNode.data node in
  GraphNode.mk
    (NodeData.mk
       (NodeData.id d) (NodeData.label d) (NodeData.type d) (NodeData.year d)
       (NodeData.description d) (NodeData.dates d) (NodeData.importance d)
       (NodeData.region d)
       (dc !! NodeData.id d)
       (pr !! NodeData.id d)
       (comm !! NodeData.id d)
       (Some (Math_floor (Num (or_zero (dc !! NodeData.id d) * inject_Z 10))))
       (NodeData.betweenness d) (NodeData.closeness d) (NodeData.eigenvector d)
       (NodeData.clustering d) (NodeData.embedding d) (NodeData.sources d)
       (NodeData.certainty d))
    (GraphNode.position node) (GraphNode.selected node).

(** [random] is the value drawn by [Math.random()], in [0, 1). *)
Definition enrichGraphWithMetrics (random : Q) (graph : KnowledgeGraph.t)
  : KnowledgeGraph.t :=
  let dc := calculateDegreeCentrality graph in
  let pr := calculatePageRank graph defaultIterations defaultDamping in
  let comm := detectCommunities graph in
  let processedEdges := processEdgeMetrics (KnowledgeGraph.edges graph) in
  let tempGraph :=
    KnowledgeGraph.mk (KnowledgeGraph.nodes graph) processedEdges
      (KnowledgeGraph.meta graph) in
  let globalBalance := TriadicBalance.globalBalance (calculateTriadicBalance tempGraph) in
  let newNodes := List.map (enrichNode dc pr comm) (KnowledgeGraph.nodes graph) in
  KnowledgeGraph.mk newNodes processedEdges
    (Some (Meta.mk
             (Some (Num ((4 # 10) + random * (1 # 10))))
             (Some globalBalance)
             (match KnowledgeGraph.meta graph with
              | Some m => Meta.lastSaved m
              | None => None
              end))).

End Part005.

(** ** [src/services/graphService.ts] *)

(** The headless cytoscape instance that [enrichGraphWithMetrics] builds
    from the node and edge data.  The library is outside the repository.
    The embedding fixes of it what decides whether the enrichment returns:

    - the constructor throws on an edge whose source or target is not the
      id of a node among the elements;
    - the instance holds an element for every node it was built from, so
      that [cy.getElementById(node.data.id)] is not empty for a node of
      the graph;
    - the object that [degreeCentralityNormalized] returns for a call
      with [directed: true] has the members [indegree] and [outdegree];
      the member [degree] belongs to the result of an undirected call
      only.

    The numbers that the library computes are a parameter
    ([Cytoscape.metrics]). *)
Module Cytoscape.

Record metrics : Type := mkMetrics {
  (** [degreeCentralityNormalized({directed: true, ...}).indegree(ele)] *)
  indegree : string -> number;
  (** [degreeCentralityNormalized({directed: true, ...}).outdegree(ele)] *)
  outdegree : string -> number;
  (** [pageRank({dampingFactor: 0.85, precision: 1e-6}).rank(ele)] *)
  rank : string -> number;
  (** [betweennessCentrality({directed: true}).betweenness(ele)] *)
  betweenness : string -> number;
  (** [closenessCentrality({root: ele, directed: true})] *)
  closeness : string -> number
}.

(** An instance: the ids of its node elements and the library's numbers
    for it. *)
Record t : Type := mk {
  elements : list string;
  values : metrics
}.

(** [cy.getElementById(id).length !== 0] *)
Definition hasElement (cy : t) (id : string) : bool :=
  existsb (String.eqb id) (elements cy).

(** An object that answers for degree centralities, by the members it
    has; a member it does not have is [None]. *)
Record centrality : Type := mkCentrality {
  degreeMember : option (string -> number);
  indegreeMember : option (string -> number);
  outdegreeMember : option (string -> number)
}.

(** [cy.elements().degreeCentralityNormalized({ directed: true, weight })] *)
Definition degreeCentralityNormalized (cy : t) : centrality :=
  mkCentrality None (Some (indegree (values cy))) (Some (outdegree (values cy))).

End Cytoscape.

Module GraphService.

(** [set.add(x)] on an insertion-ordered set. *)
Definition setAdd (x : string) (s : list string) : list string :=
  if existsb (String.eqb x) s then s else s ++ [x].

(** [adj.get(k)!.add(x)] *)
Definition addNeighbor (k x : string) (adj : gmap string (list string))
  : gmap string (list string) :=
  match adj !! k with
  | Some s => <[k := setAdd x s]> adj
  | None => adj
  end.

(** The body of [edges.forEach]: both endpoints must be keys of [adj]. *)
Definition addUndirected (adj : gmap string (list string)) (e : GraphEdge.t)
  : gmap string (list string) :=
  if bool_decide (is_Some (adj !! esrc e)) && bool_decide (is_Some (adj !! etgt e))
  then addNeighbor (etgt e) (esrc e) (addNeighbor (esrc e) (etgt e) adj)
  else adj.

Definition undirectedAdjacency (nodes : list GraphNode.t) (edges : list GraphEdge.t)
  : gmap string (list string) :=
  fold_left addUndirected edges
    (fold_left (fun adj n => <[nid n := []]> adj) nodes ∅).

(** [adj.get(a)?.has(b)] *)
Definition hasNeighbor (adj : gmap string (list string)) (a b : string) : bool :=
  match adj !! a with
  | Some s => existsb (String.eqb b) s
  | None => false
  end.

(** The two nested loops over the pairs [i < j] of [neighborArray]. *)
Fixpoint countLinks (adj : gmap string (list string)) (neighborArray : list string)
    (links : nat) : nat :=
  match neighborArray with
  | [] => links
  | neighborA :: rest =>
      countLinks adj rest
        (fold_left
           (fun links neighborB =>
              if hasNeighbor adj neighborA neighborB then S links else links)
           rest links)
  end.

(** The body of [adj.forEach]. *)
Definition coefficient (adj : gmap string (list string)) (neighbors : list string)
  : number :=
  let k := length neighbors in
  if (k <? 2)%nat then Num 0
  else ndiv (of_nat (2 * countLinks adj neighbors 0)) (of_nat (k * (k - 1))).

Definition calculateClusteringCoefficient (nodes : list GraphNode.t)
    (edges : list GraphEdge.t) : gmap string number :=
  let adj := undirectedAdjacency nodes edges in
  coefficient adj <$> adj.

(** [const limit = Math.min(n, 200)]: only the first 200 ids are visited. *)
Definition triadLimit : nat := 200.

Definition calculateTriadicBalance (graph : KnowledgeGraph.t) : TriadicBalance.t :=
  let adj := signedAdjacency (KnowledgeGraph.edges graph) in
  let nodeIds := List.map nid (KnowledgeGraph.nodes graph) in
  let limit := Nat.min (length nodeIds) triadLimit in
  let c := forI adj (take limit nodeIds) (Counters.mk 0 0) in
  TriadicBalance.mk (balanceRatio c) ∅.

(** *** Edit distance *)

(** Cells [j .. |a|] of matrix row [i]: [prev] holds row [i-1] from
    column [j-1] on and [left] is cell [j-1] of row [i]. *)
Fixpoint fillRow (bc : ascii) (a : string) (prev : list nat) (left : nat)
  : list nat :=
  match a, prev with
  | String ac a', diag :: ((up :: _) as prev') =>
      let v := if Ascii.eqb bc ac then diag
               else Nat.min (diag + 1) (Nat.min (left + 1) (up + 1)) in
      v :: fillRow bc a' prev' v
  | _, _ => []
  end.

(** Rows [i .. |b|] are computed from row [i-1]; the last one is returned. *)
Fixpoint fillMatrix (i : nat) (b a : string) (prev : list nat) : list nat :=
  match b with
  | EmptyString => prev
  | String bc b' => fillMatrix (S i) b' a (i :: fillRow bc a prev i)
  end.

(** [matrix[b.length][a.length]] *)
Definition getLevenshteinDistance (a b : string) : nat :=
  let row0 := seq 0 (S (String.length a)) in
  List.last (fillMatrix 1 b a row0) 0%nat.

(** *** Lexical duplicate detection *)

Definition lexicalSimilarity (l1 l2 : string) : Q :=
  let dist := getLevenshteinDistance (toLowerCase l1) (toLowerCase l2) in
  let maxLen := Nat.max (String.length l1) (String.length l2) in
  if (0 <? maxLen)%nat
  then (1 - inject_Z (Z.of_nat dist) / inject_Z (Z.of_nat maxLen))%Q
  else 0%Q.

(** The body of the inner loop. *)
Definition comparePair (threshold : Q) (candidates : list DuplicateCandidate.t)
    (n1 n2 : NodeData.t) : list DuplicateCandidate.t :=
  if bool_decide (NodeData.type n1 <> NodeData.type n2) then candidates
  else
    let similarity := lexicalSimilarity (NodeData.label n1) (NodeData.label n2) in
    if Qle_bool threshold similarity
    then candidates ++ [DuplicateCandidate.mk n1 n2 similarity]
    else candidates.

Fixpoint scanPairs (threshold : Q) (nodes : list GraphNode.t)
    (candidates : list DuplicateCandidate.t) : list DuplicateCandidate.t :=
  match nodes with
  | [] => candidates
  | n1 :: rest =>
      scanPairs threshold rest
        (fold_left
           (fun cs n2 => comparePair threshold cs (GraphNode.data n1) (GraphNode.data n2))
           rest candidates)
  end.

(** [candidates.sort((a, b) => b.similarity - a.similarity)]: a stable
    sort, descending. *)
Fixpoint insertDesc (c : DuplicateCandidate.t) (sorted : list DuplicateCandidate.t)
  : list DuplicateCandidate.t :=
  match sorted with
  | [] => [c]
  | x :: rest =>
      if Qle_bool (DuplicateCandidate.similarity c) (DuplicateCandidate.similarity x)
      then x :: insertDesc c rest
      else c :: x :: rest
  end.

Definition sortDesc (cs : list DuplicateCandidate.t) : list DuplicateCandidate.t :=
  fold_left (fun sorted c => insertDesc c sorted) cs [].

Definition detectDuplicates (graph : KnowledgeGraph.t) (threshold : Q)
  : list DuplicateCandidate.t :=
  sortDesc (scanPairs threshold (KnowledgeGraph.nodes graph) []).

(** *** Enrichment *)

Section Enrichment.

(** The numbers of the library for the instance built from the given
    nodes and edges. *)
Variable library : list GraphNode.t -> list GraphEdge.t -> Cytoscape.metrics.

(** [cytoscape({ headless: true, elements: { nodes, edges } })]; [None]
    when the constructor throws. *)
Definition cytoscape (nodes : list GraphNode.t) (edges : list GraphEdge.t)
  : option Cytoscape.t :=
  let ids := List.map nid nodes in
  if forallb
       (fun e => existsb (String.eqb (esrc e)) ids && existsb (String.eqb (etgt e)) ids)
       edges
  then Some (Cytoscape.mk ids (library nodes edges))
  else None.

(** The body of [graph.nodes.map]; [None] when it throws.  [dcn.degree(ele)]
    is a call of a member that the object [dcn] may not have: then it
    throws a [TypeError]. *)
Definition enrichNode (cy : Cytoscape.t) (dcn : Cytoscape.centrality)
    (clusteringMap : gmap string number) (comm : gmap string nat)
    (node : GraphNode.t) : option GraphNode.t :=
  let d := GraphNode.data node in
  if negb (Cytoscape.hasElement cy (NodeData.id d)) then Some node
  else
    match Cytoscape.degreeMember dcn with
    | None => None
    | Some degreeOf =>
        let degree := degreeOf (NodeData.id d) in
        let pagerankVal := Cytoscape.rank (Cytoscape.values cy) (NodeData.id d) in
        let betweennessVal := Cytoscape.betweenness (Cytoscape.values cy) (NodeData.id d) in
        let closenessVal := Cytoscape.closeness (Cytoscape.values cy) (NodeData.id d) in
        let clusteringVal := Num (or_zero (clusteringMap !! NodeData.id d)) in
        Some
          (GraphNode.mk
             (NodeData.mk
                (NodeData.id d) (NodeData.label d) (NodeData.type d) (NodeData.year d)
                (NodeData.description d) (NodeData.dates d) (NodeData.importance d)
                (NodeData.region d)
                (Some (toFixed6 degree))
                (Some (toFixed6 pagerankVal))
                (comm !! NodeData.id d)
                (Some (Math_floor (nmul degree (Num (inject_Z 10)))))
                (Some (toFixed6 betweennessVal))
                (Some (toFixed6 closenessVal))
                (Some (toFixed6 pagerankVal))
                (Some (toFixed6 clusteringVal))
                (NodeData.embedding d) (NodeData.sources d) (NodeData.certainty d))
             (GraphNode.position node) (GraphNode.selected node))
    end.

(** [random] is the value drawn by [Math.random()], in [0, 1).  The result
    is [None] when the call throws: in the constructor, or at the first
    node whose callback throws. *)
Definition enrichGraphWithMetrics (random : Q) (graph : KnowledgeGraph.t)
  : option KnowledgeGraph.t :=
  let safeEdges := KnowledgeGraph.edges graph in
  match cytoscape (KnowledgeGraph.nodes graph) safeEdges with
  | None => None
  | Some cy =>
      let dcn := Cytoscape.degreeCentralityNormalized cy in
      let clusteringMap :=
        calculateClusteringCoefficient (KnowledgeGraph.nodes graph) safeEdges in
      let comm := detectCommunities graph in
      let processedEdges := processEdgeMetrics safeEdges in
      let tempGraph :=
        KnowledgeGraph.mk (KnowledgeGraph.nodes graph) processedEdges
          (KnowledgeGraph.meta graph) in
      let globalBalance :=
        TriadicBalance.globalBalance (calculateTriadicBalance tempGraph) in
      match mapM (enrichNode cy dcn clusteringMap comm) (KnowledgeGraph.nodes graph) with
      | None => None
      | Some newNodes =>
          Some
            (KnowledgeGraph.mk newNodes processedEdges
               (Some (Meta.mk
                        (Some (Num ((4 # 10) + random * (1 # 10))))
                        (Some globalBalance)
                        (match KnowledgeGraph.meta graph with
                         | Some m => Meta.lastSaved m
                         | None => None
                         end))))
      end
  end.

End Enrichment.

End GraphService.

(** ** [src/services/embeddingService.ts]

    Vectors of embeddings are lists of real numbers: [Math.sqrt] has no
    rational model, so this function is embedded over [R]. *)

Module EmbeddingService.

Local Open Scope R_scope.

(** The body of the [for] loop: [dotProduct], [normA], [normB]. *)
Definition accumulate (acc : R * R * R) (ab : R * R) : R * R * R :=
  let '(dotProduct, normA, normB) := acc in
  let '(a, b) := ab in
  (dotProduct + a * b, normA + a * a, normB + b * b).

Definition cosineSimilarity (vecA vecB : list R) : R :=
  if negb (length vecA =? length vecB)%nat || (length vecA =? 0)%nat then 0
  else
    let '(dotProduct, normA, normB) :=
      fold_left accumulate (combine vecA vecB) (0, 0, 0) in
    if Req_dec_T normA 0 then 0
    else if Req_dec_T normB 0 then 0
    else dotProduct / (sqrt normA * sqrt normB).

(** *** [getEmbedding]

    The module keeps a cache for the session and asks the embedding model
    over the network.  The model is a parameter: [embedContent k text] is
    the vector in the answer to the [k]-th request of the session, or
    [None] when that request fails or its answer holds no embedding. *)

Record session : Type := mkSession {
  embeddingsCache : gmap string (list R);
  requests : nat
}.

Section Embedding.

Variable embedContent : nat -> string -> option (list R).

Definition getEmbedding (text : string) (s : session) : list R * session :=
  if String.eqb text "" then ([], s)
  else
    match embeddingsCache s !! text with
    | Some cached => (cached, s)
    | None =>
        match embedContent (requests s) text with
        | Some embedding =>
            (embedding,
             mkSession (<[text := embedding]> (embeddingsCache s)) (S (requests s)))
        | None => ([], mkSession (embeddingsCache s) (S (requests s)))
        end
    end.

End Embedding.

End EmbeddingService.

(** ** The store

    The store imports [enrichGraphWithMetrics] from
    [./services/graphService], the cytoscape-backed module; it is a
    parameter here so that the hand-written module can be plugged in as
    well.  The call may throw ([None]).  No action of the store catches
    the exception: it leaves the action before [set(...)] is reached, and
    the store keeps the state it had.  An action therefore returns the new
    state, or [None] when it throws.  The write to the storage that ends
    an action is left out. *)

(** A function that never throws, seen as one that may. *)
Definition returning {A B : Type} (f : A -> B) : A -> option B := fun a => Some (f a).

Module Toast.
Inductive kind : Type := info | success | warning | error.
Record t : Type := mk {
  id : string;
  title : string;
  description : string;
  type : kind
}.
End Toast.

Module Store.

(** The two graph slots, which [mergeNodes] and [addNodesAndEdges] write. *)
Record state : Type := mk {
  graph : KnowledgeGraph.t;
  filteredGraph : KnowledgeGraph.t
}.

Section Store.

Variable enrichGraphWithMetrics : KnowledgeGraph.t -> option KnowledgeGraph.t.

(** The body of [graph.edges.map] in [mergeNodes]. *)
Definition redirect (keepId dropId : string) (e : GraphEdge.t) : GraphEdge.t :=
  let d := GraphEdge.data e in
  let source1 := if String.eqb (EdgeData.source d) dropId then keepId
                 else EdgeData.source d in
  let target1 := if String.eqb (EdgeData.target d) dropId then keepId
                 else EdgeData.target d in
  GraphEdge.mk
    (EdgeData.mk (EdgeData.id d) source1 target1 (EdgeData.label d)
       (EdgeData.dates d) (EdgeData.weight d) (EdgeData.sign d)
       (EdgeData.isBalanced d) (EdgeData.certainty d)).

(** The graph handed to the enrichment by [mergeNodes]. *)
Definition mergedGraph (keepId dropId : string) (g : KnowledgeGraph.t)
  : KnowledgeGraph.t :=
  let updatedEdges := List.map (redirect keepId dropId) (KnowledgeGraph.edges g) in
  let updatedNodes :=
    List.filter (fun n => negb (String.eqb (nid n) dropId)) (KnowledgeGraph.nodes g) in
  let finalEdges :=
    List.filter (fun e => negb (String.eqb (esrc e) (etgt e))) updatedEdges in
  KnowledgeGraph.mk updatedNodes finalEdges None.

Definition mergeNodes (keepId dropId : string) (st : state) : option state :=
  match enrichGraphWithMetrics (mergedGraph keepId dropId (graph st)) with
  | Some enriched => Some (mk enriched enriched)
  | None => None
  end.

(** [handleMerge] of the sidebar: keep the node with the longer
    description, the first operand on a tie.  The update of the list of
    candidates that follows the call of [mergeNodes] is local state of the
    sidebar and is left out. *)
Definition descriptionLength (d : NodeData.t) : nat :=
  match NodeData.description d with
  | Some s => String.length s
  | None => 0
  end.

Definition handleMerge (candidate : DuplicateCandidate.t) (st : state) : option state :=
  let a := DuplicateCandidate.nodeA candidate in
  let b := DuplicateCandidate.nodeB candidate in
  let keepA := (descriptionLength b <=? descriptionLength a)%nat in
  let keepId := if keepA then NodeData.id a else NodeData.id b in
  let dropId := if keepA then NodeData.id b else NodeData.id a in
  mergeNodes keepId dropId st.

(** *** Selection and deletion

    The slice of the state that the selection and deletion actions read
    and write: the two graph slots, [selectedNodeIds] and [toasts]. *)
Record selecting : Type := mkSelecting {
  slots : state;
  selectedNodeIds : list string;
  toasts : list Toast.t
}.

(** The graph handed to the enrichment by [removeNode]. *)
Definition removedGraph (nodeId : string) (g : KnowledgeGraph.t) : KnowledgeGraph.t :=
  let newNodes :=
    List.filter (fun n => negb (String.eqb (nid n) nodeId)) (KnowledgeGraph.nodes g) in
  let newEdges :=
    List.filter
      (fun e => negb (String.eqb (esrc e) nodeId) && negb (String.eqb (etgt e) nodeId))
      (KnowledgeGraph.edges g) in
  KnowledgeGraph.mk newNodes newEdges None.

Definition removeNode (nodeId : string) (st : selecting) : option selecting :=
  match enrichGraphWithMetrics (removedGraph nodeId (graph (slots st))) with
  | Some enriched => Some (mkSelecting (mk enriched enriched) [] (toasts st))
  | None => None
  end.

(** [addToast(t)]: the toast joins the list under the id [id], which the
    action draws with [Math.random()].  The timer that takes the toast off
    the list four seconds later runs after the action and is not part of
    the state it leaves. *)
Definition addToast (id title description : string) (type : Toast.kind)
    (st : selecting) : selecting :=
  mkSelecting (slots st) (selectedNodeIds st)
    (toasts st ++ [Toast.mk id title description type]).

(** A length inside a template literal. *)
Definition decimal (n : nat) : string := NilZero.string_of_uint (Nat.to_uint n).

(** [selectedNodeIds.includes(x)] *)
Definition idsInclude (ids : list string) (x : string) : bool :=
  existsb (String.eqb x) ids.

(** The graph handed to the enrichment by [bulkDeleteSelection]. *)
Definition bulkDeletedGraph (selected : list string) (g : KnowledgeGraph.t)
  : KnowledgeGraph.t :=
  let newNodes :=
    List.filter (fun n => negb (idsInclude selected (nid n))) (KnowledgeGraph.nodes g) in
  let newEdges :=
    List.filter
      (fun e => negb (idsInclude selected (esrc e)) && negb (idsInclude selected (etgt e)))
      (KnowledgeGraph.edges g) in
  KnowledgeGraph.mk newNodes newEdges None.

(** [if (selectedNodeIds.length === 0) return;] comes first.  [toastId]
    is the id drawn for the toast. *)
Definition bulkDeleteSelection (toastId : string) (st : selecting) : option selecting :=
  match selectedNodeIds st with
  | [] => Some st
  | _ :: _ =>
      match enrichGraphWithMetrics
              (bulkDeletedGraph (selectedNodeIds st) (graph (slots st))) with
      | Some enriched =>
          Some
            (addToast toastId "Bulk Delete"
               ("Removed " ++ decimal (length (selectedNodeIds st)) ++ " nodes.")
               Toast.info
               (mkSelecting (mk enriched enriched) [] (toasts st)))
      | None => None
      end
  end.

(** [multi] is the optional flag, read for its truth value. *)
Definition toggleNodeSelection (id : string) (multi : bool) (st : selecting)
  : selecting :=
  if multi then
    if idsInclude (selectedNodeIds st) id
    then mkSelecting (slots st)
           (List.filter (fun nid => negb (String.eqb nid id)) (selectedNodeIds st))
           (toasts st)
    else mkSelecting (slots st) (selectedNodeIds st ++ [id]) (toasts st)
  else mkSelecting (slots st) [id] (toasts st).

Definition clearSelection (st : selecting) : selecting :=
  mkSelecting (slots st) [] (toasts st).

(** *** Adding nodes and edges

    The raw nodes and edges come from the language model as untyped
    JSON; the embedding gives them the fields the action reads, with the
    types the application expects.  [parseInt] of the host language and
    the generator of edge ids ([Date.now()] and [Math.random()]) are
    parameters. *)

Record rawNode : Type := mkRawNode {
  rawId : string;
  rawLabel : string;
  rawType : NodeType;
  rawDates : option string;
  rawYear : option Z;
  rawDescription : option string;
  rawRegion : option string
}.

Record rawEdge : Type := mkRawEdge {
  rawSource : string;
  rawTarget : string;
  rawRelationship : option string;
  rawEdgeLabel : string;
  rawEdgeDates : option string
}.

Variable parseInt : string -> option Z.
Variable edgeId : nat -> string.

(** [x || 1900] on an optional number: missing, [NaN] and [0] give 1900. *)
Definition or1900 (o : option Z) : Z :=
  match o with
  | Some 0%Z => 1900%Z
  | Some y => y
  | None => 1900%Z
  end.

(** The body of [newNodesRaw.map], wrapped as [{ data: n }]. *)
Definition normalizeNode (n : rawNode) : GraphNode.t :=
  GraphNode.mk
    (NodeData.mk (rawId n) (rawLabel n) (rawType n)
       (Some (match rawDates n with
              | Some dates => or1900 (parseInt (String.substring 0 4 dates))
              | None => or1900 (rawYear n)
              end))
       (rawDescription n) (rawDates n)
       (Some (Num (1 # 2)))
       (Some (match rawRegion n with
              | Some EmptyString => "Unknown"
              | Some r => r
              | None => "Unknown"
              end))
       None None None None None None None None None None None)
    None None.

(** The body of [newEdgesRaw.map] for the [k]-th raw edge. *)
Definition normalizeEdge (k : nat) (e : rawEdge) : GraphEdge.t :=
  GraphEdge.mk
    (EdgeData.mk (edgeId k) (rawSource e) (rawTarget e)
       (match rawRelationship e with
        | Some EmptyString => rawEdgeLabel e
        | Some r => r
        | None => rawEdgeLabel e
        end)
       (rawEdgeDates e) None None None None).

(** The graph handed to the enrichment by [addNodesAndEdges]. *)
Definition extendedGraph (newNodesRaw : list rawNode) (newEdgesRaw : list rawEdge)
    (g : KnowledgeGraph.t) : KnowledgeGraph.t :=
  let existingIds := List.map nid (KnowledgeGraph.nodes g) in
  let uniqueNodes :=
    List.map normalizeNode
      (List.filter (fun n => negb (idsInclude existingIds (rawId n))) newNodesRaw) in
  let uniqueEdges := imap normalizeEdge newEdgesRaw in
  KnowledgeGraph.mk (KnowledgeGraph.nodes g ++ uniqueNodes)
    (KnowledgeGraph.edges g ++ uniqueEdges) None.

Definition addNodesAndEdges (newNodesRaw : list rawNode) (newEdgesRaw : list rawEdge)
    (st : state) : option state :=
  match enrichGraphWithMetrics (extendedGraph newNodesRaw newEdgesRaw (graph st)) with
  | Some enriched => Some (mk enriched enriched)
  | None => None
  end.

End Store.

End Store.

(** ** Concrete graphs used in the examples *)

Definition mkNode (i l : string) (t : NodeType) : GraphNode.t :=
  GraphNode.mk
    (NodeData.mk i l t None None None None None None None None None None None
       None None None None None)
    None None.

Definition mkEdge (i s t l : string) (sg : option Sign) : GraphEdge.t :=
  GraphEdge.mk (EdgeData.mk i s t l None None sg None None).

(** No node and no edge. *)
Definition emptyGraph : KnowledgeGraph.t := KnowledgeGraph.mk [] [] None.

(** One isolated node. *)
Definition loneGraph : KnowledgeGraph.t :=
  KnowledgeGraph.mk [mkNode "a" "Roman Dmowski" Person] [] None.

(** Numbers of the cytoscape library for the examples: every metric of
    every element is the given value. *)
Definition constantLibrary (v : number)
  : list GraphNode.t -> list GraphEdge.t -> Cytoscape.metrics :=
  fun _ _ =>
    Cytoscape.mkMetrics (fun _ => v) (fun _ => v) (fun _ => v) (fun _ => v) (fun _ => v).

(** An edge whose label reads as a conflict but whose sign and certainty
    were set by hand, next to an edge that has neither. *)
Definition signedEdge : GraphEdge.t :=
  GraphEdge.mk
    (EdgeData.mk "e1" "a" "b" "conflict over the party line" None None
       (Some positive) None (Some disputed)).

Definition signedGraph : KnowledgeGraph.t :=
  KnowledgeGraph.mk
    [mkNode "a" "Roman Dmowski" Person; mkNode "b" "Liga Narodowa" Organization]
    [signedEdge; mkEdge "e2" "b" "a" "rywal" None]
    None.

(** ** Predicates used in the statements *)

(** What one edge of the output owes to the edge at the same position of
    the input. *)
Definition stickyEdge (e e' : GraphEdge.t) : Prop :=
  let d := GraphEdge.data e in
  let d' := GraphEdge.data e' in
  (forall s, EdgeData.sign d = Some s -> EdgeData.sign d' = Some s) /\
  (forall c, EdgeData.certainty d = Some c -> EdgeData.certainty d' = Some c) /\
  (EdgeData.sign d = None ->
   EdgeData.sign d' = Some (heuristicSign (EdgeData.label d))) /\
  (EdgeData.certainty d = None -> EdgeData.certainty d' = Some confirmed).

(** The fields of a node that enrichment never assigns. *)
Definition nodeFrame (n : GraphNode.t) :=
  let d := GraphNode.data n in
  (NodeData.id d, NodeData.label d, NodeData.type d, NodeData.region d,
   NodeData.importance d, NodeData.year d, NodeData.description d,
   (NodeData.dates d, NodeData.embedding d, NodeData.sources d,
    NodeData.certainty d, GraphNode.position n, GraphNode.selected n)).

(** The fields of an edge that enrichment never assigns. *)
Definition edgeFrame (e : GraphEdge.t) :=
  let d := GraphEdge.data e in
  (EdgeData.id d, EdgeData.source d, EdgeData.target d, EdgeData.label d,
   EdgeData.dates d, EdgeData.weight d, EdgeData.isBalanced d).

(** [graph.meta.globalBalance] *)
Definition globalBalanceOf (g : KnowledgeGraph.t) : option number :=
  match KnowledgeGraph.meta g with
  | Some m => Meta.globalBalance m
  | None => None
  end.

(** An optional field holds an ordinary number denoting [q]. *)
Definition holds (o : option number) (q : Q) : Prop :=
  exists v, o = Some v /\ is_num v q.

(** The id that takes the place of [x] when [dropId] is merged into
    [keepId]. *)
Definition redirectId (keepId dropId x : string) : string :=
  if String.eqb x dropId then keepId else x.

(** [g'] is [g] after merging node [dropId] into node [keepId]. *)
Definition mergedInto (keepId dropId : string) (g g' : KnowledgeGraph.t) : Prop :=
  (* the dropped node is gone; the others stay, in order *)
  List.map nodeFrame (KnowledgeGraph.nodes g')
  = List.map nodeFrame
      (List.filter (fun n => negb (String.eqb (nid n) dropId)) (KnowledgeGraph.nodes g))
  /\ Forall (fun n => nid n <> dropId) (KnowledgeGraph.nodes g')
  (* no edge is a self-loop *)
  /\ Forall (fun e => esrc e <> etgt e) (KnowledgeGraph.edges g')
  (* every edge of the result is an edge of the input with the dropped id
     replaced by the kept one, and nothing else changed in its endpoints *)
  /\ (forall e', In e' (KnowledgeGraph.edges g') ->
      exists e, In e (KnowledgeGraph.edges g)
                /\ EdgeData.id (GraphEdge.data e') = EdgeData.id (GraphEdge.data e)
                /\ esrc e' = redirectId keepId dropId (esrc e)
                /\ etgt e' = redirectId keepId dropId (etgt e))
  (* every edge of the input is still there, redirected, unless the
     redirection makes it a self-loop *)
  /\ (forall e, In e (KnowledgeGraph.edges g) ->
      redirectId keepId dropId (esrc e) <> redirectId keepId dropId (etgt e) ->
      exists e', In e' (KnowledgeGraph.edges g')
                 /\ EdgeData.id (GraphEdge.data e') = EdgeData.id (GraphEdge.data e)
                 /\ esrc e' = redirectId keepId dropId (esrc e)
                 /\ etgt e' = redirectId keepId dropId (etgt e))
  (* no edge mentions the dropped id any more *)
  /\ (keepId <> dropId ->
      Forall (fun e => esrc e <> dropId /\ etgt e <> dropId) (KnowledgeGraph.edges g')).

(** Dmowski appears twice; the second entry is merged into the first. *)
Definition duplicatedGraph : KnowledgeGraph.t :=
  KnowledgeGraph.mk
    [mkNode "dmowski" "Roman Dmowski" Person;
     mkNode "dmowski2" "Roman Dmowski" Person;
     mkNode "liga" "Liga Narodowa" Organization]
    [mkEdge "e1" "dmowski2" "liga" "founded" None;
     mkEdge "e2" "liga" "dmowski2" "led by" None;
     mkEdge "e3" "dmowski" "dmowski2" "same as" None;
     mkEdge "e4" "dmowski" "liga" "member" None]
    None.

(** The inner loop of [detectDuplicates] pushes candidate [c] for the
    pair [(d1, d2)]. *)
Definition emits (threshold : Q) (d1 d2 : NodeData.t) (c : DuplicateCandidate.t)
  : Prop :=
  NodeData.type d1 = NodeData.type d2
  /\ Qle_bool threshold
       (GraphService.lexicalSimilarity (NodeData.label d1) (NodeData.label d2)) = true
  /\ c = DuplicateCandidate.mk d1 d2
           (GraphService.lexicalSimilarity (NodeData.label d1) (NodeData.label d2)).

(** Two persons whose labels are both empty. *)
Definition unlabelledGraph : KnowledgeGraph.t :=
  KnowledgeGraph.mk [mkNode "a" "" Person; mkNode "b" "" Person] [] None.

(** ** Triadic balance in the words of the specification *)

(** All pairs and all triples of a list, in the order of their positions. *)
Fixpoint pairsOf (l : list string) : list (string * string) :=
  match l with
  | [] => []
  | u :: rest => List.map (pair u) rest ++ pairsOf rest
  end.

Fixpoint triplesOf (l : list string) : list (string * string * string) :=
  match l with
  | [] => []
  | u :: rest => List.map (fun vw => (u, fst vw, snd vw)) (pairsOf rest) ++ triplesOf rest
  end.

(** Edge [e] joins [u] and [v], in either direction. *)
Definition joins (u v : string) (e : GraphEdge.t) : bool :=
  (String.eqb (esrc e) u && String.eqb (etgt e) v)
  || (String.eqb (esrc e) v && String.eqb (etgt e) u).

(** The sign (+1 or -1) of the pair [{u, v}]: that of the last edge of the
    list joining them; [None] when no edge joins them. *)
Definition signBetween (edges : list GraphEdge.t) (u v : string) : option Z :=
  last (List.map signValue (List.filter (joins u v) edges)).

(** All three pairwise edges of the triple exist. *)
Definition isTriangle (edges : list GraphEdge.t) (t : string * string * string) : bool :=
  let '(u, v, w) := t in
  bool_decide (is_Some (signBetween edges u v))
  && bool_decide (is_Some (signBetween edges v w))
  && bool_decide (is_Some (signBetween edges w u)).

(** The product of the three signs. *)
Definition signProduct (edges : list GraphEdge.t) (t : string * string * string) : Z :=
  let '(u, v, w) := t in
  (default 0 (signBetween edges u v) * default 0 (signBetween edges v w)
   * default 0 (signBetween edges w u))%Z.


Definition isBalancedTriangle (edges : list GraphEdge.t) (t : string * string * string)
  : bool :=
  (0 <? signProduct edges t)%Z.

(** [balancedTriangleCount / totalTriangleCount] over the triples of
    [ids], 1 when there is no triangle. *)
Definition specGlobalBalance (edges : list GraphEdge.t) (ids : list string) : number :=
  let triangles := List.filter (isTriangle edges) (triplesOf ids) in
  let balanced := List.filter (isBalancedTriangle edges) triangles in
  match triangles with
  | [] => Num 1
  | _ => Num (inject_Z (Z.of_nat (length balanced)) / inject_Z (Z.of_nat (length triangles)))
  end.

Definition graphIds (g : KnowledgeGraph.t) : list string :=
  List.map nid (KnowledgeGraph.nodes g).

(** Three nodes joined pairwise; the edge between [b] and [c] has the
    given sign. *)
Definition triangleGraph (s : Sign) : KnowledgeGraph.t :=
  KnowledgeGraph.mk
    [mkNode "a" "Roman Dmowski" Person; mkNode "b" "Liga Narodowa" Organization;
     mkNode "c" "Zygmunt Balicki" Person]
    [mkEdge "e1" "a" "b" "founded" (Some positive);
     mkEdge "e2" "c" "b" "member" (Some s);
     mkEdge "e3" "c" "a" "ally" (Some positive)]
    None.



(** One step of the count over a list of triples. *)
Definition tallyStep (edges : list GraphEdge.t) (c : Counters.t)
    (t : string * string * string) : Counters.t :=
  if isTriangle edges t
  then Counters.mk (S (Counters.totalTriangles c))
         (if isBalancedTriangle edges t
          then S (Counters.balancedTriangles c)
          else Counters.balancedTriangles c)
  else c.

(** ** Cosine similarity in the words of the specification *)

Module CosineSpec.

Local Open Scope R_scope.

(** [sum_i a_i * b_i] *)
Fixpoint dot (a b : list R) : R :=
  match a, b with
  | x :: a', y :: b' => x * y + dot a' b'
  | _, _ => 0
  end.

(** The squared Euclidean norm, [sum_i a_i^2]. *)
Definition norm2 (a : list R) : R := dot a a.

(** The standard cosine of two vectors. *)
Definition cosine (a b : list R) : R := dot a b / (sqrt (norm2 a) * sqrt (norm2 b)).

End CosineSpec.

(** ** Sums of rationals over a list *)

Definition sumQ (l : list Q) : Q := fold_right Qplus 0%Q l.

(** [sum_{x in l} f x] *)
Definition sumOver {A : Type} (f : A -> Q) (l : list A) : Q := sumQ (List.map f l).

(** ** Predicates on rank tables *)

(** The rank held for [u], read as a rational. *)
Definition rankOf (ranks : gmap string number) (u : string) : Q :=
  or_zero (ranks !! u).

(** What the source of edge [e] passes along it in one PageRank round. *)
Definition share (edges : list GraphEdge.t) (ranks : gmap string number)
    (e : GraphEdge.t) : Q :=
  let out := Part005.outDegree edges (esrc e) in
  if (0 <? out)%nat then (rankOf ranks (esrc e) / inject_Z (Z.of_nat out))%Q else 0%Q.

(** Every id of [ids] has an ordinary, non-negative rank and the ranks of
    the distinct ids sum to at most 1. *)
Definition ranksOk (ids : list string) (ranks : gmap string number) : Prop :=
  (forall u, In u ids -> exists q, ranks !! u = Some (Num q) /\ (0 <= q)%Q)
  /\ (sumOver (rankOf ranks) (List.nodup string_dec ids) <= 1)%Q.

(** Every edge starts at a node of the graph. *)
Definition sourcesAreNodes (g : KnowledgeGraph.t) : Prop :=
  forall e, In e (KnowledgeGraph.edges g) -> In (esrc e) (graphIds g).

(** An optional field holds an ordinary number of the unit interval. *)
Definition holdsUnit (o : option number) : Prop :=
  exists v, o = Some v /\ in_unit v.

(** One node and one edge that arrives from an id that is not a node. *)
Definition danglingGraph : KnowledgeGraph.t :=
  KnowledgeGraph.mk
    [mkNode "a" "Roman Dmowski" Person]
    [mkEdge "e1" "x" "a" "influenced" None]
    None.

(** ** Predicates on the traversal of [detectCommunities] *)

(** Every id that occurs as an endpoint of an edge. *)
Definition endpoints (edges : list GraphEdge.t) : list string :=
  List.map esrc edges ++ List.map etgt edges.

(** Every visited id has a community. *)
Definition covered (visited : gset string) (communities : gmap string nat) : Prop :=
  forall x, x ∈ visited -> is_Some (communities !! x).

(** What is left to do in a traversal: the queue, and the endpoints not
    yet visited. *)
Definition bfsMeasure (edges : list GraphEdge.t) (st : Bfs.state) : nat :=
  length (Bfs.queue st)
  + size ((list_to_set (remove_dups (endpoints edges)) : gset string) ∖ Bfs.visited st).

(** Two nodes joined only through an id that is not a node. *)
Definition bridgedGraph : KnowledgeGraph.t :=
  KnowledgeGraph.mk
    [mkNode "a" "Roman Dmowski" Person; mkNode "b" "Liga Narodowa" Organization]
    [mkEdge "e1" "a" "x" "wrote" None; mkEdge "e2" "x" "b" "cited by" None]
    None.

(** Both endpoints of the edge are ids of nodes. *)
Definition wellFormedEdge (nodes : list GraphNode.t) (e : GraphEdge.t) : bool :=
  existsb (String.eqb (esrc e)) (List.map nid nodes)
  && existsb (String.eqb (etgt e)) (List.map nid nodes).

(** The number of edge ends that sit at [u]. *)
Definition incidence (edges : list GraphEdge.t) (u : string) : nat :=
  length (List.filter (fun e => String.eqb (esrc e) u) edges)
  + length (List.filter (fun e => String.eqb (etgt e) u) edges).

(** The graph without the edges that have a missing endpoint. *)
Definition withoutDangling (g : KnowledgeGraph.t) : KnowledgeGraph.t :=
  KnowledgeGraph.mk (KnowledgeGraph.nodes g)
    (List.filter (wellFormedEdge (KnowledgeGraph.nodes g)) (KnowledgeGraph.edges g))
    (KnowledgeGraph.meta g).

(** No edge names, as its source or its target, an inherited member that
    is not the id of a node. *)
Definition noInheritedEndpoint (g : KnowledgeGraph.t) : Prop :=
  forall k, In k (endpoints (KnowledgeGraph.edges g)) ->
            Part005.inherited k = true -> In k (graphIds g).

(** Two nodes, an edge between them, and an edge that leaves for an id
    that is not a node but the name of an inherited member. *)
Definition inheritedGraph : KnowledgeGraph.t :=
  KnowledgeGraph.mk
    [mkNode "a" "Roman Dmowski" Person; mkNode "b" "Liga Narodowa" Organization]
    [mkEdge "e1" "a" "b" "founded" None; mkEdge "e2" "a" "constructor" "wrote" None]
    None.

(** One node and one edge that leaves it for an id that is not a node. *)
Definition strayGraph : KnowledgeGraph.t :=
  KnowledgeGraph.mk
    [mkNode "a" "Roman Dmowski" Person]
    [mkEdge "e1" "a" "x" "influenced" None]
    None.

(** ** The edit-distance matrix, cell by cell *)

(** [matrix[i][j]] as the loops of [getLevenshteinDistance] fill it, for
    [i <= b.length] and [j <= a.length] (0 outside that range). *)
Fixpoint levCell (a b : string) (i : nat) : nat -> nat :=
  match i with
  | O => fun j => j
  | S i' =>
      fix row (j : nat) : nat :=
        match j with
        | O => S i'
        | S j' =>
            match String.get i' b, String.get j' a with
            | Some bc, Some ac =>
                if Ascii.eqb bc ac then levCell a b i' j'
                else Nat.min (levCell a b i' j' + 1)
                       (Nat.min (row j' + 1) (levCell a b i' (S j') + 1))
            | _, _ => O
            end
        end
  end.

(** ** Connectivity, for the community detector *)

(** Some edge joins [x] and [y], in either direction. *)
Definition adjacent (edges : list GraphEdge.t) (x y : string) : Prop :=
  exists e, In e edges
            /\ ((esrc e = x /\ etgt e = y) \/ (etgt e = x /\ esrc e = y)).

(** [y] can be reached from [x] along edges, whatever their direction. *)
Inductive connected (edges : list GraphEdge.t) : string -> string -> Prop :=
| connected_refl (x : string) : connected edges x x
| connected_step (x y z : string) :
    connected edges x y -> adjacent edges y z -> connected edges x z.

(** The state of a traversal that hands out community [c]: [busy] is the
    id whose neighbours are being visited, if any. *)
Record traversalInv (edges : list GraphEdge.t) (c : nat) (busy : option string)
    (queue : list string) (visited : gset string) (communities : gmap string nat)
  : Prop := {
  inv_dom : forall x, x ∈ visited <-> is_Some (communities !! x);
  inv_queue : forall x, In x queue -> communities !! x = Some c;
  inv_busy : forall x, busy = Some x -> communities !! x = Some c;
  inv_closed : forall x k,
      communities !! x = Some k -> ~ In x queue -> busy <> Some x ->
      forall y, adjacent edges x y -> communities !! y = Some k;
  inv_sound : forall x y k,
      communities !! x = Some k -> communities !! y = Some k -> connected edges x y
}.


(** The state of [detectCommunities] between two traversals: every
    labelled id has all its neighbours in its own community, ids that
    share a community are connected, the ids handed out are below
    [nextCommunityId], and every community holds a node of [nodes]. *)
Definition detectInv (edges : list GraphEdge.t) (nodes : list GraphNode.t)
    (st : Detect.state) : Prop :=
  traversalInv edges 0 None [] (Detect.visited st) (Detect.communities st)
  /\ (forall x k, Detect.communities st !! x = Some k ->
                  (k < Detect.nextCommunityId st)%nat)
  /\ (forall x k, Detect.communities st !! x = Some k ->
                  exists n, In n nodes /\ Detect.communities st !! nid n = Some k).


(** ** Predicates on the adjacency list of the clustering coefficient *)

(** [adj.get(u)] exists and holds [v]. *)
Definition listed (adj : gmap string (list string)) (u v : string) : Prop :=
  exists N, adj !! u = Some N /\ In v N.

(** The pair is linked in the adjacency list, as the inner loop of
    [calculateClusteringCoefficient] tests it. *)
Definition linked (adj : gmap string (list string)) (p : string * string) : bool :=
  GraphService.hasNeighbor adj (fst p) (snd p).


(** ** Referential integrity *)

(** Both endpoints of every edge are ids of nodes. *)
Definition referencesIntact (g : KnowledgeGraph.t) : Prop :=
  forall e, In e (KnowledgeGraph.edges g) ->
            In (esrc e) (graphIds g) /\ In (etgt e) (graphIds g).


(** ** Regional metrics (the same function in both analytics modules) *)

(** [nodes.find(n => n.data.id === id)] *)
Definition findNode (nodes : list GraphNode.t) (id : string) : option GraphNode.t :=
  List.find (fun n => String.eqb (nid n) id) nodes.

(** [x?.data.region] *)
Definition regionOf (o : option GraphNode.t) : option string :=
  match o with
  | Some n => NodeData.region (GraphNode.data n)
  | None => None
  end.

(** The truth value of an optional string: a missing one and the empty
    one are falsy. *)
Definition truthyString (o : option string) : bool :=
  match o with
  | Some EmptyString => false
  | Some _ => true
  | None => false
  end.

(** [r !== 'Unknown'] *)
Definition notUnknown (o : option string) : bool :=
  negb (bool_decide (o = Some "Unknown")).

(** The guard of [edges.forEach]: both endpoints are found and carry a
    region that is neither empty nor ['Unknown']. *)
Definition validEdge (nodes : list GraphNode.t) (e : GraphEdge.t) : bool :=
  let src := regionOf (findNode nodes (esrc e)) in
  let tgt := regionOf (findNode nodes (etgt e)) in
  truthyString src && truthyString tgt && notUnknown src && notUnknown tgt.

(** [src.data.region === tgt.data.region] *)
Definition sameRegion (nodes : list GraphNode.t) (e : GraphEdge.t) : bool :=
  bool_decide (regionOf (findNode nodes (esrc e)) = regionOf (findNode nodes (etgt e))).

Module RegionCounters.
Record t : Type := mk { sameRegionEdges : nat; totalValidEdges : nat }.
End RegionCounters.

(** The body of [edges.forEach]. *)
Definition countEdge (nodes : list GraphNode.t) (c : RegionCounters.t) (e : GraphEdge.t)
  : RegionCounters.t :=
  if validEdge nodes e
  then RegionCounters.mk
         (if sameRegion nodes e then S (RegionCounters.sameRegionEdges c)
          else RegionCounters.sameRegionEdges c)
         (S (RegionCounters.totalValidEdges c))
  else c.

(** [totalValidEdges > 0 ? sameRegionEdges / totalValidEdges : 0] *)
Definition isolationIndexOf (c : RegionCounters.t) : number :=
  if (0 <? RegionCounters.totalValidEdges c)%nat
  then ndiv (of_nat (RegionCounters.sameRegionEdges c))
            (of_nat (RegionCounters.totalValidEdges c))
  else Num 0.

(** [n.data.importance || 1]: a missing importance, [0] and [NaN] give 1. *)
Definition importanceOr1 (o : option number) : Q :=
  match o with
  | Some (Num q) => if Qeq_bool q 0 then 1%Q else q
  | _ => 1%Q
  end.

(** The body of [neighbors.forEach] for a node of region [own]. *)
Definition countDifferent (nodes : list GraphNode.t) (own : option string)
    (differentRegionCount : nat) (neighborId : string) : nat :=
  let r := regionOf (findNode nodes neighborId) in
  if truthyString r && notUnknown r && negb (bool_decide (r = own))
  then S differentRegionCount
  else differentRegionCount.

(** [differentRegionCount * (n.data.importance || 1)] *)
Definition bridgeScore (nodes : list GraphNode.t) (edges : list GraphEdge.t)
    (n : GraphNode.t) : Q :=
  let d := GraphNode.data n in
  let neighbors := neighborsOf edges (NodeData.id d) in
  let differentRegionCount :=
    fold_left (countDifferent nodes (NodeData.region d)) neighbors 0%nat in
  (inject_Z (Z.of_nat differentRegionCount) * importanceOr1 (NodeData.importance d))%Q.

(** [scores[k] = v] on a record whose keys are kept in the order of their
    creation: an existing key keeps its place. *)
Fixpoint assign (k : string) (v : Q) (scores : list (string * Q)) : list (string * Q) :=
  match scores with
  | [] => [(k, v)]
  | (k', v') :: rest =>
      if String.eqb k' k then (k, v) :: rest else (k', v') :: assign k v rest
  end.

(** The body of [nodes.forEach]. *)
Definition scoreNode (nodes : list GraphNode.t) (edges : list GraphEdge.t)
    (bridgeScores : list (string * Q)) (n : GraphNode.t) : list (string * Q) :=
  if bool_decide (NodeData.region (GraphNode.data n) = Some "Unknown") then bridgeScores
  else assign (nid n) (bridgeScore nodes edges n) bridgeScores.

(** A key that is an array index: a decimal numeral without a leading
    zero, below [2^32 - 1]. *)
Definition digitOf (c : ascii) : option N :=
  let n := N_of_ascii c in
  if ((48 <=? n) && (n <=? 57))%N then Some (n - 48)%N else None.

Fixpoint numeral (s : string) (acc : N) : option N :=
  match s with
  | EmptyString => Some acc
  | String c rest =>
      match digitOf c with
      | Some d => numeral rest (acc * 10 + d)%N
      | None => None
      end
  end.

Definition arrayIndex (s : string) : option N :=
  match s with
  | EmptyString => None
  | String c rest =>
      if Ascii.eqb c "0"%char
      then match rest with EmptyString => Some 0%N | _ => None end
      else match numeral s 0 with
           | Some n => if (n <? 4294967295)%N then Some n else None
           | None => None
           end
  end.

(** [Object.entries]: the array-index keys first, in ascending order,
    then the other keys in the order of their creation. *)
Fixpoint insertIndex (i : N) (kv : string * Q) (sorted : list (N * (string * Q)))
  : list (N * (string * Q)) :=
  match sorted with
  | [] => [(i, kv)]
  | (j, x) :: rest =>
      if (i <? j)%N then (i, kv) :: (j, x) :: rest else (j, x) :: insertIndex i kv rest
  end.

Definition indexedEntries (scores : list (string * Q)) : list (N * (string * Q)) :=
  fold_left
    (fun sorted kv =>
       match arrayIndex (fst kv) with
       | Some i => insertIndex i kv sorted
       | None => sorted
       end)
    scores [].

Definition Object_entries (scores : list (string * Q)) : list (string * Q) :=
  List.map snd (indexedEntries scores)
  ++ List.filter (fun kv => negb (bool_decide (is_Some (arrayIndex (fst kv))))) scores.

(** [.sort(([, a], [, b]) => b - a)]: a stable sort, descending. *)
Fixpoint insertScore (e : string * Q) (sorted : list (string * Q)) : list (string * Q) :=
  match sorted with
  | [] => [e]
  | x :: rest =>
      if Qle_bool (snd e) (snd x) then x :: insertScore e rest else e :: x :: rest
  end.

Definition sortByScore (l : list (string * Q)) : list (string * Q) :=
  fold_left (fun sorted e => insertScore e sorted) l [].

Module Bridge.
Record t : Type := mk { id : string; label : string; score : Q }.
End Bridge.

(** [nodes.find(n => n.data.id === id)?.data.label || id] *)
Definition labelOrId (nodes : list GraphNode.t) (id : string) : string :=
  match findNode nodes id with
  | Some n =>
      match NodeData.label (GraphNode.data n) with
      | EmptyString => id
      | l => l
      end
  | None => id
  end.

Module RegionalAnalysisResult.
Record t : Type := mk {
  isolationIndex : number;
  bridges : list Bridge.t;
  dominantRegion : string
}.
End RegionalAnalysisResult.

Definition bridgeScoresOf (nodes : list GraphNode.t) (edges : list GraphEdge.t)
  : list (string * Q) :=
  fold_left (scoreNode nodes edges) nodes [].

Definition calculateRegionalMetrics (graph : KnowledgeGraph.t)
  : RegionalAnalysisResult.t :=
  let nodes := KnowledgeGraph.nodes graph in
  let edges := KnowledgeGraph.edges graph in
  let c := fold_left (countEdge nodes) edges (RegionCounters.mk 0 0) in
  let bridgeScores := bridgeScoresOf nodes edges in
  let sortedBridges :=
    List.map (fun kv => Bridge.mk (fst kv) (labelOrId nodes (fst kv)) (snd kv))
      (take 5 (sortByScore (Object_entries bridgeScores))) in
  RegionalAnalysisResult.mk (isolationIndexOf c) sortedBridges "Wielkopolska".

(** Nodes of three regions; Dmowski links Warszawa to the two others. *)
Definition regionNode (i l : string) (r : option string) (imp : option number)
  : GraphNode.t :=
  GraphNode.mk
    (NodeData.mk i l Person None None None imp r None None None None None None
       None None None None None)
    None None.

Definition regionalGraph : KnowledgeGraph.t :=
  KnowledgeGraph.mk
    [regionNode "dmowski" "Roman Dmowski" (Some "Warszawa") (Some (Num 2));
     regionNode "balicki" "Zygmunt Balicki" (Some "Warszawa") None;
     regionNode "seyda" "Marian Seyda" (Some "Wielkopolska") None;
     regionNode "glabinski" "" (Some "Galicja") None;
     regionNode "x" "Nieznany" (Some "Unknown") None]
    [mkEdge "e1" "dmowski" "balicki" "ally" None;
     mkEdge "e2" "dmowski" "seyda" "ally" None;
     mkEdge "e3" "glabinski" "dmowski" "ally" None;
     mkEdge "e4" "x" "dmowski" "met" None]
    None.


(** ** Semantic duplicate detection (the same function in both analytics
    modules, up to a guard that never fires) *)

Module SemanticCandidate.
Record t : Type := mk { nodeA : NodeData.t; nodeB : NodeData.t; similarity : R }.
End SemanticCandidate.

Module Semantic.

Section Detection.

Variable embedContent : nat -> string -> option (list R).

(** [`${node.data.label}: ${node.data.description || ''}`] *)
Definition embeddingText (d : NodeData.t) : string :=
  NodeData.label d ++ ": " ++ match NodeData.description d with
                              | Some s => s
                              | None => ""
                              end.

(** The body of the first loop:
    [nodeEmbeddings[node.data.id] = await getEmbedding(text)]. *)
Definition embedNode (acc : gmap string (list R) * EmbeddingService.session)
    (node : GraphNode.t) : gmap string (list R) * EmbeddingService.session :=
  let r := EmbeddingService.getEmbedding embedContent
             (embeddingText (GraphNode.data node)) (snd acc) in
  (<[nid node := fst r]> (fst acc), snd r).

(** The body of the inner loop.  Every node looked at has an entry in
    [nodeEmbeddings]; the cytoscape-backed module also skips a missing
    entry, which is the last branch. *)
Definition comparePair (threshold : R) (nodeEmbeddings : gmap string (list R))
    (candidates : list SemanticCandidate.t) (n1 n2 : NodeData.t)
  : list SemanticCandidate.t :=
  if bool_decide (NodeData.type n1 <> NodeData.type n2) then candidates
  else if String.eqb (NodeData.id n1) (NodeData.id n2) then candidates
  else
    match nodeEmbeddings !! NodeData.id n1, nodeEmbeddings !! NodeData.id n2 with
    | Some vec1, Some vec2 =>
        if negb (length vec1 =? 0)%nat && negb (length vec2 =? 0)%nat
        then
          let sim := EmbeddingService.cosineSimilarity vec1 vec2 in
          if Rle_dec threshold sim
          then candidates ++ [SemanticCandidate.mk n1 n2 sim]
          else candidates
        else candidates
    | _, _ => candidates
    end.

Fixpoint scanPairs (threshold : R) (nodeEmbeddings : gmap string (list R))
    (nodes : list GraphNode.t) (candidates : list SemanticCandidate.t)
  : list SemanticCandidate.t :=
  match nodes with
  | [] => candidates
  | n1 :: rest =>
      scanPairs threshold nodeEmbeddings rest
        (fold_left
           (fun cs n2 =>
              comparePair threshold nodeEmbeddings cs (GraphNode.data n1)
                (GraphNode.data n2))
           rest candidates)
  end.

(** [candidates.sort((a, b) => b.similarity - a.similarity)]: a stable
    sort, descending. *)
Fixpoint insertDesc (c : SemanticCandidate.t) (sorted : list SemanticCandidate.t)
  : list SemanticCandidate.t :=
  match sorted with
  | [] => [c]
  | x :: rest =>
      if Rle_dec (SemanticCandidate.similarity c) (SemanticCandidate.similarity x)
      then x :: insertDesc c rest
      else c :: x :: rest
  end.

Definition sortDesc (cs : list SemanticCandidate.t) : list SemanticCandidate.t :=
  fold_left (fun sorted c => insertDesc c sorted) cs [].

(** [nodes.slice(0, 30)] *)
Definition nodesToCheck (graph : KnowledgeGraph.t) : list GraphNode.t :=
  take 30 (KnowledgeGraph.nodes graph).

Definition detectDuplicatesSemantic (graph : KnowledgeGraph.t) (threshold : R)
    (s : EmbeddingService.session)
  : list SemanticCandidate.t * EmbeddingService.session :=
  let r := fold_left embedNode (nodesToCheck graph) (∅, s) in
  (sortDesc (scanPairs threshold (fst r) (nodesToCheck graph) []), snd r).

End Detection.

End Semantic.


(** ** The string-based duplicate detector of the hand-written module
    ([src/unnamed/part_005], kept there as a fallback)

    Its [getLevenshteinDistance] has the text of the one in
    [graphService.ts], so the embedding of that one is used. *)

Module LegacyDuplicates.

(** [(longer.length - dist) / longer.length].  There is no guard: with two
    empty labels this is [0 / 0], which is [NaN]. *)
Definition stringSimilarity (l1 l2 : string) : number :=
  let longer := if (String.length l2 <? String.length l1)%nat then l1 else l2 in
  let dist := GraphService.getLevenshteinDistance (toLowerCase l1) (toLowerCase l2) in
  ndiv (Num (inject_Z (Z.of_nat (String.length longer)) - inject_Z (Z.of_nat dist)))
       (of_nat (String.length longer)).

(** The body of the inner loop; [sim >= threshold] is false for [NaN]. *)
Definition comparePair (threshold : Q) (candidates : list DuplicateCandidate.t)
    (n1 n2 : NodeData.t) : list DuplicateCandidate.t :=
  if bool_decide (NodeData.type n1 <> NodeData.type n2) then candidates
  else
    match stringSimilarity (NodeData.label n1) (NodeData.label n2) with
    | Num sim =>
        if Qle_bool threshold sim
        then candidates ++ [DuplicateCandidate.mk n1 n2 sim]
        else candidates
    | NaN => candidates
    end.

Fixpoint scanPairs (threshold : Q) (nodes : list GraphNode.t)
    (candidates : list DuplicateCandidate.t) : list DuplicateCandidate.t :=
  match nodes with
  | [] => candidates
  | n1 :: rest =>
      scanPairs threshold rest
        (fold_left
           (fun cs n2 => comparePair threshold cs (GraphNode.data n1) (GraphNode.data n2))
           rest candidates)
  end.

(** The sort is the one of [GraphService.detectDuplicates]. *)
Definition detectDuplicates (graph : KnowledgeGraph.t) (threshold : Q)
  : list DuplicateCandidate.t :=
  GraphService.sortDesc (scanPairs threshold (KnowledgeGraph.nodes graph) []).

(** Default argument [threshold = 0.85]. *)
Definition defaultThreshold : Q := 85 # 100.

End LegacyDuplicates.

(** Two candidates for the same pair whose similarities denote the same
    number. *)
Definition sameCandidate (c1 c2 : DuplicateCandidate.t) : Prop :=
  DuplicateCandidate.nodeA c1 = DuplicateCandidate.nodeA c2
  /\ DuplicateCandidate.nodeB c1 = DuplicateCandidate.nodeB c2
  /\ (DuplicateCandidate.similarity c1 == DuplicateCandidate.similarity c2)%Q.

(** ** Predicates on the actions of the store *)

(** [st'] is [st] after [removeNode(nodeId)]: the graph keeps exactly the
    node ids other than the removed one, no edge mentions the removed id,
    the selection is emptied, both graph slots hold the same graph, the
    toasts stay, and edges that joined two nodes still do. *)
Definition nodeRemoved (nodeId : string) (st st' : Store.selecting) : Prop :=
  let g := Store.graph (Store.slots st) in
  let g' := Store.graph (Store.slots st') in
  Store.selectedNodeIds st' = []
  /\ Store.toasts st' = Store.toasts st
  /\ Store.filteredGraph (Store.slots st') = g'
  /\ (forall u, In u (graphIds g') <-> In u (graphIds g) /\ u <> nodeId)
  /\ (forall e', In e' (KnowledgeGraph.edges g') -> esrc e' <> nodeId /\ etgt e' <> nodeId)
  /\ (referencesIntact g -> referencesIntact g').

(** The toast of [bulkDeleteSelection] for a selection of [n] ids. *)
Definition bulkDeleteToast (toastId : string) (n : nat) : Toast.t :=
  Toast.mk toastId "Bulk Delete" ("Removed " ++ Store.decimal n ++ " nodes.") Toast.info.

(** [st'] is [st] after [bulkDeleteSelection()] with a selection that is
    not empty: the graph keeps exactly the node ids outside the selection,
    no edge mentions a selected id, the selection is emptied, both graph
    slots hold the same graph, one toast is appended, and edges that
    joined two nodes still do. *)
Definition selectionDeleted (toastId : string) (st st' : Store.selecting) : Prop :=
  let g := Store.graph (Store.slots st) in
  let g' := Store.graph (Store.slots st') in
  let selected := Store.selectedNodeIds st in
  Store.selectedNodeIds st' = []
  /\ Store.toasts st' = (Store.toasts st ++ [bulkDeleteToast toastId (length selected)])%list
  /\ Store.filteredGraph (Store.slots st') = g'
  /\ (forall u, In u (graphIds g') <-> In u (graphIds g) /\ ~ In u selected)
  /\ (forall e', In e' (KnowledgeGraph.edges g') ->
                 ~ In (esrc e') selected /\ ~ In (etgt e') selected)
  /\ (referencesIntact g -> referencesIntact g').


(** [g'] is [g] after [addNodesAndEdges(newNodesRaw, newEdgesRaw)]: the
    nodes of [g] stay, in place and with their data; of the raw nodes
    exactly those whose id is not yet in the graph are appended, in order;
    every raw edge is appended after the old edges with the endpoints it
    names.  Distinct old ids and distinct raw ids give distinct new ids;
    and if the old edges joined nodes and every raw edge names old or raw
    nodes, the new edges join nodes too. *)
Definition extendedBy (newNodesRaw : list Store.rawNode)
    (newEdgesRaw : list Store.rawEdge) (g g' : KnowledgeGraph.t) : Prop :=
  let added :=
    List.filter (fun n => negb (Store.idsInclude (graphIds g) (Store.rawId n)))
      newNodesRaw in
  graphIds g' = (graphIds g ++ List.map Store.rawId added)%list
  /\ List.map nodeFrame (take (length (KnowledgeGraph.nodes g)) (KnowledgeGraph.nodes g'))
     = List.map nodeFrame (KnowledgeGraph.nodes g)
  /\ List.map (fun e => (esrc e, etgt e)) (KnowledgeGraph.edges g')
     = (List.map (fun e => (esrc e, etgt e)) (KnowledgeGraph.edges g)
        ++ List.map (fun e => (Store.rawSource e, Store.rawTarget e)) newEdgesRaw)%list
  /\ (List.NoDup (graphIds g) -> List.NoDup (List.map Store.rawId newNodesRaw) ->
      List.NoDup (graphIds g'))
  /\ (referencesIntact g ->
      (forall e, In e newEdgesRaw ->
         (In (Store.rawSource e) (graphIds g)
          \/ In (Store.rawSource e) (List.map Store.rawId newNodesRaw))
         /\ (In (Store.rawTarget e) (graphIds g)
             \/ In (Store.rawTarget e) (List.map Store.rawId newNodesRaw))) ->
      referencesIntact g').

(** * Properties *)

(** ** Edge metrics are sticky *)

Lemma processEdgeMetrics_lookup (edges : list GraphEdge.t) (i : nat) :
  processEdgeMetrics edges !! i = processEdge <$> (edges !! i).
Proof. unfold processEdgeMetrics. apply list_lookup_fmap. Qed.

Lemma Part005_enrich_edges (random : Q) (g : KnowledgeGraph.t) :
  KnowledgeGraph.edges (Part005.enrichGraphWithMetrics random g)
  = processEdgeMetrics (KnowledgeGraph.edges g).
Proof. reflexivity. Qed.

(** The shape of a graph that the cytoscape-backed enrichment returns. *)
Lemma GraphService_enrich_Some library (random : Q) (g g' : KnowledgeGraph.t) :
  GraphService.enrichGraphWithMetrics library random g = Some g' ->
  exists cy newNodes,
    GraphService.cytoscape library (KnowledgeGraph.nodes g) (KnowledgeGraph.edges g)
    = Some cy
    /\ mapM (GraphService.enrichNode cy (Cytoscape.degreeCentralityNormalized cy)
               (GraphService.calculateClusteringCoefficient (KnowledgeGraph.nodes g)
                  (KnowledgeGraph.edges g))
               (detectCommunities g))
         (KnowledgeGraph.nodes g)
       = Some newNodes
    /\ KnowledgeGraph.nodes g' = newNodes
    /\ KnowledgeGraph.edges g' = processEdgeMetrics (KnowledgeGraph.edges g)
    /\ exists m',
        KnowledgeGraph.meta g' = Some m'
        /\ Meta.modularity m' = Some (Num ((4 # 10) + random * (1 # 10)))
        /\ Meta.globalBalance m'
           = Some (TriadicBalance.globalBalance
                     (GraphService.calculateTriadicBalance
                        (KnowledgeGraph.mk (KnowledgeGraph.nodes g)
                           (processEdgeMetrics (KnowledgeGraph.edges g))
                           (KnowledgeGraph.meta g))))
        /\ Meta.lastSaved m' = match KnowledgeGraph.meta g with
                               | Some m0 => Meta.lastSaved m0
                               | None => None
                               end.
Proof.
  unfold GraphService.enrichGraphWithMetrics.
  destruct (GraphService.cytoscape library _ _) as [cy |] eqn:Hcy; [| discriminate].
  cbn zeta. destruct (mapM _ _) as [newNodes |] eqn:Hns; [| discriminate].
  intros [= <-]. exists cy, newNodes.
  split; [reflexivity |]. split; [exact Hns |].
  split; [reflexivity |]. split; [reflexivity |].
  eexists. repeat split.
Qed.

Lemma GraphService_enrich_edges library (random : Q) (g g' : KnowledgeGraph.t) :
  GraphService.enrichGraphWithMetrics library random g = Some g' ->
  KnowledgeGraph.edges g' = processEdgeMetrics (KnowledgeGraph.edges g).
Proof.
  intros Hg'. apply GraphService_enrich_Some in Hg' as (cy & ns & _ & _ & _ & He & _).
  exact He.
Qed.

Lemma processEdge_sticky (e : GraphEdge.t) : stickyEdge e (processEdge e).
Proof.
  unfold stickyEdge, processEdge; cbn.
  repeat split.
  - intros s ->. reflexivity.
  - intros c ->. reflexivity.
  - intros ->. reflexivity.
  - intros ->. reflexivity.
Qed.

(** Claim C5.  For every list of edges and every edge of it, at position
    [i], the edge at position [i] of what [processEdgeMetrics] returns (the
    same function in both analytics modules) has the same sign when the
    input edge had one, and the same certainty when the input edge had
    one; a missing sign becomes the keyword heuristic of the label and a
    missing certainty becomes [confirmed].  The enriched graph of the
    hand-written module carries that edge list, and so does the graph that
    the cytoscape-backed enrichment returns, whenever it returns one. *)
Theorem enrich_sign_certainty_sticky :
  forall library (random : Q) (g : KnowledgeGraph.t) (i : nat) (e : GraphEdge.t),
    KnowledgeGraph.edges g !! i = Some e ->
    (exists e',
        processEdgeMetrics (KnowledgeGraph.edges g) !! i = Some e' /\ stickyEdge e e') /\
    (exists e',
        KnowledgeGraph.edges (Part005.enrichGraphWithMetrics random g) !! i = Some e'
        /\ stickyEdge e e') /\
    (forall g',
        GraphService.enrichGraphWithMetrics library random g = Some g' ->
        exists e', KnowledgeGraph.edges g' !! i = Some e' /\ stickyEdge e e').
Proof.
  intros library random g i e He.
  assert (Hi : exists e',
             processEdgeMetrics (KnowledgeGraph.edges g) !! i = Some e' /\ stickyEdge e e').
  { rewrite processEdgeMetrics_lookup, He; cbn.
    exists (processEdge e); split; auto using processEdge_sticky. }
  split; [exact Hi |]. split.
  - rewrite Part005_enrich_edges. exact Hi.
  - intros g' Hg'. rewrite (GraphService_enrich_edges _ _ _ _ Hg'). exact Hi.
Qed.

Lemma enrich_sign_certainty_sticky_witness :
  (exists e',
      processEdgeMetrics (KnowledgeGraph.edges signedGraph) !! 0%nat = Some e'
      /\ stickyEdge signedEdge e') /\
  (exists e',
      KnowledgeGraph.edges (Part005.enrichGraphWithMetrics 0 signedGraph) !! 0%nat
      = Some e'
      /\ stickyEdge signedEdge e') /\
  (forall g',
      GraphService.enrichGraphWithMetrics (constantLibrary (Num 0)) 0 signedGraph
      = Some g' ->
      exists e', KnowledgeGraph.edges g' !! 0%nat = Some e' /\ stickyEdge signedEdge e').
Proof.
  apply (enrich_sign_certainty_sticky (constantLibrary (Num 0)) 0 signedGraph 0 signedEdge).
  reflexivity.
Defined.

(** The hand-set values of [signedEdge] survive, the unsigned edge gets
    the heuristic. *)
Example signedGraph_edges :
  List.map (fun e => (EdgeData.sign (GraphEdge.data e),
                      EdgeData.certainty (GraphEdge.data e)))
    (KnowledgeGraph.edges (Part005.enrichGraphWithMetrics 0 signedGraph))
  = [(Some positive, Some disputed); (Some negative, Some confirmed)].
Proof. reflexivity. Qed.

(** ** Enrichment leaves the input fields alone *)

Lemma Part005_enrichNode_frame dc pr comm (n : GraphNode.t) :
  nodeFrame (Part005.enrichNode dc pr comm n) = nodeFrame n.
Proof. reflexivity. Qed.

Lemma GraphService_enrichNode_frame cy dcn cl comm (n n' : GraphNode.t) :
  GraphService.enrichNode cy dcn cl comm n = Some n' -> nodeFrame n' = nodeFrame n.
Proof.
  unfold GraphService.enrichNode.
  destruct (negb _); [intros [= <-]; reflexivity |].
  destruct (Cytoscape.degreeMember dcn); [intros [= <-]; reflexivity | discriminate].
Qed.

Lemma processEdge_frame (e : GraphEdge.t) : edgeFrame (processEdge e) = edgeFrame e.
Proof. reflexivity. Qed.

Lemma processEdgeMetrics_frame (edges : list GraphEdge.t) :
  List.map edgeFrame (processEdgeMetrics edges) = List.map edgeFrame edges.
Proof.
  unfold processEdgeMetrics. rewrite List.map_map.
  apply List.map_ext. intros e. apply processEdge_frame.
Qed.

Lemma Part005_enrich_nodes_frame (random : Q) (g : KnowledgeGraph.t) :
  List.map nodeFrame (KnowledgeGraph.nodes (Part005.enrichGraphWithMetrics random g))
  = List.map nodeFrame (KnowledgeGraph.nodes g).
Proof.
  cbn. rewrite List.map_map. apply List.map_ext.
  intros n. apply Part005_enrichNode_frame.
Qed.

Lemma mapM_frames {A B C : Type} (f : A -> option B) (h : A -> C) (h' : B -> C) :
  (forall x y, f x = Some y -> h' y = h x) ->
  forall l k, mapM f l = Some k -> List.map h' k = List.map h l.
Proof.
  intros Hf l k Hk. apply mapM_Some_1 in Hk.
  induction Hk as [| x y l k Hxy _ IH]; [reflexivity |].
  cbn [List.map]. rewrite (Hf x y Hxy), IH. reflexivity.
Qed.

Lemma GraphService_enrich_nodes_frame library (random : Q) (g g' : KnowledgeGraph.t) :
  GraphService.enrichGraphWithMetrics library random g = Some g' ->
  List.map nodeFrame (KnowledgeGraph.nodes g') = List.map nodeFrame (KnowledgeGraph.nodes g).
Proof.
  intros Hg'. apply GraphService_enrich_Some in Hg' as (cy & ns & _ & Hns & -> & _).
  apply (mapM_frames _ nodeFrame nodeFrame) in Hns; [exact Hns |].
  intros n n'. apply GraphService_enrichNode_frame.
Qed.

(** Claim C10.  For every input graph the node list of the enriched graph
    agrees with the input list position by position -- hence in length
    and order -- on id, label, type, region, importance, year and
    description (and on every other field that is not a derived metric);
    the edge list agrees likewise on everything but sign and certainty.
    This holds of the graph that the hand-written enrichment returns, and
    of the graph that the cytoscape-backed enrichment returns, whenever it
    returns one. *)
Theorem enrich_frame :
  forall library (random : Q) (g : KnowledgeGraph.t),
    (List.map nodeFrame (KnowledgeGraph.nodes (Part005.enrichGraphWithMetrics random g))
     = List.map nodeFrame (KnowledgeGraph.nodes g)
     /\ List.map edgeFrame (KnowledgeGraph.edges (Part005.enrichGraphWithMetrics random g))
        = List.map edgeFrame (KnowledgeGraph.edges g)) /\
    (forall g',
        GraphService.enrichGraphWithMetrics library random g = Some g' ->
        List.map nodeFrame (KnowledgeGraph.nodes g')
        = List.map nodeFrame (KnowledgeGraph.nodes g)
        /\ List.map edgeFrame (KnowledgeGraph.edges g')
           = List.map edgeFrame (KnowledgeGraph.edges g)).
Proof.
  intros library random g. split; [split |].
  - apply Part005_enrich_nodes_frame.
  - rewrite Part005_enrich_edges. apply processEdgeMetrics_frame.
  - intros g' Hg'. split.
    + apply (GraphService_enrich_nodes_frame _ _ _ _ Hg').
    + rewrite (GraphService_enrich_edges _ _ _ _ Hg'). apply processEdgeMetrics_frame.
Qed.

Lemma enrich_frame_witness :
  exists g',
    GraphService.enrichGraphWithMetrics (constantLibrary (Num 0)) 0 emptyGraph = Some g'
    /\ List.map nodeFrame (KnowledgeGraph.nodes g')
       = List.map nodeFrame (KnowledgeGraph.nodes emptyGraph)
    /\ List.map edgeFrame (KnowledgeGraph.edges g')
       = List.map edgeFrame (KnowledgeGraph.edges emptyGraph).
Proof.
  eexists. split; [reflexivity |].
  apply (proj2 (enrich_frame (constantLibrary (Num 0)) 0 emptyGraph)).
  reflexivity.
Defined.

(** Agreement of the frames gives agreement of the lengths. *)
Lemma enrich_length (random : Q) (g : KnowledgeGraph.t) :
  length (KnowledgeGraph.nodes (Part005.enrichGraphWithMetrics random g))
  = length (KnowledgeGraph.nodes g).
Proof. cbn. rewrite !List.length_map. auto. Qed.

(** ** When the cytoscape-backed enrichment returns *)

(** The callback throws at a node that the instance holds: [dcn],
    computed with [directed: true], has no member [degree]. *)
Lemma GraphService_enrichNode_throws (cy : Cytoscape.t) cl comm (n : GraphNode.t) :
  Cytoscape.hasElement cy (nid n) = true ->
  GraphService.enrichNode cy (Cytoscape.degreeCentralityNormalized cy) cl comm n
  = None.
Proof.
  intros Hn. unfold GraphService.enrichNode. fold (nid n). rewrite Hn. reflexivity.
Qed.

(** Hence the enrichment throws as soon as the graph has a node. *)
Lemma GraphService_enrich_throws library (random : Q) (g : KnowledgeGraph.t) :
  KnowledgeGraph.nodes g <> [] ->
  GraphService.enrichGraphWithMetrics library random g = None.
Proof.
  intros Hnodes. unfold GraphService.enrichGraphWithMetrics, GraphService.cytoscape.
  destruct (forallb _ _); [| reflexivity]. cbn zeta.
  destruct (KnowledgeGraph.nodes g) as [| n ns]; [contradiction |].
  cbn [mapM]. rewrite GraphService_enrichNode_throws; [reflexivity |].
  unfold Cytoscape.hasElement. cbn [Cytoscape.elements List.map existsb].
  rewrite String.eqb_refl. reflexivity.
Qed.

(** It throws as well when the graph has an edge and no node: the
    constructor finds no element for the endpoints. *)
Lemma GraphService_enrich_returns library (random : Q) (g g' : KnowledgeGraph.t) :
  GraphService.enrichGraphWithMetrics library random g = Some g' ->
  KnowledgeGraph.nodes g = [] /\ KnowledgeGraph.edges g = []
  /\ KnowledgeGraph.nodes g' = [] /\ KnowledgeGraph.edges g' = [].
Proof.
  intros Hg'.
  assert (Hnodes : KnowledgeGraph.nodes g = []).
  { destruct (KnowledgeGraph.nodes g) as [| n ns] eqn:Hn; [reflexivity |].
    rewrite GraphService_enrich_throws in Hg' by (rewrite Hn; discriminate).
    discriminate. }
  pose proof (GraphService_enrich_Some _ _ _ _ Hg') as (cy & ns & Hcy & Hns & Hn' & He' & _).
  assert (Hedges : KnowledgeGraph.edges g = []).
  { unfold GraphService.cytoscape in Hcy. rewrite Hnodes in Hcy.
    destruct (KnowledgeGraph.edges g) as [| e es]; [reflexivity | discriminate]. }
  rewrite Hnodes in Hns. cbn in Hns. injection Hns as <-.
  rewrite Hedges in He'. auto.
Qed.

(** ** The empty graph *)

(** Claim C8.  Enriching the empty graph (either analytics module, any
    meta block) returns, and gives a graph without nodes and without edges
    whose [meta.globalBalance] is 1; degree centrality, PageRank,
    community detection and the clustering coefficient each return the
    empty mapping on it. *)
Theorem enrich_empty_graph :
  forall library (random : Q) (m : option Meta.t) (iterations : nat) (damping : Q),
    let g := KnowledgeGraph.mk [] [] m in
    (KnowledgeGraph.nodes (Part005.enrichGraphWithMetrics random g) = []
     /\ KnowledgeGraph.edges (Part005.enrichGraphWithMetrics random g) = []
     /\ globalBalanceOf (Part005.enrichGraphWithMetrics random g) = Some (Num 1)) /\
    (exists g',
        GraphService.enrichGraphWithMetrics library random g = Some g'
        /\ KnowledgeGraph.nodes g' = []
        /\ KnowledgeGraph.edges g' = []
        /\ globalBalanceOf g' = Some (Num 1)) /\
    Part005.calculateDegreeCentrality g = ∅ /\
    Part005.calculatePageRank g iterations damping = ∅ /\
    detectCommunities g = ∅ /\
    GraphService.calculateClusteringCoefficient [] [] = ∅.
Proof.
  intros library random m iterations damping g.
  split; [repeat split; reflexivity |].
  split; [eexists; repeat split; reflexivity |].
  repeat split; reflexivity.
Qed.

(** ** A single isolated node *)

Section LoneNode.

Variable n : GraphNode.t.
Variable m : option Meta.t.

Let g : KnowledgeGraph.t := KnowledgeGraph.mk [n] [] m.

Lemma lone_rawDegrees : Part005.rawDegrees g = {[nid n := Part005.Count 0]}.
Proof. unfold Part005.rawDegrees; cbn. apply insert_empty. Qed.

Lemma lone_degreeCentrality :
  Part005.calculateDegreeCentrality g = {[nid n := Num (0 / 1)]}.
Proof.
  unfold Part005.calculateDegreeCentrality, Part005.maxDegree.
  rewrite lone_rawDegrees, map_fold_singleton, map_fmap_singleton.
  reflexivity.
Qed.

Lemma lone_pageRankRound (damping : Q) (ranks : gmap string number) :
  Part005.pageRankRound g damping 1 ranks
  = {[nid n := Num ((1 - damping) / 1 + damping * 0)]}.
Proof. unfold Part005.pageRankRound; cbn. apply insert_empty. Qed.

Lemma lone_pageRank (iterations : nat) (damping : Q) :
  Part005.calculatePageRank g (S iterations) damping
  = {[nid n := Num ((1 - damping) / 1 + damping * 0)]}.
Proof.
  unfold Part005.calculatePageRank. cbn [length KnowledgeGraph.nodes g Nat.eqb].
  cbn [Nat.iter nat_rect]. apply lone_pageRankRound.
Qed.

Lemma lone_clustering :
  GraphService.calculateClusteringCoefficient [n] [] = {[nid n := Num 0]}.
Proof.
  unfold GraphService.calculateClusteringCoefficient,
    GraphService.undirectedAdjacency; cbn.
  rewrite insert_empty, map_fmap_singleton. reflexivity.
Qed.

End LoneNode.

Lemma holds_singleton (k : string) (q q' : Q) :
  (q == q')%Q -> holds (({[k := Num q]} : gmap string number) !! k) q'.
Proof.
  intros Hq. exists (Num q). split.
  - apply lookup_singleton_eq.
  - exists q. auto.
Qed.

(** Claim C1 (amended).  For a graph of exactly one node and no edges:
    the clustering coefficient computed for the node is 0 and its degree
    centrality is 0, but its PageRank is [(1 - 0.85) / 1 = 0.15], not 1:
    the rank that a node without incoming edges receives in every round.
    The hand-written enrichment stores that degree centrality and that
    PageRank on the node and leaves the clustering field of the node as
    it was. *)
Theorem lone_node_metrics :
  forall (random : Q) (n : GraphNode.t) (m : option Meta.t),
    let g := KnowledgeGraph.mk [n] [] m in
    holds (GraphService.calculateClusteringCoefficient [n] [] !! nid n) 0 /\
    holds (Part005.calculateDegreeCentrality g !! nid n) 0 /\
    holds (Part005.calculatePageRank g Part005.defaultIterations Part005.defaultDamping
             !! nid n) (15 # 100) /\
    (exists n',
        KnowledgeGraph.nodes (Part005.enrichGraphWithMetrics random g) = [n']
        /\ holds (NodeData.degreeCentrality (GraphNode.data n')) 0
        /\ holds (NodeData.pagerank (GraphNode.data n')) (15 # 100)
        /\ NodeData.clustering (GraphNode.data n')
           = NodeData.clustering (GraphNode.data n)).
Proof.
  intros random n m g.
  assert (Hcl : holds (GraphService.calculateClusteringCoefficient [n] [] !! nid n) 0).
  { rewrite lone_clustering. apply holds_singleton. reflexivity. }
  assert (Hdc : holds (Part005.calculateDegreeCentrality g !! nid n) 0).
  { subst g. rewrite lone_degreeCentrality. apply holds_singleton. reflexivity. }
  assert (Hpr : holds (Part005.calculatePageRank g Part005.defaultIterations
                         Part005.defaultDamping !! nid n) (15 # 100)).
  { subst g. unfold Part005.defaultIterations. rewrite lone_pageRank.
    apply holds_singleton. reflexivity. }
  repeat split; auto.
  eexists; split; [reflexivity |]. cbn.
  split; [exact Hdc | split; [exact Hpr | reflexivity]].
Qed.

(** Claim C1 as stated fails on the PageRank: the lone node of
    [loneGraph] is enriched with PageRank 0.15. *)
Lemma lone_node_pagerank_not_one :
  ~ (exists n',
        KnowledgeGraph.nodes (Part005.enrichGraphWithMetrics 0 loneGraph) = [n']
        /\ holds (NodeData.pagerank (GraphNode.data n')) 1).
Proof.
  intros (n' & Hn & v & Hv & q & -> & Hq).
  vm_compute in Hn. injection Hn as <-.
  vm_compute in Hv. injection Hv as <-.
  vm_compute in Hq. discriminate Hq.
Qed.

(** ** Merging two nodes *)

Lemma map_eq_In {A B : Type} (f : A -> B) (l l' : list A) (x : A) :
  List.map f l' = List.map f l -> In x l' -> exists y, In y l /\ f x = f y.
Proof.
  intros Hmap Hx.
  assert (Hfx : In (f x) (List.map f l)) by (rewrite <- Hmap; apply in_map; exact Hx).
  apply in_map_iff in Hfx as (y & Hy & Hin). exists y. auto.
Qed.

Lemma edgeFrame_endpoints (e e' : GraphEdge.t) :
  edgeFrame e = edgeFrame e' ->
  EdgeData.id (GraphEdge.data e) = EdgeData.id (GraphEdge.data e')
  /\ esrc e = esrc e' /\ etgt e = etgt e'.
Proof. unfold edgeFrame, esrc, etgt. intros H. injection H. auto. Qed.

Lemma nodeFrame_nid (n n' : GraphNode.t) : nodeFrame n = nodeFrame n' -> nid n = nid n'.
Proof. unfold nodeFrame, nid. intros H. injection H. auto. Qed.

Lemma redirect_endpoints (keepId dropId : string) (e : GraphEdge.t) :
  EdgeData.id (GraphEdge.data (Store.redirect keepId dropId e))
  = EdgeData.id (GraphEdge.data e)
  /\ esrc (Store.redirect keepId dropId e) = redirectId keepId dropId (esrc e)
  /\ etgt (Store.redirect keepId dropId e) = redirectId keepId dropId (etgt e).
Proof. repeat split. Qed.

Lemma redirectId_not_drop (keepId dropId x : string) :
  keepId <> dropId -> redirectId keepId dropId x <> dropId.
Proof.
  intros Hne. unfold redirectId.
  destruct (String.eqb_spec x dropId); congruence.
Qed.

(** The two analytics modules, as the store can call them, leave the
    frames of nodes and edges alone whenever they return. *)
Lemma enrichment_frames library (random : Q)
    (enrich : KnowledgeGraph.t -> option KnowledgeGraph.t) :
  enrich = returning (Part005.enrichGraphWithMetrics random)
  \/ enrich = GraphService.enrichGraphWithMetrics library random ->
  (forall g g', enrich g = Some g' ->
                List.map nodeFrame (KnowledgeGraph.nodes g')
                = List.map nodeFrame (KnowledgeGraph.nodes g))
  /\ (forall g g', enrich g = Some g' ->
                   List.map edgeFrame (KnowledgeGraph.edges g')
                   = List.map edgeFrame (KnowledgeGraph.edges g)).
Proof.
  intros [-> | ->]; split; intros g g' Hg'.
  - injection Hg' as <-. apply Part005_enrich_nodes_frame.
  - injection Hg' as <-. rewrite Part005_enrich_edges. apply processEdgeMetrics_frame.
  - apply (GraphService_enrich_nodes_frame _ _ _ _ Hg').
  - rewrite (GraphService_enrich_edges _ _ _ _ Hg'). apply processEdgeMetrics_frame.
Qed.

Section Merge.

Variable enrich : KnowledgeGraph.t -> option KnowledgeGraph.t.

Hypothesis enrich_nodes : forall g g',
    enrich g = Some g' ->
    List.map nodeFrame (KnowledgeGraph.nodes g')
    = List.map nodeFrame (KnowledgeGraph.nodes g).

Hypothesis enrich_edges : forall g g',
    enrich g = Some g' ->
    List.map edgeFrame (KnowledgeGraph.edges g')
    = List.map edgeFrame (KnowledgeGraph.edges g).

Variables keepId dropId : string.
Variables st st' : Store.state.

Hypothesis merged_state : Store.mergeNodes enrich keepId dropId st = Some st'.

Let merged := Store.mergedGraph keepId dropId (Store.graph st).
Let result := Store.graph st'.

Lemma merge_result : enrich merged = Some result.
Proof.
  unfold Store.mergeNodes in merged_state. fold merged in merged_state.
  destruct (enrich merged) as [enriched |]; [| discriminate].
  injection merged_state as <-. reflexivity.
Qed.

Lemma merge_slots : Store.filteredGraph st' = Store.graph st'.
Proof.
  unfold Store.mergeNodes in merged_state.
  destruct (enrich _) as [enriched |]; [| discriminate].
  injection merged_state as <-. reflexivity.
Qed.

Lemma merge_edge_origin (e' : GraphEdge.t) :
  In e' (KnowledgeGraph.edges result) ->
  exists e, In e (KnowledgeGraph.edges (Store.graph st))
            /\ EdgeData.id (GraphEdge.data e') = EdgeData.id (GraphEdge.data e)
            /\ esrc e' = redirectId keepId dropId (esrc e)
            /\ etgt e' = redirectId keepId dropId (etgt e)
            /\ esrc e' <> etgt e'.
Proof.
  intros He'.
  destruct (map_eq_In edgeFrame _ _ e' (enrich_edges merged result merge_result) He')
    as (r & Hr & Hfr).
  apply edgeFrame_endpoints in Hfr as (Hid & Hs & Ht).
  unfold merged, Store.mergedGraph in Hr; cbn in Hr.
  apply filter_In in Hr as [Hr Hloop].
  apply in_map_iff in Hr as (e & <- & He).
  destruct (redirect_endpoints keepId dropId e) as (Hid0 & Hs0 & Ht0).
  exists e. repeat split; try congruence.
  rewrite Hs, Ht. intros Heq. rewrite Heq, String.eqb_refl in Hloop. discriminate.
Qed.

Lemma merge_generic : mergedInto keepId dropId (Store.graph st) result.
Proof.
  unfold mergedInto. repeat apply conj.
  - rewrite (enrich_nodes merged result merge_result). reflexivity.
  - apply List.Forall_forall. intros n' Hn'.
    destruct (map_eq_In nodeFrame _ _ n' (enrich_nodes merged result merge_result) Hn')
      as (n & Hn & Hf).
    apply nodeFrame_nid in Hf. rewrite Hf.
    unfold merged, Store.mergedGraph in Hn; cbn in Hn.
    apply filter_In in Hn as [_ Hn].
    destruct (String.eqb_spec (nid n) dropId); [discriminate | assumption].
  - apply List.Forall_forall. intros e' He'.
    destruct (merge_edge_origin e' He') as (e & _ & _ & _ & _ & Hne). exact Hne.
  - intros e' He'.
    destruct (merge_edge_origin e' He') as (e & He & Hid & Hs & Ht & _).
    exists e. auto.
  - intros e He Hne.
    assert (Hin : In (Store.redirect keepId dropId e) (KnowledgeGraph.edges merged)).
    { unfold merged, Store.mergedGraph; cbn. apply filter_In. split.
      - apply in_map. exact He.
      - destruct (redirect_endpoints keepId dropId e) as (_ & Hs & Ht).
        rewrite Hs, Ht.
        destruct (String.eqb_spec (redirectId keepId dropId (esrc e))
                    (redirectId keepId dropId (etgt e))); [contradiction | reflexivity]. }
    assert (Hfr : In (edgeFrame (Store.redirect keepId dropId e))
                    (List.map edgeFrame (KnowledgeGraph.edges result))).
    { rewrite (enrich_edges merged result merge_result). apply in_map. exact Hin. }
    apply in_map_iff in Hfr as (e' & Hf & He').
    apply edgeFrame_endpoints in Hf as (Hid & Hs & Ht).
    exists e'. split; [exact He' |].
    destruct (redirect_endpoints keepId dropId e) as (Hid0 & Hs0 & Ht0).
    repeat split; congruence.
  - intros Hkd. apply List.Forall_forall. intros e' He'.
    destruct (merge_edge_origin e' He') as (e & _ & _ & Hs & Ht & _).
    rewrite Hs, Ht. split; apply redirectId_not_drop; exact Hkd.
Qed.

End Merge.

(** With the hand-written module the action returns. *)
Lemma mergeNodes_returns (random : Q) (keepId dropId : string) (st : Store.state) :
  exists st',
    Store.mergeNodes (returning (Part005.enrichGraphWithMetrics random)) keepId dropId st
    = Some st'.
Proof. eexists. reflexivity. Qed.

(** Claim C6.  [mergeNodes(keepId, dropId)] hands the merged graph to the
    enrichment: no node with the dropped id remains and the other nodes
    are the input's, in order; no edge has equal source and target; every
    edge is an input edge whose endpoints equal to the dropped id were
    replaced by the kept id and whose other endpoints are unchanged; every
    input edge survives in this form unless the replacement makes it a
    self-loop; and when the two ids differ no edge mentions the dropped
    id.  With the hand-written module doing the enrichment the action
    returns and stores that graph.  With the cytoscape-backed module,
    which is the one the store imports, the action stores that graph
    whenever it returns, but it throws as soon as the merged graph has a
    node, and the store keeps the unmerged graph. *)
Theorem mergeNodes_spec :
  forall library (random : Q) (keepId dropId : string) (st : Store.state),
    (exists st',
        Store.mergeNodes (returning (Part005.enrichGraphWithMetrics random))
          keepId dropId st = Some st'
        /\ Store.filteredGraph st' = Store.graph st'
        /\ mergedInto keepId dropId (Store.graph st) (Store.graph st'))
    /\ (forall st',
           Store.mergeNodes (GraphService.enrichGraphWithMetrics library random)
             keepId dropId st = Some st' ->
           mergedInto keepId dropId (Store.graph st) (Store.graph st'))
    /\ (KnowledgeGraph.nodes (Store.mergedGraph keepId dropId (Store.graph st)) <> [] ->
        Store.mergeNodes (GraphService.enrichGraphWithMetrics library random)
          keepId dropId st = None).
Proof.
  intros library random keepId dropId st. split; [| split].
  - destruct (mergeNodes_returns random keepId dropId st) as [st' Hst'].
    destruct (enrichment_frames library random _ (or_introl eq_refl)) as [Hn He].
    exists st'. split; [exact Hst' |]. split.
    + apply (merge_slots _ _ _ _ _ Hst').
    + apply (merge_generic _ Hn He _ _ _ _ Hst').
  - intros st' Hst'.
    destruct (enrichment_frames library random _ (or_intror eq_refl)) as [Hn He].
    apply (merge_generic _ Hn He _ _ _ _ Hst').
  - intros Hnodes. unfold Store.mergeNodes.
    rewrite GraphService_enrich_throws by exact Hnodes. reflexivity.
Qed.

(** The store with the module it imports, holding [duplicatedGraph]:
    merging ["dmowski2"] into ["dmowski"] throws, and the second entry
    stays. *)
Lemma mergeNodes_spec_witness :
  Store.mergeNodes (GraphService.enrichGraphWithMetrics (constantLibrary (Num 0)) 0)
    "dmowski" "dmowski2" (Store.mk duplicatedGraph duplicatedGraph)
  = None.
Proof.
  apply (proj2 (proj2 (mergeNodes_spec (constantLibrary (Num 0)) 0 "dmowski" "dmowski2"
                         (Store.mk duplicatedGraph duplicatedGraph)))).
  discriminate.
Defined.

(** The one merge that the store completes with the module it imports:
    the dropped node is the only node, and the empty graph is left. *)
Example merge_loneGraph :
  Store.mergeNodes (GraphService.enrichGraphWithMetrics (constantLibrary (Num 0)) 0)
    "b" "a" (Store.mk loneGraph loneGraph)
  = Some (Store.mk
            (KnowledgeGraph.mk [] []
               (Some (Meta.mk (Some (Num ((4 # 10) + 0 * (1 # 10)))) (Some (Num 1)) None)))
            (KnowledgeGraph.mk [] []
               (Some (Meta.mk (Some (Num ((4 # 10) + 0 * (1 # 10)))) (Some (Num 1)) None)))).
Proof. reflexivity. Qed.

(** Merging ["dmowski2"] into ["dmowski"] with the hand-written module:
    the edge between the two becomes a self-loop and is dropped, the
    others are redirected. *)
Example merge_duplicatedGraph :
  exists st',
    Store.mergeNodes (returning (Part005.enrichGraphWithMetrics 0)) "dmowski" "dmowski2"
      (Store.mk duplicatedGraph duplicatedGraph) = Some st'
    /\ List.map nid (KnowledgeGraph.nodes (Store.graph st')) = ["dmowski"; "liga"]
    /\ List.map (fun e => (EdgeData.id (GraphEdge.data e), esrc e, etgt e))
         (KnowledgeGraph.edges (Store.graph st'))
       = [("e1", "dmowski", "liga"); ("e2", "liga", "dmowski"); ("e4", "dmowski", "liga")].
Proof. eexists. split; [reflexivity |]. split; reflexivity. Qed.

(** ** Edit distance of a string to itself *)

Lemma fillRow_length (bc : ascii) (a : string) :
  forall (prev : list nat) (left : nat),
    length prev = S (String.length a) ->
    length (GraphService.fillRow bc a prev left) = String.length a.
Proof.
  induction a as [| ac a' IH]; intros prev left Hlen.
  - destruct prev; reflexivity.
  - destruct prev as [| diag [| up prev']]; cbn in Hlen; try lia.
    cbn. f_equal. apply IH. cbn. lia.
Qed.

(** On a matching character the cell is copied from the diagonal. *)
Lemma fillRow_diagonal (bc : ascii) (a : string) :
  forall (prev : list nat) (left t d : nat),
    length prev = S (String.length a) ->
    String.get t a = Some bc ->
    prev !! t = Some d ->
    GraphService.fillRow bc a prev left !! t = Some d.
Proof.
  induction a as [| ac a' IH]; intros prev left t d Hlen Hget Hprev.
  - destruct t; discriminate.
  - destruct prev as [| diag [| up prev']]; cbn in Hlen; try lia.
    destruct t as [| t'].
    + cbn in Hget. injection Hget as ->.
      cbn in Hprev. injection Hprev as ->.
      cbn. rewrite Ascii.eqb_refl. reflexivity.
    + cbn in Hget. cbn in Hprev. cbn.
      apply IH; [cbn; lia | exact Hget | exact Hprev].
Qed.

Lemma last_lookup_default (l : list nat) (k x : nat) :
  length l = S k -> l !! k = Some x -> List.last l 0%nat = x.
Proof.
  revert k. induction l as [| y l IH]; intros k Hlen Hk; [discriminate |].
  destruct l as [| z l'].
  - destruct k; cbn in Hlen; [| lia]. cbn in Hk. injection Hk as ->. reflexivity.
  - destruct k as [| k']; [cbn in Hlen; lia |].
    change (List.last (y :: z :: l') 0%nat) with (List.last (z :: l') 0%nat).
    apply (IH k'); [cbn in *; lia | exact Hk].
Qed.

Lemma string_get_length (s : string) (k : nat) :
  String.get k s = None <-> (String.length s <= k)%nat.
Proof.
  revert k. induction s as [| c s IH]; intros k.
  - split; [cbn; lia | destruct k; reflexivity].
  - destruct k as [| k']; cbn.
    + split; [discriminate | lia].
    + rewrite IH. lia.
Qed.

(** [prev] is row [i] of the matrix of [a] against itself and [todo] is
    what is left of [a] from position [i] on. *)
Lemma fillMatrix_self (a : string) :
  forall (todo : string) (i : nat) (prev : list nat),
    (forall k, String.get k todo = String.get (i + k) a) ->
    length prev = S (String.length a) ->
    prev !! i = Some 0%nat ->
    List.last (GraphService.fillMatrix (S i) todo a prev) 0%nat = 0%nat.
Proof.
  induction todo as [| bc todo' IH]; intros i prev Hsuf Hlen Hdiag.
  - cbn. assert (Hi : i = String.length a).
    { assert (String.length a <= i)%nat.
      { apply string_get_length. rewrite <- (Nat.add_0_r i), <- Hsuf. reflexivity. }
      apply lookup_lt_Some in Hdiag. lia. }
    subst i. apply (last_lookup_default prev (String.length a)); assumption.
  - cbn [GraphService.fillMatrix].
    assert (Hbc : String.get i a = Some bc).
    { rewrite <- (Nat.add_0_r i), <- Hsuf. reflexivity. }
    apply IH.
    + intros k. replace (S i + k)%nat with (i + S k)%nat by lia.
      rewrite <- Hsuf. reflexivity.
    + cbn. rewrite fillRow_length; [reflexivity | exact Hlen].
    + cbn. apply fillRow_diagonal; assumption.
Qed.

Lemma getLevenshteinDistance_self (a : string) :
  GraphService.getLevenshteinDistance a a = 0%nat.
Proof.
  unfold GraphService.getLevenshteinDistance.
  apply fillMatrix_self.
  - intros k. reflexivity.
  - apply length_seq.
  - reflexivity.
Qed.

(** ** Lexical duplicate detection *)

Lemma lexicalSimilarity_same (l : string) :
  l <> "" -> (GraphService.lexicalSimilarity l l == 1)%Q.
Proof.
  intros Hne. unfold GraphService.lexicalSimilarity.
  rewrite getLevenshteinDistance_self, Nat.max_id.
  destruct l as [| c l']; [congruence |].
  cbn [String.length Nat.ltb Nat.leb].
  unfold Qdiv. change (inject_Z (Z.of_nat 0)) with 0%Q.
  rewrite Qmult_0_l. reflexivity.
Qed.

Lemma lexicalSimilarity_empty : GraphService.lexicalSimilarity "" "" = 0%Q.
Proof. reflexivity. Qed.

Lemma comparePair_In (threshold : Q) (cs : list DuplicateCandidate.t)
    (d1 d2 : NodeData.t) (c : DuplicateCandidate.t) :
  In c (GraphService.comparePair threshold cs d1 d2)
  <-> In c cs \/ emits threshold d1 d2 c.
Proof.
  unfold GraphService.comparePair, emits.
  destruct (bool_decide_reflect (NodeData.type d1 <> NodeData.type d2)) as [Hty | Hty].
  - split; [auto | intros [H | (H & _)]; [exact H | contradiction]].
  - assert (Heq : NodeData.type d1 = NodeData.type d2).
    { destruct (decide (NodeData.type d1 = NodeData.type d2)); [assumption | contradiction]. }
    destruct (Qle_bool threshold _) eqn:Hth.
    + rewrite in_app_iff. cbn. split.
      * intros [H | [<- | []]]; auto.
      * intros [H | (_ & _ & ->)]; auto.
    + split; [auto | intros [H | (_ & H & _)]; [exact H | discriminate]].
Qed.

Lemma scanInner_In (threshold : Q) (d1 : NodeData.t) (rest : list GraphNode.t) :
  forall (cs : list DuplicateCandidate.t) (c : DuplicateCandidate.t),
    In c (fold_left
            (fun cs n2 => GraphService.comparePair threshold cs d1 (GraphNode.data n2))
            rest cs)
    <-> In c cs
        \/ exists j n2, rest !! j = Some n2 /\ emits threshold d1 (GraphNode.data n2) c.
Proof.
  induction rest as [| n rest IH]; intros cs c; cbn [fold_left].
  - split; [auto | intros [H | (j & n2 & Hj & _)]; [exact H | discriminate]].
  - rewrite IH, comparePair_In. split.
    + intros [[H | H] | (j & n2 & Hj & H)]; auto.
      * right. exists 0%nat, n. auto.
      * right. exists (S j), n2. auto.
    + intros [H | (j & n2 & Hj & H)]; auto.
      destruct j as [| j'].
      * cbn in Hj. injection Hj as ->. auto.
      * right. exists j', n2. auto.
Qed.

Lemma scanPairs_In (threshold : Q) (nodes : list GraphNode.t) :
  forall (cs : list DuplicateCandidate.t) (c : DuplicateCandidate.t),
    In c (GraphService.scanPairs threshold nodes cs)
    <-> In c cs
        \/ exists i j n1 n2,
            (i < j)%nat /\ nodes !! i = Some n1 /\ nodes !! j = Some n2
            /\ emits threshold (GraphNode.data n1) (GraphNode.data n2) c.
Proof.
  induction nodes as [| n nodes IH]; intros cs c; cbn [GraphService.scanPairs].
  - split; [auto | intros [H | (i & j & n1 & n2 & _ & Hi & _)]; [exact H | discriminate]].
  - rewrite IH, scanInner_In. split.
    + intros [[H | (j & n2 & Hj & H)] | (i & j & n1 & n2 & Hij & Hi & Hj & H)]; auto.
      * right. exists 0%nat, (S j), n, n2.
        split; [lia | split; [reflexivity | split; [exact Hj | exact H]]].
      * right. exists (S i), (S j), n1, n2.
        split; [lia | split; [exact Hi | split; [exact Hj | exact H]]].
    + intros [H | (i & j & n1 & n2 & Hij & Hi & Hj & H)]; auto.
      destruct j as [| j']; [lia |]. destruct i as [| i'].
      * cbn in Hi. injection Hi as ->. left. right. exists j', n2. auto.
      * right. exists i', j', n1, n2.
        split; [lia | split; [exact Hi | split; [exact Hj | exact H]]].
Qed.

Lemma insertDesc_In (c x : DuplicateCandidate.t) (sorted : list DuplicateCandidate.t) :
  In x (GraphService.insertDesc c sorted) <-> x = c \/ In x sorted.
Proof.
  induction sorted as [| y sorted IH]; cbn.
  - intuition congruence.
  - destruct (Qle_bool _ _); cbn; rewrite ?IH; intuition congruence.
Qed.

Lemma sortDesc_In (cs : list DuplicateCandidate.t) (x : DuplicateCandidate.t) :
  In x (GraphService.sortDesc cs) <-> In x cs.
Proof.
  unfold GraphService.sortDesc.
  assert (H : forall acc, In x (fold_left (fun sorted c => GraphService.insertDesc c sorted) cs acc)
                          <-> In x cs \/ In x acc).
  { induction cs as [| c cs IH]; intros acc; cbn [fold_left].
    - cbn. intuition.
    - rewrite IH, insertDesc_In. cbn. intuition congruence. }
  rewrite H. cbn. intuition.
Qed.

Lemma detectDuplicates_In (g : KnowledgeGraph.t) (threshold : Q)
    (c : DuplicateCandidate.t) :
  In c (GraphService.detectDuplicates g threshold)
  <-> exists i j n1 n2,
      (i < j)%nat /\ KnowledgeGraph.nodes g !! i = Some n1
      /\ KnowledgeGraph.nodes g !! j = Some n2
      /\ emits threshold (GraphNode.data n1) (GraphNode.data n2) c.
Proof.
  unfold GraphService.detectDuplicates.
  rewrite sortDesc_In, scanPairs_In. cbn. intuition.
Qed.

(** Claim C9 (amended).  In lexical duplicate detection, for every
    threshold up to 1 (0.7 in particular) and every two positions [i < j]
    holding nodes of the same type with identical, non-empty labels, a
    candidate for that pair with similarity 1 is emitted; and, for any
    threshold and any labels, every emitted candidate pairs two nodes of
    the same type, so a pair of nodes of different types never yields
    one. *)
Theorem detectDuplicates_spec :
  forall (g : KnowledgeGraph.t) (threshold : Q),
    (forall (i j : nat) (n1 n2 : GraphNode.t),
        (i < j)%nat ->
        KnowledgeGraph.nodes g !! i = Some n1 ->
        KnowledgeGraph.nodes g !! j = Some n2 ->
        NodeData.type (GraphNode.data n1) = NodeData.type (GraphNode.data n2) ->
        NodeData.label (GraphNode.data n1) = NodeData.label (GraphNode.data n2) ->
        NodeData.label (GraphNode.data n1) <> "" ->
        (threshold <= 1)%Q ->
        exists c, In c (GraphService.detectDuplicates g threshold)
                  /\ DuplicateCandidate.nodeA c = GraphNode.data n1
                  /\ DuplicateCandidate.nodeB c = GraphNode.data n2
                  /\ (DuplicateCandidate.similarity c == 1)%Q)
    /\ (forall c, In c (GraphService.detectDuplicates g threshold) ->
        NodeData.type (DuplicateCandidate.nodeA c)
        = NodeData.type (DuplicateCandidate.nodeB c)).
Proof.
  intros g threshold. split.
  - intros i j n1 n2 Hij Hi Hj Hty Hlbl Hne Hth.
    assert (Hsim : (GraphService.lexicalSimilarity (NodeData.label (GraphNode.data n1))
                      (NodeData.label (GraphNode.data n2)) == 1)%Q).
    { rewrite <- Hlbl. apply lexicalSimilarity_same. exact Hne. }
    eexists. split; [| repeat split].
    + apply detectDuplicates_In. exists i, j, n1, n2.
      split; [exact Hij | split; [exact Hi | split; [exact Hj |]]].
      split; [exact Hty | split; [| reflexivity]].
      apply Qle_bool_iff. rewrite Hsim. exact Hth.
    + reflexivity.
    + reflexivity.
    + exact Hsim.
  - intros c Hc.
    apply detectDuplicates_In in Hc as (i & j & n1 & n2 & _ & _ & _ & Hty & _ & ->).
    exact Hty.
Qed.

Lemma detectDuplicates_spec_witness :
  (exists c, In c (GraphService.detectDuplicates duplicatedGraph (7 # 10))
             /\ DuplicateCandidate.nodeA c
                = GraphNode.data (mkNode "dmowski" "Roman Dmowski" Person)
             /\ DuplicateCandidate.nodeB c
                = GraphNode.data (mkNode "dmowski2" "Roman Dmowski" Person)
             /\ (DuplicateCandidate.similarity c == 1)%Q)
  /\ (let c := DuplicateCandidate.mk
                 (GraphNode.data (mkNode "dmowski" "Roman Dmowski" Person))
                 (GraphNode.data (mkNode "dmowski2" "Roman Dmowski" Person))
                 (GraphService.lexicalSimilarity "Roman Dmowski" "Roman Dmowski") in
      NodeData.type (DuplicateCandidate.nodeA c)
      = NodeData.type (DuplicateCandidate.nodeB c)).
Proof.
  split.
  - apply (proj1 (detectDuplicates_spec duplicatedGraph (7 # 10)) 0%nat 1%nat
             (mkNode "dmowski" "Roman Dmowski" Person)
             (mkNode "dmowski2" "Roman Dmowski" Person)).
    + lia.
    + reflexivity.
    + reflexivity.
    + reflexivity.
    + reflexivity.
    + discriminate.
    + discriminate.
  - intros c.
    apply (proj2 (detectDuplicates_spec duplicatedGraph (7 # 10)) c).
    vm_compute. left. reflexivity.
Defined.

(** Claim C9 as stated fails when the identical labels are empty: the
    similarity is then 0 and no candidate is emitted at threshold 0.7. *)
Lemma empty_labels_no_candidate :
  ~ (exists c, In c (GraphService.detectDuplicates unlabelledGraph (7 # 10))
               /\ DuplicateCandidate.nodeA c = GraphNode.data (mkNode "a" "" Person)
               /\ DuplicateCandidate.nodeB c = GraphNode.data (mkNode "b" "" Person)
               /\ (DuplicateCandidate.similarity c == 1)%Q).
Proof.
  intros (c & Hc & _). vm_compute in Hc. exact Hc.
Qed.

(** ** Triadic balance *)

(** *** The signed adjacency holds the sign of the last joining edge *)

Lemma cell_ensureRow (k u v : string) (adj : gmap string (gmap string Z)) :
  cell (ensureRow k adj) u v = cell adj u v.
Proof.
  unfold ensureRow, cell.
  destruct (adj !! k) eqn:Hk; [reflexivity |].
  destruct (decide (u = k)) as [-> | Hne].
  - rewrite lookup_insert_eq, Hk. apply lookup_empty.
  - rewrite lookup_insert_ne by congruence. reflexivity.
Qed.

Lemma cell_assignCell (a b u v : string) (val : Z) (adj : gmap string (gmap string Z)) :
  cell (assignCell a b val adj) u v
  = if String.eqb u a && String.eqb v b then Some val else cell adj u v.
Proof.
  unfold assignCell, cell.
  destruct (String.eqb_spec u a) as [-> | Hua]; cbn [andb].
  - rewrite lookup_insert_eq.
    destruct (String.eqb_spec v b) as [-> | Hvb].
    + apply lookup_insert_eq.
    + rewrite lookup_insert_ne by congruence.
      destruct (adj !! a); [reflexivity | apply lookup_empty].
  - rewrite lookup_insert_ne by congruence. reflexivity.
Qed.

Lemma cell_addSignedEdge (adj : gmap string (gmap string Z)) (e : GraphEdge.t)
    (u v : string) :
  cell (addSignedEdge adj e) u v
  = if joins u v e then Some (signValue e) else cell adj u v.
Proof.
  unfold addSignedEdge, joins.
  rewrite !cell_assignCell, !cell_ensureRow.
  rewrite (String.eqb_sym (esrc e) u), (String.eqb_sym (etgt e) v),
    (String.eqb_sym (esrc e) v), (String.eqb_sym (etgt e) u).
  destruct (String.eqb u (etgt e)), (String.eqb v (esrc e)),
    (String.eqb u (esrc e)), (String.eqb v (etgt e)); reflexivity.
Qed.

Lemma signBetween_snoc (edges : list GraphEdge.t) (e : GraphEdge.t) (u v : string) :
  signBetween (edges ++ [e]) u v
  = if joins u v e then Some (signValue e) else signBetween edges u v.
Proof.
  unfold signBetween. rewrite List.filter_app, List.map_app. cbn [List.filter].
  destruct (joins u v e); cbn [List.map].
  - apply last_snoc.
  - rewrite app_nil_r. reflexivity.
Qed.

Lemma cell_signedAdjacency (edges : list GraphEdge.t) (u v : string) :
  cell (signedAdjacency edges) u v = signBetween edges u v.
Proof.
  induction edges as [| e edges IH] using rev_ind.
  - reflexivity.
  - unfold signedAdjacency in *. rewrite fold_left_app. cbn [fold_left].
    rewrite cell_addSignedEdge, signBetween_snoc, IH. reflexivity.
Qed.

Lemma signValue_cases (e : GraphEdge.t) : signValue e = 1%Z \/ signValue e = (-1)%Z.
Proof.
  unfold signValue. destruct (EdgeData.sign (GraphEdge.data e)) as [[] |]; auto.
Qed.

(** A sign, when there is one, is +1 or -1. *)
Lemma signBetween_cases (edges : list GraphEdge.t) (u v : string) (z : Z) :
  signBetween edges u v = Some z -> z = 1%Z \/ z = (-1)%Z.
Proof.
  induction edges as [| e edges IH] using rev_ind.
  - discriminate.
  - rewrite signBetween_snoc. destruct (joins u v e).
    + intros [= <-]. apply signValue_cases.
    + exact IH.
Qed.

Lemma truthy_signBetween (edges : list GraphEdge.t) (u v : string) :
  truthy (signBetween edges u v) = bool_decide (is_Some (signBetween edges u v)).
Proof.
  destruct (signBetween edges u v) as [z |] eqn:Hz; cbn.
  - destruct (signBetween_cases _ _ _ _ Hz) as [-> | ->]; reflexivity.
  - reflexivity.
Qed.

(** *** The three nested loops visit the triples of the id list *)

Lemma visitTriple_tallyStep (edges : list GraphEdge.t) (c : Counters.t)
    (u v w : string) :
  visitTriple (signedAdjacency edges) c u v w = tallyStep edges c (u, v, w).
Proof.
  unfold visitTriple, tallyStep, isTriangle, isBalancedTriangle, signProduct.
  rewrite !cell_signedAdjacency, !truthy_signBetween. reflexivity.
Qed.

Lemma forK_tally (edges : list GraphEdge.t) (u v : string) (ws : list string) :
  forall c,
    forK (signedAdjacency edges) u v ws c
    = fold_left (tallyStep edges) (List.map (fun w => (u, v, w)) ws) c.
Proof.
  unfold forK. induction ws as [| w ws IH]; intros c; cbn [fold_left List.map].
  - reflexivity.
  - rewrite visitTriple_tallyStep. apply IH.
Qed.

Lemma forJ_tally (edges : list GraphEdge.t) (u : string) (vs : list string) :
  forall c,
    forJ (signedAdjacency edges) u vs c
    = fold_left (tallyStep edges)
        (List.map (fun vw => (u, fst vw, snd vw)) (pairsOf vs)) c.
Proof.
  induction vs as [| v vs IH]; intros c; cbn [forJ pairsOf].
  - reflexivity.
  - rewrite IH, forK_tally, List.map_app, fold_left_app, List.map_map. reflexivity.
Qed.

Lemma forI_tally (edges : list GraphEdge.t) (us : list string) :
  forall c,
    forI (signedAdjacency edges) us c = fold_left (tallyStep edges) (triplesOf us) c.
Proof.
  induction us as [| u us IH]; intros c; cbn [forI triplesOf].
  - reflexivity.
  - rewrite IH, forJ_tally, fold_left_app. reflexivity.
Qed.

Lemma tally_counts (edges : list GraphEdge.t) (ts : list (string * string * string)) :
  forall c,
    let triangles := List.filter (isTriangle edges) ts in
    fold_left (tallyStep edges) ts c
    = Counters.mk
        (Counters.totalTriangles c + length triangles)
        (Counters.balancedTriangles c
         + length (List.filter (isBalancedTriangle edges) triangles)).
Proof.
  induction ts as [| t ts IH]; intros [total balanced]; cbn [fold_left List.filter].
  - cbn. f_equal; lia.
  - rewrite IH. unfold tallyStep.
    destruct (isTriangle edges t); cbn [List.filter Counters.totalTriangles
                                         Counters.balancedTriangles].
    + destruct (isBalancedTriangle edges t); cbn; f_equal; lia.
    + reflexivity.
Qed.

Lemma of_nat_nonzero (k : nat) :
  Qeq_bool (inject_Z (Z.of_nat (S k))) 0 = false.
Proof. reflexivity. Qed.

Lemma balance_of_loops (edges : list GraphEdge.t) (ids : list string) :
  balanceRatio (forI (signedAdjacency edges) ids (Counters.mk 0 0))
  = specGlobalBalance edges ids.
Proof.
  rewrite forI_tally, tally_counts. unfold balanceRatio, specGlobalBalance.
  cbn [Counters.totalTriangles Counters.balancedTriangles Nat.add].
  destruct (List.filter (isTriangle edges) (triplesOf ids)) as [| t ts]; [reflexivity |].
  cbn [length Nat.ltb Nat.leb]. unfold ndiv, of_nat.
  rewrite of_nat_nonzero. reflexivity.
Qed.

Lemma Part005_triadic_spec (g : KnowledgeGraph.t) :
  TriadicBalance.globalBalance (Part005.calculateTriadicBalance g)
  = specGlobalBalance (KnowledgeGraph.edges g) (graphIds g).
Proof. apply balance_of_loops. Qed.



(** *** Balanced means an even number of negative pairs *)






(** ** Cosine similarity *)

Section Cosine.

Local Open Scope R_scope.

Import CosineSpec.

Lemma accumulate_sums (a : list R) :
  forall (b : list R) (d na nb : R),
    length a = length b ->
    fold_left EmbeddingService.accumulate (combine a b) (d, na, nb)
    = (d + dot a b, na + norm2 a, nb + norm2 b).
Proof.
  unfold norm2.
  induction a as [| x a IH]; intros [| y b] d na nb Hlen; try discriminate.
  - cbn. f_equal; [f_equal |]; Lra.lra.
  - cbn [combine fold_left EmbeddingService.accumulate dot].
    rewrite IH by (cbn in Hlen; lia).
    f_equal; [f_equal |]; Lra.lra.
Qed.

Lemma norm2_nonneg (a : list R) : 0 <= norm2 a.
Proof.
  unfold norm2. induction a as [| x a IH]; cbn.
  - Lra.lra.
  - Lra.nra.
Qed.

(** The step of the Cauchy-Schwarz induction. *)
Lemma cauchy_schwarz_step (d A B x y : R) :
  0 <= A -> 0 <= B -> d * d <= A * B ->
  (x * y + d) * (x * y + d) <= (x * x + A) * (y * y + B).
Proof.
  intros HA HB Hd.
  assert (Hsq : 0 <= (A * (y * y) - B * (x * x)) * (A * (y * y) - B * (x * x)))
    by apply Rle_0_sqr.
  assert (Hxx : 0 <= x * x) by apply Rle_0_sqr.
  assert (Hyy : 0 <= y * y) by apply Rle_0_sqr.
  assert (HAy : 0 <= A * (y * y)) by (apply Rmult_le_pos; assumption).
  assert (HBx : 0 <= B * (x * x)) by (apply Rmult_le_pos; assumption).
  assert (Hsum : 0 <= A * (y * y) + B * (x * x)) by Lra.lra.
  assert (Hprod : (2 * d * x * y) * (2 * d * x * y)
                  <= (A * (y * y) + B * (x * x)) * (A * (y * y) + B * (x * x))).
  { assert (H4 : (d * d) * ((x * y) * (x * y)) <= (A * B) * ((x * y) * (x * y))).
    { apply Rmult_le_compat_r; [apply Rle_0_sqr | exact Hd]. }
    Lra.nra. }
  assert (Hlin : 2 * d * x * y <= A * (y * y) + B * (x * x)).
  { destruct (Rle_lt_dec (2 * d * x * y) (A * (y * y) + B * (x * x))) as [Hle | Hlt];
      [exact Hle |].
    assert (0 < (2 * d * x * y - (A * (y * y) + B * (x * x)))
                * (2 * d * x * y + (A * (y * y) + B * (x * x))))
      by (apply Rmult_lt_0_compat; Lra.lra).
    Lra.nra. }
  Lra.nra.
Qed.

Lemma cauchy_schwarz (a : list R) :
  forall b : list R, dot a b * dot a b <= norm2 a * norm2 b.
Proof.
  induction a as [| x a IH]; intros [| y b].
  - cbn. Lra.lra.
  - cbn. Lra.lra.
  - unfold norm2. cbn [dot]. pose proof (norm2_nonneg (x :: a)) as H.
    unfold norm2 in H. cbn [dot] in H. Lra.nra.
  - unfold norm2. cbn [dot].
    apply cauchy_schwarz_step; [apply norm2_nonneg | apply norm2_nonneg | apply IH].
Qed.

Lemma cosine_range (a b : list R) :
  norm2 a <> 0 -> norm2 b <> 0 -> -1 <= cosine a b <= 1.
Proof.
  intros Ha Hb. unfold cosine.
  pose proof (norm2_nonneg a) as HA. pose proof (norm2_nonneg b) as HB.
  pose proof (cauchy_schwarz a b) as Hcs.
  rewrite <- sqrt_mult by assumption.
  set (s := sqrt (norm2 a * norm2 b)).
  assert (Hpos : 0 < norm2 a * norm2 b) by (apply Rmult_lt_0_compat; Lra.lra).
  assert (Hs : 0 < s) by (apply sqrt_lt_R0; exact Hpos).
  assert (Hss : s * s = norm2 a * norm2 b) by (apply sqrt_sqrt; Lra.lra).
  assert (Hd : - s <= dot a b <= s) by (split; Lra.nra).
  unfold Rdiv. split.
  - apply Rmult_le_reg_r with s; [exact Hs |].
    rewrite Rmult_assoc, Rinv_l by Lra.lra. Lra.lra.
  - apply Rmult_le_reg_r with s; [exact Hs |].
    rewrite Rmult_assoc, Rinv_l by Lra.lra. Lra.lra.
Qed.

(** The embedded function, by cases. *)
Lemma cosineSimilarity_cases (vecA vecB : list R) :
  EmbeddingService.cosineSimilarity vecA vecB
  = if negb (length vecA =? length vecB)%nat || (length vecA =? 0)%nat then 0
    else if Req_dec_T (norm2 vecA) 0 then 0
         else if Req_dec_T (norm2 vecB) 0 then 0
              else cosine vecA vecB.
Proof.
  unfold EmbeddingService.cosineSimilarity.
  destruct (Nat.eqb_spec (length vecA) (length vecB)) as [Hlen | Hlen]; cbn [negb orb];
    [| reflexivity].
  destruct (length vecA =? 0)%nat; [reflexivity |].
  rewrite accumulate_sums by exact Hlen.
  rewrite !Rplus_0_l. reflexivity.
Qed.

End Cosine.

Section CosineClaims.

Local Open Scope R_scope.

Import CosineSpec.

Lemma cosineSimilarity_zero (vecA vecB : list R) :
  vecA = [] \/ vecB = [] \/ length vecA <> length vecB
  \/ norm2 vecA = 0 \/ norm2 vecB = 0 ->
  EmbeddingService.cosineSimilarity vecA vecB = 0.
Proof.
  intros H. rewrite cosineSimilarity_cases.
  destruct (Nat.eqb_spec (length vecA) (length vecB)) as [Hlen | Hlen]; cbn [negb orb];
    [| reflexivity].
  destruct (Nat.eqb_spec (length vecA) 0) as [Hz | Hz]; [reflexivity |].
  destruct (Req_dec_T (norm2 vecA) 0) as [Ha | Ha]; [reflexivity |].
  destruct (Req_dec_T (norm2 vecB) 0) as [Hb | Hb]; [reflexivity |].
  destruct H as [-> | [-> | [H | [H | H]]]]; contradiction.
Qed.

Lemma cosineSimilarity_cosine (vecA vecB : list R) :
  vecA <> [] -> length vecA = length vecB -> norm2 vecA <> 0 -> norm2 vecB <> 0 ->
  EmbeddingService.cosineSimilarity vecA vecB = cosine vecA vecB.
Proof.
  intros Hne Hlen Ha Hb. rewrite cosineSimilarity_cases.
  rewrite (proj2 (Nat.eqb_eq _ _) Hlen). cbn [negb orb].
  destruct (Nat.eqb_spec (length vecA) 0) as [Hz | Hz].
  - destruct vecA; [congruence | discriminate].
  - destruct (Req_dec_T (norm2 vecA) 0); [contradiction |].
    destruct (Req_dec_T (norm2 vecB) 0); [contradiction |]. reflexivity.
Qed.

Lemma cosineSimilarity_range (vecA vecB : list R) :
  -1 <= EmbeddingService.cosineSimilarity vecA vecB <= 1.
Proof.
  rewrite cosineSimilarity_cases.
  destruct (negb _ || _); [Lra.lra |].
  destruct (Req_dec_T (norm2 vecA) 0); [Lra.lra |].
  destruct (Req_dec_T (norm2 vecB) 0); [Lra.lra |].
  apply cosine_range; assumption.
Qed.

Lemma norm2_unit_x : norm2 [1; 0] = 1.
Proof. unfold norm2; cbn. Lra.lra. Qed.

Lemma norm2_unit_y : norm2 [0; 1] = 1.
Proof. unfold norm2; cbn. Lra.lra. Qed.

Lemma norm2_minus_x : norm2 [-1; 0] = 1.
Proof. unfold norm2; cbn. Lra.lra. Qed.

Lemma cosine_same_axis : EmbeddingService.cosineSimilarity [1; 0] [1; 0] = 1.
Proof.
  rewrite cosineSimilarity_cosine;
    rewrite ?norm2_unit_x; try Lra.lra; try discriminate; try reflexivity.
  unfold cosine. rewrite norm2_unit_x, sqrt_1. cbn. Lra.lra.
Qed.

Lemma cosine_orthogonal : EmbeddingService.cosineSimilarity [1; 0] [0; 1] = 0.
Proof.
  rewrite cosineSimilarity_cosine;
    rewrite ?norm2_unit_x, ?norm2_unit_y; try Lra.lra; try discriminate;
    try reflexivity.
  unfold cosine. rewrite norm2_unit_x, norm2_unit_y, sqrt_1. cbn. Lra.lra.
Qed.

Lemma cosine_opposite : EmbeddingService.cosineSimilarity [1; 0] [-1; 0] = -1.
Proof.
  rewrite cosineSimilarity_cosine;
    rewrite ?norm2_unit_x, ?norm2_minus_x; try Lra.lra; try discriminate;
    try reflexivity.
  unfold cosine. rewrite norm2_unit_x, norm2_minus_x, sqrt_1. cbn. Lra.lra.
Qed.

(** Claim C7 (amended).  [cosineSimilarity] is a total function whose
    result lies in [-1, 1] for every pair of input vectors (it is negative
    for vectors at an obtuse angle); it returns 0 whenever either vector is
    empty, the lengths differ, or either vector's norm is 0, and otherwise
    returns the standard cosine of the two vectors; so
    [cosineSimilarity([1,0],[1,0]) = 1] and
    [cosineSimilarity([1,0],[0,1]) = 0]. *)
Theorem cosineSimilarity_spec :
  forall vecA vecB : list R,
    -1 <= EmbeddingService.cosineSimilarity vecA vecB <= 1
    /\ (vecA = [] \/ vecB = [] \/ length vecA <> length vecB
        \/ norm2 vecA = 0 \/ norm2 vecB = 0 ->
        EmbeddingService.cosineSimilarity vecA vecB = 0)
    /\ (vecA <> [] -> length vecA = length vecB ->
        norm2 vecA <> 0 -> norm2 vecB <> 0 ->
        EmbeddingService.cosineSimilarity vecA vecB = cosine vecA vecB)
    /\ EmbeddingService.cosineSimilarity [1; 0] [1; 0] = 1
    /\ EmbeddingService.cosineSimilarity [1; 0] [0; 1] = 0.
Proof.
  intros vecA vecB.
  split; [apply cosineSimilarity_range |].
  split; [apply cosineSimilarity_zero |].
  split; [apply cosineSimilarity_cosine |].
  split; [apply cosine_same_axis | apply cosine_orthogonal].
Qed.

Lemma cosineSimilarity_spec_witness :
  EmbeddingService.cosineSimilarity [1; 0] [1; 0; 0] = 0
  /\ EmbeddingService.cosineSimilarity [1; 0] [-1; 0] = cosine [1; 0] [-1; 0].
Proof.
  split.
  - apply (proj1 (proj2 (cosineSimilarity_spec [1; 0] [1; 0; 0]))).
    right; right; left. cbn. lia.
  - apply (proj1 (proj2 (proj2 (cosineSimilarity_spec [1; 0] [-1; 0])))).
    + discriminate.
    + reflexivity.
    + rewrite norm2_unit_x. Lra.lra.
    + rewrite norm2_minus_x. Lra.lra.
Defined.

(** Claim C7 as stated fails on the range: two opposite vectors have
    cosine similarity -1, outside [0, 1]. *)
Lemma cosine_negative_counterexample :
  ~ (0 <= EmbeddingService.cosineSimilarity [1; 0] [-1; 0] <= 1).
Proof. rewrite cosine_opposite. Lra.lra. Qed.

End CosineClaims.

(** ** Sums of rationals *)

Section Sums.

Local Open Scope Q_scope.

Context {A : Type}.

Lemma sumOver_nil (f : A -> Q) : sumOver f [] = 0.
Proof. reflexivity. Qed.

Lemma sumOver_cons (f : A -> Q) (x : A) (l : list A) :
  sumOver f (x :: l) = f x + sumOver f l.
Proof. reflexivity. Qed.

Lemma sumOver_app (f : A -> Q) (l1 l2 : list A) :
  sumOver f (l1 ++ l2) == sumOver f l1 + sumOver f l2.
Proof.
  induction l1 as [| x l1 IH].
  - rewrite sumOver_nil. cbn [app]. Lqa.lra.
  - cbn [app]. rewrite !sumOver_cons, IH. Lqa.lra.
Qed.

Lemma sumOver_nonneg (f : A -> Q) (l : list A) :
  (forall x, In x l -> 0 <= f x) -> 0 <= sumOver f l.
Proof.
  induction l as [| x l IH]; intros H.
  - rewrite sumOver_nil. Lqa.lra.
  - rewrite sumOver_cons.
    assert (0 <= f x) by (apply H; left; reflexivity).
    assert (0 <= sumOver f l) by (apply IH; intros y Hy; apply H; right; exact Hy).
    Lqa.lra.
Qed.

Lemma sumOver_le (f g : A -> Q) (l : list A) :
  (forall x, In x l -> f x <= g x) -> sumOver f l <= sumOver g l.
Proof.
  induction l as [| x l IH]; intros H.
  - rewrite !sumOver_nil. Lqa.lra.
  - rewrite !sumOver_cons.
    assert (f x <= g x) by (apply H; left; reflexivity).
    assert (sumOver f l <= sumOver g l)
      by (apply IH; intros y Hy; apply H; right; exact Hy).
    Lqa.lra.
Qed.

Lemma sumOver_ext (f g : A -> Q) (l : list A) :
  (forall x, In x l -> f x == g x) -> sumOver f l == sumOver g l.
Proof.
  induction l as [| x l IH]; intros H.
  - reflexivity.
  - rewrite !sumOver_cons.
    rewrite (H x) by (left; reflexivity).
    rewrite IH by (intros y Hy; apply H; right; exact Hy).
    reflexivity.
Qed.

Lemma sumOver_plus (f g : A -> Q) (l : list A) :
  sumOver (fun x => f x + g x) l == sumOver f l + sumOver g l.
Proof.
  induction l as [| x l IH].
  - rewrite !sumOver_nil. Lqa.lra.
  - rewrite !sumOver_cons, IH. Lqa.lra.
Qed.

Lemma sumOver_scale (c : Q) (f : A -> Q) (l : list A) :
  sumOver (fun x => c * f x) l == c * sumOver f l.
Proof.
  induction l as [| x l IH].
  - rewrite !sumOver_nil. Lqa.lra.
  - rewrite !sumOver_cons, IH. ring.
Qed.

Lemma sumOver_const (c : Q) (l : list A) :
  sumOver (fun _ => c) l == inject_Z (Z.of_nat (length l)) * c.
Proof.
  induction l as [| x l IH].
  - rewrite sumOver_nil. cbn. ring.
  - rewrite sumOver_cons, IH. cbn [length].
    rewrite Nat2Z.inj_succ. unfold Z.succ. rewrite inject_Z_plus. ring.
Qed.

End Sums.

(** ** PageRank stays in the unit interval *)

Section Indicator.

Local Open Scope Q_scope.

Lemma sumOver_indicator_out (f : string -> Q) (x : string) (U : list string) :
  ~ In x U -> sumOver (fun u => if String.eqb x u then f u else 0) U == 0.
Proof.
  induction U as [| u U IH]; intros Hx.
  - reflexivity.
  - rewrite sumOver_cons.
    destruct (String.eqb_spec x u) as [-> | Hne]; [exfalso; apply Hx; left; reflexivity |].
    rewrite IH by (intros H; apply Hx; right; exact H). Lqa.lra.
Qed.

Lemma sumOver_indicator_in (f : string -> Q) (x : string) (U : list string) :
  List.NoDup U -> In x U ->
  sumOver (fun u => if String.eqb x u then f u else 0) U == f x.
Proof.
  induction U as [| u U IH]; intros Hnd Hx; [destruct Hx |].
  inversion Hnd as [| ? ? Hu HU]; subst.
  rewrite sumOver_cons.
  destruct (String.eqb_spec x u) as [-> | Hne].
  - rewrite sumOver_indicator_out by exact Hu. Lqa.lra.
  - destruct Hx as [-> | Hx]; [congruence |].
    rewrite IH by assumption. Lqa.lra.
Qed.

Lemma sumOver_indicator_le (a : Q) (x : string) (U : list string) :
  List.NoDup U -> 0 <= a ->
  sumOver (fun u => if String.eqb x u then a else 0) U <= a.
Proof.
  intros Hnd Ha.
  destruct (in_dec string_dec x U) as [Hin | Hout].
  - rewrite (sumOver_indicator_in (fun _ => a)) by assumption. Lqa.lra.
  - rewrite (sumOver_indicator_out (fun _ => a)) by assumption. exact Ha.
Qed.

Lemma sumOver_member_le {A : Type} (f : A -> Q) (v : A) (l : list A) :
  (forall x, In x l -> 0 <= f x) -> In v l -> f v <= sumOver f l.
Proof.
  induction l as [| x l IH]; intros Hpos Hv; [destruct Hv |].
  rewrite sumOver_cons.
  assert (0 <= f x) by (apply Hpos; left; reflexivity).
  assert (0 <= sumOver f l)
    by (apply sumOver_nonneg; intros y Hy; apply Hpos; right; exact Hy).
  destruct Hv as [-> | Hv].
  - Lqa.lra.
  - assert (f v <= sumOver f l)
      by (apply IH; [intros y Hy; apply Hpos; right; exact Hy | exact Hv]).
    Lqa.lra.
Qed.

End Indicator.

(** A table filled by [forEach] with a value that depends on the id only. *)
Lemma lookup_fold_insert {V : Type} (f : string -> V) (nodes : list GraphNode.t) :
  forall (m0 : gmap string V) (k : string),
    fold_left (fun m n => <[nid n := f (nid n)]> m) nodes m0 !! k
    = if in_dec string_dec k (List.map nid nodes) then Some (f k) else m0 !! k.
Proof.
  induction nodes as [| n nodes IH]; intros m0 k; cbn [fold_left List.map].
  - destruct (in_dec string_dec k []) as [[] | _]. reflexivity.
  - rewrite IH.
    destruct (in_dec string_dec k (List.map nid nodes)) as [Hin | Hout];
      destruct (in_dec string_dec k (nid n :: List.map nid nodes)) as [Hin' | Hout'].
    + reflexivity.
    + exfalso. apply Hout'. right. exact Hin.
    + destruct Hin' as [<- | Hin']; [apply lookup_insert_eq | contradiction].
    + apply lookup_insert_ne. intros Heq. apply Hout'. left. exact Heq.
Qed.

Section RankFlow.

Local Open Scope Q_scope.

Variable U : list string.
Hypothesis U_nodup : List.NoDup U.

(** Summing, over the distinct ids, what arrives at each id counts every
    edge at most once. *)
Lemma incoming_total (w : GraphEdge.t -> Q) (E : list GraphEdge.t) :
  (forall e, In e E -> 0 <= w e) ->
  sumOver (fun u => sumOver w (List.filter (fun e => String.eqb (etgt e) u) E)) U
  <= sumOver w E.
Proof.
  induction E as [| e E IH]; intros Hw.
  - cbn [List.filter].
    assert (H0 : sumOver (fun _ : string => sumOver w []) U == 0).
    { rewrite sumOver_const. rewrite sumOver_nil. ring. }
    rewrite H0, sumOver_nil. Lqa.lra.
  - assert (Hsplit :
             sumOver (fun u => sumOver w (List.filter (fun e0 => String.eqb (etgt e0) u)
                                            (e :: E))) U
             == sumOver (fun u => if String.eqb (etgt e) u then w e else 0) U
                + sumOver (fun u => sumOver w
                                      (List.filter (fun e0 => String.eqb (etgt e0) u) E)) U).
    { rewrite <- sumOver_plus. apply sumOver_ext. intros u _.
      cbn [List.filter]. destruct (String.eqb (etgt e) u).
      - rewrite sumOver_cons. reflexivity.
      - Lqa.lra. }
    rewrite Hsplit, sumOver_cons.
    assert (Hwe : 0 <= w e) by (apply Hw; left; reflexivity).
    pose proof (sumOver_indicator_le (w e) (etgt e) U U_nodup Hwe) as Hind.
    assert (Hrest : sumOver (fun u => sumOver w
                               (List.filter (fun e0 => String.eqb (etgt e0) u) E)) U
                    <= sumOver w E)
      by (apply IH; intros e0 He0; apply Hw; right; exact He0).
    Lqa.lra.
Qed.

(** Summing a quantity of the source over the edges is summing it over
    the distinct ids, weighted by their out-degree. *)
Lemma outgoing_total (rho : string -> Q) (E : list GraphEdge.t) :
  (forall e, In e E -> In (esrc e) U) ->
  sumOver (fun e => rho (esrc e)) E
  == sumOver (fun u => inject_Z (Z.of_nat (Part005.outDegree E u)) * rho u) U.
Proof.
  induction E as [| e E IH]; intros Hsrc.
  - rewrite sumOver_nil. symmetry.
    transitivity (sumOver (fun _ : string => 0) U).
    + apply sumOver_ext. intros u _. unfold Part005.outDegree. cbn. ring.
    + rewrite sumOver_const. ring.
  - rewrite sumOver_cons.
    rewrite IH by (intros e0 He0; apply Hsrc; right; exact He0).
    rewrite <- (sumOver_indicator_in rho (esrc e) U U_nodup)
      by (apply Hsrc; left; reflexivity).
    rewrite <- sumOver_plus. apply sumOver_ext. intros u _.
    unfold Part005.outDegree. cbn [List.filter].
    destruct (String.eqb (esrc e) u).
    + cbn [length]. rewrite Nat2Z.inj_succ. unfold Z.succ.
      rewrite inject_Z_plus. ring.
    + ring.
Qed.

End RankFlow.

Section PageRankBound.

Local Open Scope Q_scope.

Lemma inject_nat_pos (k : nat) : (0 < k)%nat -> 0 < inject_Z (Z.of_nat k).
Proof.
  intros Hk. change 0 with (inject_Z 0). rewrite <- Zlt_Qlt. lia.
Qed.

Lemma inject_nat_nonzero (k : nat) :
  (0 < k)%nat -> Qeq_bool (inject_Z (Z.of_nat k)) 0 = false.
Proof.
  intros Hk. destruct (Qeq_bool _ 0) eqn:Heq; [| reflexivity].
  apply Qeq_bool_eq in Heq. pose proof (inject_nat_pos k Hk). Lqa.lra.
Qed.

Lemma ndiv_of_nat (q : Q) (k : nat) :
  (0 < k)%nat -> ndiv (Num q) (of_nat k) = Num (q / inject_Z (Z.of_nat k)).
Proof.
  intros Hk. unfold ndiv, of_nat. rewrite inject_nat_nonzero by exact Hk. reflexivity.
Qed.

Variable g : KnowledgeGraph.t.

Let nodes := KnowledgeGraph.nodes g.
Let edges := KnowledgeGraph.edges g.
Let ids := graphIds g.
Let U := List.nodup string_dec ids.

Hypothesis sources : sourcesAreNodes g.

Lemma U_nodup : List.NoDup U.
Proof. apply List.NoDup_nodup. Qed.

Lemma U_ids (u : string) : In u U <-> In u ids.
Proof. apply List.nodup_In. Qed.

Lemma U_length : (length U <= length nodes)%nat.
Proof.
  unfold U, ids, graphIds. fold nodes.
  rewrite <- (List.length_map nid nodes).
  apply List.NoDup_incl_length; [apply List.NoDup_nodup |].
  intros u Hu. apply List.nodup_In in Hu. exact Hu.
Qed.

Section Round.

Variable ranks : gmap string number.
Hypothesis ranks_ok : ranksOk ids ranks.

Lemma rank_defined (u : string) :
  In u ids -> ranks !! u = Some (Num (rankOf ranks u)) /\ 0 <= rankOf ranks u.
Proof.
  intros Hu. destruct ranks_ok as [Hdef _].
  destruct (Hdef u Hu) as (q & Hq & Hpos).
  unfold rankOf. rewrite Hq. cbn. auto.
Qed.

Lemma share_nonneg (e : GraphEdge.t) : In e edges -> 0 <= share edges ranks e.
Proof.
  intros He. unfold share.
  destruct (Nat.ltb_spec 0 (Part005.outDegree edges (esrc e))) as [Hout | Hout];
    [| Lqa.lra].
  destruct (rank_defined (esrc e) (sources e He)) as [_ Hpos].
  apply Qle_shift_div_l; [apply inject_nat_pos; exact Hout | Lqa.lra].
Qed.

(** The inner loop adds up the shares of the incoming edges. *)
Lemma incomingSum_fold (F : list GraphEdge.t) :
  forall a : Q,
    (forall e, In e F -> In e edges) ->
    exists q,
      fold_left
        (fun acc edge =>
           let sourceId := esrc edge in
           let out := Part005.outDegree edges sourceId in
           if (0 <? out)%nat
           then nadd acc (ndiv (to_number (ranks !! sourceId)) (of_nat out))
           else acc)
        F (Num a) = Num q
      /\ q == a + sumOver (share edges ranks) F.
Proof.
  induction F as [| e F IH]; intros a HF.
  - exists a. split; [reflexivity |]. rewrite sumOver_nil. Lqa.lra.
  - cbn [fold_left].
    assert (He : In e edges) by (apply HF; left; reflexivity).
    destruct (rank_defined (esrc e) (sources e He)) as [Hdef _].
    rewrite sumOver_cons.
    assert (Hsh : share edges ranks e
                  = if (0 <? Part005.outDegree edges (esrc e))%nat
                    then rankOf ranks (esrc e)
                         / inject_Z (Z.of_nat (Part005.outDegree edges (esrc e)))
                    else 0) by reflexivity.
    destruct (Nat.ltb_spec 0 (Part005.outDegree edges (esrc e))) as [Hout | Hout].
    + rewrite Hdef. cbn [to_number]. rewrite ndiv_of_nat by exact Hout. cbn [nadd].
      destruct (IH (a + rankOf ranks (esrc e)
                        / inject_Z (Z.of_nat (Part005.outDegree edges (esrc e)))))
        as (q & Hq & Hsum); [intros e0 He0; apply HF; right; exact He0 |].
      exists q. split; [exact Hq |]. rewrite Hsum, Hsh. Lqa.lra.
    + destruct (IH a) as (q & Hq & Hsum); [intros e0 He0; apply HF; right; exact He0 |].
      exists q. split; [exact Hq |]. rewrite Hsum, Hsh. Lqa.lra.
Qed.

Lemma incomingSum_num (v : string) :
  exists q,
    Part005.incomingSum edges ranks v = Num q
    /\ q == sumOver (share edges ranks)
              (List.filter (fun e => String.eqb (etgt e) v) edges).
Proof.
  destruct (incomingSum_fold (List.filter (fun e => String.eqb (etgt e) v) edges) 0)
    as (q & Hq & Hsum).
  - intros e He. apply filter_In in He. tauto.
  - exists q. split; [exact Hq |]. rewrite Hsum. Lqa.lra.
Qed.

(** All the shares together are at most all the ranks together. *)
Lemma shares_le_ranks :
  sumOver (share edges ranks) edges <= sumOver (rankOf ranks) U.
Proof.
  set (rho := fun u : string =>
                if (0 <? Part005.outDegree edges u)%nat
                then rankOf ranks u / inject_Z (Z.of_nat (Part005.outDegree edges u))
                else 0).
  assert (Hshare : sumOver (share edges ranks) edges
                   == sumOver (fun e => rho (esrc e)) edges).
  { apply sumOver_ext. intros e _. reflexivity. }
  rewrite Hshare, (outgoing_total U U_nodup rho edges)
    by (intros e He; apply U_ids, sources, He).
  apply sumOver_le. intros u Hu. apply U_ids in Hu.
  destruct (rank_defined u Hu) as [_ Hpos]. unfold rho.
  destruct (Nat.ltb_spec 0 (Part005.outDegree edges u)) as [Hout | Hout].
  - pose proof (inject_nat_pos _ Hout) as Hinj.
    assert (Heq : inject_Z (Z.of_nat (Part005.outDegree edges u))
                  * (rankOf ranks u / inject_Z (Z.of_nat (Part005.outDegree edges u)))
                  == rankOf ranks u) by (field; Lqa.lra).
    rewrite Heq. Lqa.lra.
  - assert (Hz : Part005.outDegree edges u = 0%nat) by lia.
    rewrite Hz. cbn. Lqa.lra.
Qed.

Variable damping : Q.
Hypothesis damping_range : 0 <= damping <= 1.
Hypothesis nonempty : (0 < length nodes)%nat.

Let base : Q := (1 - damping) / inject_Z (Z.of_nat (length nodes)).

Lemma base_nonneg : 0 <= base.
Proof.
  unfold base. apply Qle_shift_div_l; [apply inject_nat_pos; exact nonempty |].
  destruct damping_range. Lqa.lra.
Qed.

Lemma round_lookup (u : string) :
  In u ids ->
  exists q,
    Part005.pageRankRound g damping (length nodes) ranks !! u = Some (Num q)
    /\ q == base + damping * sumOver (share edges ranks)
                              (List.filter (fun e => String.eqb (etgt e) u) edges).
Proof.
  intros Hu. unfold Part005.pageRankRound. fold nodes edges.
  rewrite (lookup_fold_insert
             (fun k => nadd (ndiv (Num (1 - damping)) (of_nat (length nodes)))
                         (nmul (Num damping) (Part005.incomingSum edges ranks k)))).
  destruct (in_dec string_dec u (List.map nid nodes)) as [_ | Hout];
    [| contradiction].
  destruct (incomingSum_num u) as (q & Hq & Hsum).
  rewrite Hq, ndiv_of_nat by exact nonempty. cbn [nmul nadd].
  eexists. split; [reflexivity |]. rewrite Hsum. reflexivity.
Qed.

Lemma round_ok : ranksOk ids (Part005.pageRankRound g damping (length nodes) ranks).
Proof.
  pose proof base_nonneg as Hbase. destruct damping_range as [Hd0 Hd1].
  assert (Hin : forall u, In u ids ->
                  0 <= sumOver (share edges ranks)
                         (List.filter (fun e => String.eqb (etgt e) u) edges)).
  { intros u _. apply sumOver_nonneg. intros e He.
    apply filter_In in He. apply share_nonneg. tauto. }
  split.
  - intros u Hu. destruct (round_lookup u Hu) as (q & Hq & Hval).
    exists q. split; [exact Hq |]. rewrite Hval.
    pose proof (Hin u Hu) as Hs.
    assert (0 <= damping * sumOver (share edges ranks)
                            (List.filter (fun e => String.eqb (etgt e) u) edges))
      by (apply Qmult_le_0_compat; assumption).
    Lqa.lra.
  - fold U.
    assert (Hnew : sumOver (rankOf (Part005.pageRankRound g damping (length nodes) ranks)) U
                   == sumOver (fun u => base + damping
                                        * sumOver (share edges ranks)
                                            (List.filter (fun e => String.eqb (etgt e) u)
                                               edges)) U).
    { apply sumOver_ext. intros u Hu. apply U_ids in Hu.
      destruct (round_lookup u Hu) as (q & Hq & Hval).
      unfold rankOf. rewrite Hq. cbn. exact Hval. }
    rewrite Hnew, sumOver_plus, sumOver_const, sumOver_scale.
    assert (Hflow : sumOver (fun u => sumOver (share edges ranks)
                                         (List.filter (fun e => String.eqb (etgt e) u)
                                            edges)) U
                    <= 1).
    { destruct ranks_ok as [_ Hsum]. fold U in Hsum.
      pose proof (incoming_total U U_nodup (share edges ranks) edges share_nonneg).
      pose proof shares_le_ranks. Lqa.lra. }
    assert (Hcount : inject_Z (Z.of_nat (length U)) * base <= 1 - damping).
    { assert (Hlen : inject_Z (Z.of_nat (length U))
                     <= inject_Z (Z.of_nat (length nodes))).
      { rewrite <- Zle_Qle. pose proof U_length. lia. }
      assert (Hfull : inject_Z (Z.of_nat (length nodes)) * base == 1 - damping).
      { unfold base. field. pose proof (inject_nat_pos _ nonempty). Lqa.lra. }
      rewrite <- Hfull. apply Qmult_le_compat_r; assumption. }
    assert (Hscaled : damping
                      * sumOver (fun u => sumOver (share edges ranks)
                                            (List.filter (fun e => String.eqb (etgt e) u)
                                               edges)) U
                      <= damping * 1).
    { rewrite !(Qmult_comm damping). apply Qmult_le_compat_r; assumption. }
    Lqa.lra.
Qed.

End Round.

End PageRankBound.

Section PageRankUnit.

Local Open Scope Q_scope.

Lemma initial_ranks_ok (g : KnowledgeGraph.t) :
  (0 < length (KnowledgeGraph.nodes g))%nat ->
  ranksOk (graphIds g)
    (fold_left
       (fun ranks n =>
          <[nid n := ndiv (Num 1) (of_nat (length (KnowledgeGraph.nodes g)))]> ranks)
       (KnowledgeGraph.nodes g) (∅ : gmap string number)).
Proof.
  intros Hpos.
  set (N := length (KnowledgeGraph.nodes g)) in *.
  assert (Hlookup : forall u, In u (graphIds g) ->
            fold_left (fun ranks n => <[nid n := ndiv (Num 1) (of_nat N)]> ranks)
              (KnowledgeGraph.nodes g) (∅ : gmap string number) !! u
            = Some (Num (1 / inject_Z (Z.of_nat N)))).
  { intros u Hu.
    rewrite (lookup_fold_insert (fun _ => ndiv (Num 1) (of_nat N))).
    destruct (in_dec string_dec u (List.map nid (KnowledgeGraph.nodes g)));
      [| contradiction].
    rewrite ndiv_of_nat by exact Hpos. reflexivity. }
  pose proof (inject_nat_pos N Hpos) as HN.
  assert (Hshare : 0 <= 1 / inject_Z (Z.of_nat N))
    by (apply Qle_shift_div_l; [exact HN | Lqa.lra]).
  split.
  - intros u Hu. eexists. split; [apply Hlookup; exact Hu | exact Hshare].
  - assert (Hsum : sumOver (rankOf (fold_left
                      (fun ranks n => <[nid n := ndiv (Num 1) (of_nat N)]> ranks)
                      (KnowledgeGraph.nodes g) (∅ : gmap string number)))
                     (List.nodup string_dec (graphIds g))
                   == sumOver (fun _ => 1 / inject_Z (Z.of_nat N))
                        (List.nodup string_dec (graphIds g))).
    { apply sumOver_ext. intros u Hu. apply List.nodup_In in Hu.
      unfold rankOf. rewrite (Hlookup u Hu). reflexivity. }
    rewrite Hsum, sumOver_const.
    assert (Hlen : inject_Z (Z.of_nat (length (List.nodup string_dec (graphIds g))))
                   <= inject_Z (Z.of_nat N)).
    { rewrite <- Zle_Qle. pose proof (U_length g). fold N in H. lia. }
    assert (Hfull : inject_Z (Z.of_nat N) * (1 / inject_Z (Z.of_nat N)) == 1)
      by (field; Lqa.lra).
    apply Qle_trans with (inject_Z (Z.of_nat N) * (1 / inject_Z (Z.of_nat N))).
    + apply Qmult_le_compat_r; assumption.
    + rewrite Hfull. apply Qle_refl.
Qed.

Lemma calculatePageRank_ok (g : KnowledgeGraph.t) (iterations : nat) (damping : Q) :
  0 <= damping <= 1 ->
  sourcesAreNodes g ->
  (0 < length (KnowledgeGraph.nodes g))%nat ->
  ranksOk (graphIds g) (Part005.calculatePageRank g iterations damping).
Proof.
  intros Hd Hsrc Hpos. unfold Part005.calculatePageRank.
  destruct (Nat.eqb_spec (length (KnowledgeGraph.nodes g)) 0) as [Hz | _]; [lia |].
  induction iterations as [| k IH]; cbn [Nat.iter nat_rect].
  - apply initial_ranks_ok. exact Hpos.
  - apply round_ok; assumption.
Qed.

(** With every edge starting at a node, each node's PageRank is an
    ordinary number of the unit interval. *)
Lemma calculatePageRank_unit (g : KnowledgeGraph.t) (iterations : nat) (damping : Q)
    (u : string) :
  0 <= damping <= 1 ->
  sourcesAreNodes g ->
  In u (graphIds g) ->
  holdsUnit (Part005.calculatePageRank g iterations damping !! u).
Proof.
  intros Hd Hsrc Hu.
  assert (Hpos : (0 < length (KnowledgeGraph.nodes g))%nat).
  { unfold graphIds in Hu. destruct (KnowledgeGraph.nodes g); [destruct Hu | cbn; lia]. }
  destruct (calculatePageRank_ok g iterations damping Hd Hsrc Hpos) as [Hdef Hsum].
  destruct (Hdef u Hu) as (q & Hq & Hq0).
  exists (Num q). split; [exact Hq |]. exists q. split; [reflexivity |].
  split; [exact Hq0 |].
  assert (Hle : rankOf (Part005.calculatePageRank g iterations damping) u
                <= sumOver (rankOf (Part005.calculatePageRank g iterations damping))
                     (List.nodup string_dec (graphIds g))).
  { apply sumOver_member_le.
    - intros x Hx. apply List.nodup_In in Hx.
      destruct (Hdef x Hx) as (qx & Hqx & Hqx0). unfold rankOf. rewrite Hqx. exact Hqx0.
    - apply List.nodup_In. exact Hu. }
  unfold rankOf at 1 in Hle. rewrite Hq in Hle. cbn in Hle. Lqa.lra.
Qed.

End PageRankUnit.

(** ** Degree centrality stays in the unit interval *)

Lemma bump_lookup_eq (k u : string) (m : gmap string Part005.count) :
  Part005.bump k m !! u
  = if String.eqb k u
    then match m !! u with
         | Some v => Some (Part005.increment v)
         | None => if Part005.inherited u then Some Part005.NotANumber else None
         end
    else m !! u.
Proof.
  unfold Part005.bump. destruct (String.eqb_spec k u) as [-> | Hne].
  - destruct (m !! u) as [c |] eqn:Hu; [apply lookup_insert_eq |].
    destruct (Part005.inherited u); [apply lookup_insert_eq | exact Hu].
  - destruct (m !! k); [apply lookup_insert_ne; exact Hne |].
    destruct (Part005.inherited k); [apply lookup_insert_ne; exact Hne | reflexivity].
Qed.

(** The entry of a node counts the edge ends that sit at the node,
    whatever the other ends are. *)
Lemma rawDegrees_incidence (g : KnowledgeGraph.t) (u : string) :
  In u (graphIds g) ->
  Part005.rawDegrees g !! u
  = Some (Part005.Count (incidence (KnowledgeGraph.edges g) u)).
Proof.
  intros Hu. unfold Part005.rawDegrees.
  assert (Hedges : forall (edges : list GraphEdge.t) (m : gmap string Part005.count)
                          (c : nat),
             m !! u = Some (Part005.Count c) ->
             fold_left (fun c edge => Part005.bump (etgt edge)
                                        (Part005.bump (esrc edge) c)) edges m !! u
             = Some (Part005.Count (c + incidence edges u))).
  { induction edges as [| e edges IH]; intros m c Hc; cbn [fold_left].
    - rewrite Hc. unfold incidence. cbn. do 2 f_equal. lia.
    - assert (Hstep : Part005.bump (etgt e) (Part005.bump (esrc e) m) !! u
                      = Some (Part005.Count
                                (c + (if String.eqb (esrc e) u then 1 else 0)
                                 + (if String.eqb (etgt e) u then 1 else 0)))).
      { rewrite !bump_lookup_eq, Hc.
        destruct (String.eqb (etgt e) u), (String.eqb (esrc e) u); cbn;
          do 2 f_equal; lia. }
      rewrite (IH _ _ Hstep). unfold incidence. cbn [List.filter].
      destruct (String.eqb (etgt e) u), (String.eqb (esrc e) u); cbn; do 2 f_equal; lia. }
  rewrite (Hedges _ _ 0%nat); [reflexivity |].
  rewrite (lookup_fold_insert (fun _ => Part005.Count 0)).
  destruct (in_dec string_dec u (List.map nid (KnowledgeGraph.nodes g)));
    [reflexivity | contradiction].
Qed.

Lemma endpoints_snoc (es : list GraphEdge.t) (e : GraphEdge.t) (u : string) :
  In u (endpoints (es ++ [e])) <-> In u (endpoints es) \/ esrc e = u \/ etgt e = u.
Proof.
  unfold endpoints. rewrite !List.map_app, !in_app_iff. cbn. tauto.
Qed.

(** An id that is no node gets an entry exactly when it is an inherited
    name at the end of an edge, and the entry is [NaN]. *)
Lemma rawDegrees_outside (g : KnowledgeGraph.t) (u : string) :
  ~ In u (graphIds g) ->
  (Part005.rawDegrees g !! u = None
   /\ ~ (In u (endpoints (KnowledgeGraph.edges g)) /\ Part005.inherited u = true))
  \/ (Part005.rawDegrees g !! u = Some Part005.NotANumber
      /\ In u (endpoints (KnowledgeGraph.edges g)) /\ Part005.inherited u = true).
Proof.
  intros Hu. unfold Part005.rawDegrees.
  set (m0 := fold_left (fun c node => <[nid node := Part005.Count 0]> c)
               (KnowledgeGraph.nodes g) ∅).
  assert (H0 : m0 !! u = None).
  { unfold m0. rewrite (lookup_fold_insert (fun _ => Part005.Count 0)).
    destruct (in_dec string_dec u (List.map nid (KnowledgeGraph.nodes g)));
      [contradiction | apply lookup_empty]. }
  clearbody m0.
  induction (KnowledgeGraph.edges g) as [| e es IH] using rev_ind.
  - left. split; [exact H0 |]. intros [[] _].
  - rewrite fold_left_app. cbn [fold_left]. rewrite !bump_lookup_eq.
    rewrite endpoints_snoc.
    destruct IH as [[-> Hno] | (-> & Hin & Hinh)].
    + destruct (Part005.inherited u) eqn:Hinh.
      * destruct (String.eqb_spec (esrc e) u) as [Hs | Hs],
            (String.eqb_spec (etgt e) u) as [Ht | Ht]; cbn [Part005.increment];
          try (right; split; [reflexivity | split; [tauto | reflexivity]]).
        left. split; [reflexivity |]. intros [[Hin | [Heq | Heq]] _];
          [apply Hno; auto | contradiction | contradiction].
      * left. split; [| intros [_ Habs]; discriminate Habs].
        destruct (String.eqb (esrc e) u), (String.eqb (etgt e) u); reflexivity.
    + right. split; [| split; [left; exact Hin | exact Hinh]].
      destruct (String.eqb (esrc e) u), (String.eqb (etgt e) u); reflexivity.
Qed.

Lemma maxDegree_spec (m : gmap string Part005.count) :
  match Part005.maxDegree m with
  | Part005.NotANumber => exists k, m !! k = Some Part005.NotANumber
  | Part005.Count M =>
      (1 <= M)%nat
      /\ (forall k v, m !! k = Some v -> exists c, v = Part005.Count c /\ (c <= M)%nat)
      /\ (M = 1%nat \/ exists k, m !! k = Some (Part005.Count M))
  end.
Proof.
  unfold Part005.maxDegree.
  apply (map_fold_weak_ind
           (fun r (m : gmap string Part005.count) =>
              match r with
              | Part005.NotANumber => exists k, m !! k = Some Part005.NotANumber
              | Part005.Count M =>
                  (1 <= M)%nat
                  /\ (forall k v, m !! k = Some v ->
                                  exists c, v = Part005.Count c /\ (c <= M)%nat)
                  /\ (M = 1%nat \/ exists k, m !! k = Some (Part005.Count M))
              end)).
  - split; [lia |]. split; [| left; reflexivity].
    intros k v Hk. rewrite lookup_empty in Hk. discriminate.
  - intros i x m' r Hi IH. destruct x as [c |]; cbn [Part005.Math_max].
    + destruct r as [M |].
      * destruct IH as (Hone & Hall & Hatt). split; [lia |]. split.
        -- intros k v Hk. destruct (decide (i = k)) as [<- | Hne].
           ++ rewrite lookup_insert_eq in Hk. injection Hk as <-.
              exists c. split; [reflexivity | lia].
           ++ rewrite lookup_insert_ne in Hk by exact Hne.
              destruct (Hall k v Hk) as (c' & -> & Hc'). exists c'. split; [reflexivity | lia].
        -- destruct (Nat.le_gt_cases c M) as [Hle | Hgt].
           ++ replace (Nat.max c M) with M by lia.
              destruct Hatt as [-> | (k & Hk)]; [left; reflexivity |].
              right. exists k. rewrite lookup_insert_ne by congruence. exact Hk.
           ++ replace (Nat.max c M) with c by lia.
              right. exists i. apply lookup_insert_eq.
      * destruct IH as (k & Hk). exists k.
        rewrite lookup_insert_ne by congruence. exact Hk.
    + exists i. apply lookup_insert_eq.
Qed.

Lemma ratio_in_unit (c k : nat) :
  (c <= k)%nat -> (1 <= k)%nat -> in_unit (ndiv (of_nat c) (of_nat k)).
Proof.
  intros Hck Hk. unfold of_nat at 1. rewrite ndiv_of_nat by lia.
  eexists. split; [reflexivity |].
  pose proof (inject_nat_pos k ltac:(lia)) as Hpos.
  split.
  - apply Qle_shift_div_l; [exact Hpos |].
    rewrite Qmult_0_l. change 0%Q with (inject_Z 0). rewrite <- Zle_Qle. lia.
  - apply Qle_shift_div_r; [exact Hpos |].
    rewrite Qmult_1_l. rewrite <- Zle_Qle. lia.
Qed.

(** Every node has a score: an ordinary number of the unit interval, or
    [NaN]. *)
Lemma calculateDegreeCentrality_cases (g : KnowledgeGraph.t) (u : string) :
  In u (graphIds g) ->
  Part005.calculateDegreeCentrality g !! u = Some NaN
  \/ holdsUnit (Part005.calculateDegreeCentrality g !! u).
Proof.
  intros Hu. unfold Part005.calculateDegreeCentrality.
  rewrite lookup_fmap, (rawDegrees_incidence g u Hu). cbn [fmap option_fmap option_map].
  pose proof (maxDegree_spec (Part005.rawDegrees g)) as Hmax.
  destruct (Part005.maxDegree (Part005.rawDegrees g)) as [M |].
  - right. destruct Hmax as (Hone & Hall & _).
    destruct (Hall u _ (rawDegrees_incidence g u Hu)) as (c & [= <-] & Hc).
    eexists. split; [reflexivity |]. apply ratio_in_unit; assumption.
  - left. reflexivity.
Qed.

(** Without an inherited name at a loose edge end the table holds the
    nodes and nothing else, and the largest count normalises it. *)
Lemma rawDegrees_clean (g : KnowledgeGraph.t) :
  noInheritedEndpoint g ->
  exists M,
    Part005.maxDegree (Part005.rawDegrees g) = Part005.Count M
    /\ (1 <= M)%nat
    /\ (forall u, In u (graphIds g) -> (incidence (KnowledgeGraph.edges g) u <= M)%nat)
    /\ (M = 1%nat
        \/ exists k, In k (graphIds g) /\ incidence (KnowledgeGraph.edges g) k = M).
Proof.
  intros Hclean.
  assert (Hkeys : forall k v, Part005.rawDegrees g !! k = Some v -> In k (graphIds g)).
  { intros k v Hk. destruct (in_dec string_dec k (graphIds g)) as [Hin | Hout];
      [exact Hin |].
    destruct (rawDegrees_outside g k Hout) as [[Hnone _] | (_ & Hin & Hinh)];
      [congruence | apply Hclean; assumption]. }
  pose proof (maxDegree_spec (Part005.rawDegrees g)) as Hmax.
  destruct (Part005.maxDegree (Part005.rawDegrees g)) as [M |].
  - destruct Hmax as (Hone & Hall & Hatt). exists M.
    split; [reflexivity |]. split; [exact Hone |]. split.
    + intros u Hu.
      destruct (Hall u _ (rawDegrees_incidence g u Hu)) as (c & [= <-] & Hc). exact Hc.
    + destruct Hatt as [-> | (k & Hk)]; [left; reflexivity |].
      right. exists k. pose proof (Hkeys k _ Hk) as Hin. split; [exact Hin |].
      rewrite (rawDegrees_incidence g k Hin) in Hk. congruence.
  - destruct Hmax as (k & Hk). pose proof (Hkeys k _ Hk) as Hin.
    rewrite (rawDegrees_incidence g k Hin) in Hk. discriminate.
Qed.

(** Then every node's degree centrality is an ordinary number of the unit
    interval, whatever the edges are. *)
Lemma calculateDegreeCentrality_unit (g : KnowledgeGraph.t) (u : string) :
  noInheritedEndpoint g ->
  In u (graphIds g) -> holdsUnit (Part005.calculateDegreeCentrality g !! u).
Proof.
  intros Hclean Hu.
  destruct (rawDegrees_clean g Hclean) as (M & HM & Hone & Hall & _).
  unfold Part005.calculateDegreeCentrality.
  rewrite lookup_fmap, (rawDegrees_incidence g u Hu), HM.
  cbn [fmap option_fmap option_map Part005.numberOf].
  eexists. split; [reflexivity |]. apply ratio_in_unit; auto.
Qed.

(** An inherited name at a loose edge end turns every score into [NaN]. *)
Lemma calculateDegreeCentrality_NaN (g : KnowledgeGraph.t) (u : string) :
  (exists k, In k (endpoints (KnowledgeGraph.edges g))
             /\ Part005.inherited k = true /\ ~ In k (graphIds g)) ->
  In u (graphIds g) ->
  Part005.calculateDegreeCentrality g !! u = Some NaN.
Proof.
  intros (k & Hk & Hinh & Hout) Hu.
  assert (Hnan : Part005.rawDegrees g !! k = Some Part005.NotANumber).
  { destruct (rawDegrees_outside g k Hout) as [[_ Hno] | (H & _)]; [| exact H].
    exfalso. apply Hno. auto. }
  pose proof (maxDegree_spec (Part005.rawDegrees g)) as Hmax.
  unfold Part005.calculateDegreeCentrality.
  rewrite lookup_fmap, (rawDegrees_incidence g u Hu).
  destruct (Part005.maxDegree (Part005.rawDegrees g)) as [M |]; [| reflexivity].
  destruct Hmax as (_ & Hall & _).
  destruct (Hall k _ Hnan) as (c & Hc & _). discriminate Hc.
Qed.

Lemma calculateDegreeCentrality_defined (g : KnowledgeGraph.t) (u : string) :
  In u (graphIds g) -> is_Some (Part005.calculateDegreeCentrality g !! u).
Proof.
  intros Hu. unfold Part005.calculateDegreeCentrality.
  rewrite lookup_fmap, (rawDegrees_incidence g u Hu). cbn. eauto.
Qed.

(** ** The clustering coefficient stays in the unit interval *)

Lemma innerLinks_le (adj : gmap string (list string)) (a : string) (rest : list string) :
  forall links,
    (fold_left (fun links b => if GraphService.hasNeighbor adj a b then S links else links)
       rest links
     <= links + length rest)%nat.
Proof.
  induction rest as [| b rest IH]; intros links; cbn [fold_left length].
  - lia.
  - destruct (GraphService.hasNeighbor adj a b).
    + pose proof (IH (S links)). lia.
    + pose proof (IH links). lia.
Qed.

(** At most one link per pair of neighbours. *)
Lemma countLinks_le (adj : gmap string (list string)) (l : list string) :
  forall links,
    (2 * GraphService.countLinks adj l links <= 2 * links + length l * (length l - 1))%nat.
Proof.
  induction l as [| a rest IH]; intros links; cbn [GraphService.countLinks length].
  - lia.
  - pose proof (innerLinks_le adj a rest links) as Hinner.
    pose proof (IH (fold_left
                      (fun links b =>
                         if GraphService.hasNeighbor adj a b then S links else links)
                      rest links)) as Hrest.
    replace (S (length rest) - 1)%nat with (length rest) by lia.
    destruct (length rest) as [| k]; cbn in *; nia.
Qed.

Lemma coefficient_unit (adj : gmap string (list string)) (neighbors : list string) :
  in_unit (GraphService.coefficient adj neighbors).
Proof.
  unfold GraphService.coefficient.
  destruct (Nat.ltb_spec (length neighbors) 2) as [Hk | Hk].
  - exists 0%Q. split; [reflexivity |]. split; Lqa.lra.
  - pose proof (countLinks_le adj neighbors 0) as Hle.
    apply ratio_in_unit; [lia | nia].
Qed.

Lemma calculateClusteringCoefficient_unit (nodes : list GraphNode.t)
    (edges : list GraphEdge.t) (u : string) (v : number) :
  GraphService.calculateClusteringCoefficient nodes edges !! u = Some v -> in_unit v.
Proof.
  unfold GraphService.calculateClusteringCoefficient.
  rewrite lookup_fmap. intros Hv.
  apply fmap_Some in Hv as (neighbors & _ & ->). apply coefficient_unit.
Qed.

(** Rounding to six decimals keeps the unit interval. *)
Lemma toFixed6_unit (v : number) : in_unit v -> in_unit (toFixed6 v).
Proof.
  intros (q & -> & Hq0 & Hq1). cbn [toFixed6]. unfold toFixed6_Q.
  rewrite (proj2 (Qle_bool_iff 0 q) Hq0).
  eexists. split; [reflexivity |].
  assert (Hlow : (0 <= Qfloor (q * inject_Z 1000000 + (1 # 2)))%Z).
  { change 0%Z with (Qfloor 0). apply Qfloor_resp_le.
    assert (0 <= q * inject_Z 1000000)%Q by (apply Qmult_le_0_compat; [exact Hq0 | discriminate]).
    Lqa.lra. }
  assert (Hhigh : (Qfloor (q * inject_Z 1000000 + (1 # 2)) <= 1000000)%Z).
  { apply Z.le_trans with (Qfloor (inject_Z 1000000 + (1 # 2))).
    - apply Qfloor_resp_le.
      assert (q * inject_Z 1000000 <= 1 * inject_Z 1000000)%Q
        by (apply Qmult_le_compat_r; [exact Hq1 | discriminate]).
      Lqa.lra.
    - vm_compute. discriminate. }
  split.
  - apply Qle_shift_div_l; [reflexivity |].
    rewrite Qmult_0_l. change 0%Q with (inject_Z 0). rewrite <- Zle_Qle. exact Hlow.
  - apply Qle_shift_div_r; [reflexivity |].
    rewrite Qmult_1_l. rewrite <- Zle_Qle. exact Hhigh.
Qed.

(** ** Ranges of the derived metrics *)

Lemma Part005_enrich_nodes (random : Q) (g : KnowledgeGraph.t) (n' : GraphNode.t) :
  In n' (KnowledgeGraph.nodes (Part005.enrichGraphWithMetrics random g)) ->
  exists n,
    In n (KnowledgeGraph.nodes g)
    /\ n' = Part005.enrichNode (Part005.calculateDegreeCentrality g)
              (Part005.calculatePageRank g Part005.defaultIterations
                 Part005.defaultDamping)
              (detectCommunities g) n.
Proof.
  cbn. intros Hn'. apply in_map_iff in Hn' as (n & <- & Hn). exists n. auto.
Qed.

Lemma defaultDamping_range : (0 <= Part005.defaultDamping <= 1)%Q.
Proof. split; discriminate. Qed.

(** Claim C3.  The enrichment of [graphService.ts], which is the one to
    store the five metrics, throws on every graph that has a node; it
    returns for the empty graph only, so that no node ever receives a
    metric from it.  Of the metrics that the repository computes itself,
    the clustering coefficient lies in [0,1] on every graph; the degree
    centrality of a node does unless an inherited name sits at a loose
    edge end; and the PageRank of a node does when every edge starts at a
    node.  Outside these provisos the scores are [NaN]: so the PageRank
    of the node of [danglingGraph] and the degree centrality of both
    nodes of [inheritedGraph]. *)
Theorem enrich_metric_ranges :
  forall library (random : Q) (g : KnowledgeGraph.t),
    (KnowledgeGraph.nodes g <> [] ->
     GraphService.enrichGraphWithMetrics library random g = None)
    /\ (forall g',
           GraphService.enrichGraphWithMetrics library random g = Some g' ->
           KnowledgeGraph.nodes g' = [])
    /\ (forall u v,
           GraphService.calculateClusteringCoefficient (KnowledgeGraph.nodes g)
             (KnowledgeGraph.edges g) !! u = Some v ->
           in_unit v)
    /\ (forall u,
           In u (graphIds g) ->
           (noInheritedEndpoint g ->
            holdsUnit (Part005.calculateDegreeCentrality g !! u))
           /\ (sourcesAreNodes g ->
               holdsUnit (Part005.calculatePageRank g Part005.defaultIterations
                            Part005.defaultDamping !! u)))
    /\ Part005.calculatePageRank danglingGraph Part005.defaultIterations
         Part005.defaultDamping !! "a" = Some NaN
    /\ Part005.calculateDegreeCentrality inheritedGraph !! "a" = Some NaN
    /\ Part005.calculateDegreeCentrality inheritedGraph !! "b" = Some NaN.
Proof.
  intros library random g.
  split; [apply GraphService_enrich_throws |].
  split; [intros g' Hg'; apply (GraphService_enrich_returns _ _ _ _ Hg') |].
  split; [intros u v; apply calculateClusteringCoefficient_unit |].
  split.
  - intros u Hu. split.
    + intros Hclean. apply calculateDegreeCentrality_unit; assumption.
    + intros Hsrc. apply calculatePageRank_unit;
        [apply defaultDamping_range | exact Hsrc | exact Hu].
  - repeat split; vm_compute; reflexivity.
Qed.

(** The graph of one node and no edge: the enrichment throws. *)
Lemma enrich_metric_ranges_witness :
  GraphService.enrichGraphWithMetrics (constantLibrary (Num 0)) 0 loneGraph = None.
Proof.
  apply (proj1 (enrich_metric_ranges (constantLibrary (Num 0)) 0 loneGraph)).
  discriminate.
Defined.

Lemma signedGraph_sources : sourcesAreNodes signedGraph.
Proof. intros e [<- | [<- | []]]; cbn; auto. Qed.

(** What the hand-written module stores on the node of [signedGraph]. *)
Example signedGraph_ranges :
  holdsUnit
    (NodeData.pagerank
       (GraphNode.data
          (Part005.enrichNode (Part005.calculateDegreeCentrality signedGraph)
             (Part005.calculatePageRank signedGraph Part005.defaultIterations
                Part005.defaultDamping)
             (detectCommunities signedGraph)
             (mkNode "a" "Roman Dmowski" Person)))).
Proof.
  apply calculatePageRank_unit;
    [apply defaultDamping_range | exact signedGraph_sources | left; reflexivity].
Qed.

(** ** Community detection: the traversal ends and labels every node *)

Lemma remove_dups_length {A : Type} `{EqDecision A} (l : list A) :
  (length (remove_dups l) <= length l)%nat.
Proof.
  induction l as [| x l IH]; cbn; [lia |].
  destruct (decide_rel elem_of x l); cbn; lia.
Qed.

Lemma neighborsOf_endpoints (edges : list GraphEdge.t) (current nb : string) :
  In nb (neighborsOf edges current) -> In nb (endpoints edges).
Proof.
  unfold neighborsOf, endpoints. intros H.
  apply in_map_iff in H as (e & <- & He). apply filter_In in He as [He _].
  apply in_app_iff. destruct (String.eqb (esrc e) current).
  - right. apply in_map. exact He.
  - left. apply in_map. exact He.
Qed.

Section Traversal.

#[local] Set Warnings "-clear-no-such-hyp".

Variable edges : list GraphEdge.t.
Variable communityId : nat.

Let universe : gset string := list_to_set (remove_dups (endpoints edges)).

Lemma universe_size : (size universe <= 2 * length edges)%nat.
Proof.
  unfold universe. rewrite size_list_to_set by apply NoDup_remove_dups.
  pose proof (remove_dups_length (endpoints edges)) as H.
  assert (Hlen : length (endpoints edges) = (2 * length edges)%nat).
  { unfold endpoints. rewrite length_app, !List.length_map. lia. }
  lia.
Qed.

Lemma universe_elem (x : string) : In x (endpoints edges) -> x ∈ universe.
Proof.
  intros Hx. unfold universe. apply elem_of_list_to_set, elem_of_remove_dups.
  apply list_elem_of_In. exact Hx.
Qed.

(** Visiting an endpoint leaves the measure unchanged: the queue grows
    by one exactly when the unvisited endpoints shrink by one. *)
Lemma visitNeighbor_measure (st : Bfs.state) (nb : string) :
  In nb (endpoints edges) ->
  bfsMeasure edges (visitNeighbor communityId st nb) = bfsMeasure edges st.
Proof.
  intros Hnb. unfold visitNeighbor, bfsMeasure. fold universe.
  destruct (decide (nb ∈ Bfs.visited st)) as [Hin | Hout]; [reflexivity |].
  cbn [Bfs.queue Bfs.visited].
  rewrite length_app. cbn [length].
  assert (Hsplit : universe ∖ Bfs.visited st
                   = {[nb]} ∪ universe ∖ ({[nb]} ∪ Bfs.visited st)).
  { pose proof (universe_elem nb Hnb) as Hu. apply set_eq. intros x.
    rewrite elem_of_union, !elem_of_difference, elem_of_union, elem_of_singleton.
    destruct (decide (x = nb)) as [-> | Hne]; tauto. }
  assert (Hdisj : ({[nb]} : gset string) ## universe ∖ ({[nb]} ∪ Bfs.visited st)).
  { intros x Hx Hx'. apply elem_of_difference in Hx' as [_ Hx'].
    apply Hx'. apply elem_of_union. left. exact Hx. }
  rewrite Hsplit. rewrite (size_union _ _ Hdisj), size_singleton. lia.
Qed.

Lemma visitNeighbors_measure (nbs : list string) :
  forall st,
    (forall nb, In nb nbs -> In nb (endpoints edges)) ->
    bfsMeasure edges (fold_left (visitNeighbor communityId) nbs st) = bfsMeasure edges st.
Proof.
  induction nbs as [| nb nbs IH]; intros st Hnbs; cbn [fold_left]; [reflexivity |].
  rewrite IH by (intros x Hx; apply Hnbs; right; exact Hx).
  apply visitNeighbor_measure. apply Hnbs. left. reflexivity.
Qed.

(** With as much fuel as the measure, the loop stops on an empty queue. *)
Lemma bfsLoop_queue_empty (fuel : nat) :
  forall st,
    (bfsMeasure edges st <= fuel)%nat ->
    Bfs.queue (bfsLoop fuel edges communityId st) = [].
Proof.
  induction fuel as [| fuel IH]; intros st Hm.
  - cbn. unfold bfsMeasure in Hm. destruct (Bfs.queue st); [reflexivity | cbn in Hm; lia].
  - cbn [bfsLoop]. destruct (Bfs.queue st) as [| current rest] eqn:Hq; [exact Hq |].
    apply IH.
    rewrite visitNeighbors_measure by (intros nb; apply neighborsOf_endpoints).
    unfold bfsMeasure in *. rewrite Hq in Hm. cbn in *. lia.
Qed.

(** The traversal started by [bfs] ends within its fuel. *)
Lemma bfs_queue_empty (startNodeId : string) (visited : gset string)
    (communities : gmap string nat) :
  Bfs.queue (bfs edges startNodeId communityId visited communities) = [].
Proof.
  unfold bfs. apply bfsLoop_queue_empty.
  unfold bfsMeasure, bfsFuel. cbn [Bfs.queue Bfs.visited length]. fold universe.
  pose proof universe_size.
  pose proof (subseteq_size (universe ∖ ({[startNodeId]} ∪ visited)) universe
                ltac:(set_solver)).
  lia.
Qed.

(** Once the queue is empty, more fuel changes nothing: the fuel of
    [bfs] is as good as an unbounded loop. *)
Lemma bfsLoop_more_fuel (fuel extra : nat) :
  forall st,
    (bfsMeasure edges st <= fuel)%nat ->
    bfsLoop (fuel + extra) edges communityId st = bfsLoop fuel edges communityId st.
Proof.
  induction fuel as [| fuel IH]; intros st Hm.
  - unfold bfsMeasure in Hm.
    destruct (Bfs.queue st) as [| current rest] eqn:Hq; [| cbn in Hm; lia].
    cbn [Nat.add]. destruct extra; cbn [bfsLoop]; [reflexivity |].
    rewrite Hq. reflexivity.
  - cbn [Nat.add bfsLoop]. destruct (Bfs.queue st) as [| current rest] eqn:Hq;
      [reflexivity |].
    apply IH.
    rewrite visitNeighbors_measure by (intros nb; apply neighborsOf_endpoints).
    unfold bfsMeasure in *. rewrite Hq in Hm. cbn in *. lia.
Qed.

(** *** Every visited id is labelled, and nothing is forgotten *)

Lemma visitNeighbor_covered (st : Bfs.state) (nb : string) :
  covered (Bfs.visited st) (Bfs.communities st) ->
  covered (Bfs.visited (visitNeighbor communityId st nb))
    (Bfs.communities (visitNeighbor communityId st nb))
  /\ Bfs.visited st ⊆ Bfs.visited (visitNeighbor communityId st nb).
Proof.
  intros Hcov. unfold visitNeighbor.
  destruct (decide (nb ∈ Bfs.visited st)); [split; [exact Hcov | set_solver] |].
  cbn. split; [| set_solver].
  intros x Hx. destruct (decide (nb = x)) as [-> | Hne].
  - rewrite lookup_insert_eq. eauto.
  - rewrite lookup_insert_ne by exact Hne. apply Hcov. set_solver.
Qed.

Lemma visitNeighbors_covered (nbs : list string) :
  forall st,
    covered (Bfs.visited st) (Bfs.communities st) ->
    covered (Bfs.visited (fold_left (visitNeighbor communityId) nbs st))
      (Bfs.communities (fold_left (visitNeighbor communityId) nbs st))
    /\ Bfs.visited st ⊆ Bfs.visited (fold_left (visitNeighbor communityId) nbs st).
Proof.
  induction nbs as [| nb nbs IH]; intros st Hcov; cbn [fold_left].
  - split; [exact Hcov | set_solver].
  - destruct (visitNeighbor_covered st nb Hcov) as [Hcov1 Hsub1].
    destruct (IH _ Hcov1) as [Hcov2 Hsub2].
    split; [exact Hcov2 | set_solver].
Qed.

Lemma bfsLoop_covered (fuel : nat) :
  forall st,
    covered (Bfs.visited st) (Bfs.communities st) ->
    covered (Bfs.visited (bfsLoop fuel edges communityId st))
      (Bfs.communities (bfsLoop fuel edges communityId st))
    /\ Bfs.visited st ⊆ Bfs.visited (bfsLoop fuel edges communityId st).
Proof.
  induction fuel as [| fuel IH]; intros st Hcov; cbn [bfsLoop].
  - split; [exact Hcov | set_solver].
  - destruct (Bfs.queue st) as [| current rest]; [split; [exact Hcov | set_solver] |].
    destruct (visitNeighbors_covered (neighborsOf edges current)
                (Bfs.mk rest (Bfs.visited st) (Bfs.communities st)) Hcov)
      as [Hcov1 Hsub1].
    destruct (IH _ Hcov1) as [Hcov2 Hsub2].
    split; [exact Hcov2 |]. cbn in Hsub1. set_solver.
Qed.

End Traversal.

#[local] Set Warnings "-clear-no-such-hyp".

Lemma detectStep_covered (edges : list GraphEdge.t) (st : Detect.state)
    (node : GraphNode.t) :
  covered (Detect.visited st) (Detect.communities st) ->
  covered (Detect.visited (detectStep edges st node))
    (Detect.communities (detectStep edges st node))
  /\ Detect.visited st ⊆ Detect.visited (detectStep edges st node)
  /\ nid node ∈ Detect.visited (detectStep edges st node).
Proof.
  intros Hcov. unfold detectStep.
  destruct (decide (nid node ∈ Detect.visited st)) as [Hin | Hout].
  - split; [exact Hcov | split; [set_solver | exact Hin]].
  - cbn [Detect.visited Detect.communities]. unfold bfs.
    match goal with
    | |- context [bfsLoop ?f ?e ?c ?s] =>
        destruct (bfsLoop_covered e c f s) as [Hcov1 Hsub1]
    end.
    { cbn. intros x Hx. destruct (decide (nid node = x)) as [-> | Hne].
      - rewrite lookup_insert_eq. eauto.
      - rewrite lookup_insert_ne by exact Hne. apply Hcov. set_solver. }
    cbn in Hsub1. split; [exact Hcov1 | split; set_solver].
Qed.

(** Every node of the graph gets a community id. *)
Lemma detectCommunities_defined (g : KnowledgeGraph.t) (u : string) :
  In u (graphIds g) -> is_Some (detectCommunities g !! u).
Proof.
  unfold detectCommunities, graphIds.
  assert (H : forall (nodes : list GraphNode.t) (st : Detect.state),
             covered (Detect.visited st) (Detect.communities st) ->
             let st' := fold_left (detectStep (KnowledgeGraph.edges g)) nodes st in
             covered (Detect.visited st') (Detect.communities st')
             /\ Detect.visited st ⊆ Detect.visited st'
             /\ forall n, In n nodes -> nid n ∈ Detect.visited st').
  { induction nodes as [| n nodes IH]; intros st Hcov; cbn [fold_left].
    - split; [exact Hcov | split; [set_solver | intros n []]].
    - destruct (detectStep_covered (KnowledgeGraph.edges g) st n Hcov)
        as (Hcov1 & Hsub1 & Hn).
      destruct (IH _ Hcov1) as (Hcov2 & Hsub2 & Hall).
      split; [exact Hcov2 | split; [set_solver |]].
      intros n0 [<- | Hn0]; [set_solver | apply Hall; exact Hn0]. }
  intros Hu. apply in_map_iff in Hu as (n & <- & Hn).
  destruct (H (KnowledgeGraph.nodes g) (Detect.mk ∅ ∅ 0)) as (Hcov & _ & Hall).
  { intros x Hx. cbn in Hx. set_solver. }
  apply Hcov, Hall, Hn.
Qed.

(** ** Edges with a missing endpoint *)

Lemma existsb_eqb_In (x : string) (l : list string) :
  existsb (String.eqb x) l = true <-> In x l.
Proof.
  rewrite existsb_exists. split.
  - intros (y & Hy & Heq). apply String.eqb_eq in Heq. subst. exact Hy.
  - intros Hx. exists x. split; [exact Hx | apply String.eqb_refl].
Qed.

(** *** The clustering coefficient skips them *)

Lemma addNeighbor_keys (k x u : string) (adj : gmap string (list string)) :
  is_Some (GraphService.addNeighbor k x adj !! u) <-> is_Some (adj !! u).
Proof.
  unfold GraphService.addNeighbor. destruct (adj !! k) as [s |] eqn:Hk; [| reflexivity].
  destruct (decide (k = u)) as [<- | Hne].
  - rewrite lookup_insert_eq, Hk. split; eauto.
  - rewrite lookup_insert_ne by exact Hne. reflexivity.
Qed.

Lemma addUndirected_keys (adj : gmap string (list string)) (e : GraphEdge.t) (u : string) :
  is_Some (GraphService.addUndirected adj e !! u) <-> is_Some (adj !! u).
Proof.
  unfold GraphService.addUndirected. destruct (_ && _); [| reflexivity].
  rewrite !addNeighbor_keys. reflexivity.
Qed.

Lemma addUndirected_skip (adj : gmap string (list string)) (e : GraphEdge.t) :
  ~ (is_Some (adj !! esrc e) /\ is_Some (adj !! etgt e)) ->
  GraphService.addUndirected adj e = adj.
Proof.
  intros Hno. unfold GraphService.addUndirected.
  destruct (bool_decide_reflect (is_Some (adj !! esrc e)));
    destruct (bool_decide_reflect (is_Some (adj !! etgt e))); cbn; tauto.
Qed.



(** *** The triadic balance skips them *)



Lemma pairsOf_In (l : list string) (v w : string) :
  In (v, w) (pairsOf l) -> In v l /\ In w l.
Proof.
  induction l as [| x l IH]; cbn [pairsOf]; [intros [] |].
  intros H. apply in_app_iff in H as [H | H].
  - apply in_map_iff in H as (y & [= <- <-] & Hy). split; [left | right]; auto.
  - destruct (IH H). split; right; assumption.
Qed.




(** The two examples of the specification for the lexical similarity. *)
Example lexicalSimilarity_Dmowski :
  (GraphService.lexicalSimilarity "Dmowski" "Dmowski" == 1)%Q
  /\ GraphService.lexicalSimilarity "" "" = 0%Q.
Proof. split; [apply lexicalSimilarity_same; discriminate | reflexivity]. Qed.

(** * Further properties of the embedded code *)

(** ** Edit distance: an invariant of the matrix *)

Section EditDistance.

(** Whatever holds of row [i - 1] and of the cell to the left carries over
    to the cells of row [i] that [fillRow] computes. *)
Lemma fillRow_invariant (P Q : nat -> nat -> Prop) (full : string) (bc : ascii) :
  (forall j ac d l u,
      String.get j full = Some ac -> P j d -> P (S j) u -> Q j l ->
      Q (S j) (if Ascii.eqb bc ac then d
               else Nat.min (d + 1) (Nat.min (l + 1) (u + 1)))) ->
  forall (a : string) (j0 : nat) (prev : list nat) (left : nat),
    (forall k, String.get k a = String.get (j0 + k) full) ->
    length prev = S (String.length a) ->
    (forall t v, prev !! t = Some v -> P (j0 + t) v) ->
    Q j0 left ->
    forall t v, GraphService.fillRow bc a prev left !! t = Some v -> Q (S (j0 + t)) v.
Proof.
  intros Hstep. induction a as [| ac a' IH]; intros j0 prev left Hsuf Hlen HP HQ t v Hv.
  - destruct prev; discriminate.
  - destruct prev as [| diag [| up prev']]; cbn in Hlen; try lia.
    cbn [GraphService.fillRow] in Hv.
    assert (Hcell : Q (S j0) (if Ascii.eqb bc ac then diag
                              else Nat.min (diag + 1) (Nat.min (left + 1) (up + 1)))).
    { apply Hstep.
      - rewrite <- (Nat.add_0_r j0), <- Hsuf. reflexivity.
      - rewrite <- (Nat.add_0_r j0). apply HP. reflexivity.
      - rewrite <- (Nat.add_1_r j0). apply HP. reflexivity.
      - exact HQ. }
    destruct t as [| t'].
    + cbn in Hv. injection Hv as <-. rewrite Nat.add_0_r. exact Hcell.
    + cbn in Hv. replace (S (j0 + S t')) with (S (S j0 + t')) by lia.
      apply (IH (S j0) (up :: prev')
               (if Ascii.eqb bc ac then diag
                else Nat.min (diag + 1) (Nat.min (left + 1) (up + 1))));
        try assumption.
      * intros k. replace (S j0 + k)%nat with (j0 + S k)%nat by lia.
        rewrite <- Hsuf. reflexivity.
      * cbn. lia.
      * intros t0 v0 Ht0. replace (S j0 + t0)%nat with (j0 + S t0)%nat by lia.
        apply HP. exact Ht0.
Qed.

Variables a b : string.

(** [R i j v]: a property of the value [v] of cell [(i, j)]. *)
Variable R : nat -> nat -> nat -> Prop.

Hypothesis R_row0 : forall j, (j <= String.length a)%nat -> R 0 j j.
Hypothesis R_col0 : forall i, (i <= String.length b)%nat -> R i 0 i.
Hypothesis R_step : forall i j bc ac d l u,
    String.get i b = Some bc -> String.get j a = Some ac ->
    R i j d -> R i (S j) u -> R (S i) j l ->
    R (S i) (S j) (if Ascii.eqb bc ac then d
                   else Nat.min (d + 1) (Nat.min (l + 1) (u + 1))).

Lemma fillMatrix_invariant :
  forall (todo : string) (i : nat) (prev : list nat),
    (forall k, String.get k todo = String.get (i + k) b) ->
    (i <= String.length b)%nat ->
    length prev = S (String.length a) ->
    (forall t v, prev !! t = Some v -> R i t v) ->
    R (String.length b) (String.length a)
      (List.last (GraphService.fillMatrix (S i) todo a prev) 0%nat).
Proof.
  induction todo as [| bc todo' IH]; intros i prev Hsuf Hi Hlen Hrow.
  - cbn. assert (i = String.length b).
    { assert (String.length b <= i)%nat; [| lia].
      apply string_get_length. rewrite <- (Nat.add_0_r i), <- Hsuf. reflexivity. }
    subst i.
    destruct (lookup_lt_is_Some_2 prev (String.length a) ltac:(lia)) as [v Hv].
    rewrite (last_lookup_default prev (String.length a) v Hlen Hv).
    apply Hrow. exact Hv.
  - cbn [GraphService.fillMatrix].
    assert (Hbc : String.get i b = Some bc).
    { rewrite <- (Nat.add_0_r i), <- Hsuf. reflexivity. }
    assert (Hlt : (i < String.length b)%nat).
    { destruct (Nat.lt_ge_cases i (String.length b)) as [H | H]; [exact H |].
      apply string_get_length in H. congruence. }
    apply IH.
    + intros k. replace (S i + k)%nat with (i + S k)%nat by lia.
      rewrite <- Hsuf. reflexivity.
    + lia.
    + cbn. rewrite fillRow_length; [reflexivity | exact Hlen].
    + intros t v Hv. destruct t as [| t'].
      * cbn in Hv. injection Hv as <-. apply R_col0. lia.
      * cbn in Hv.
        apply (fillRow_invariant (R i) (R (S i)) a bc) with (j0 := 0%nat)
          (a := a) (prev := prev) (left := S i) (t := t'); try assumption.
        -- intros j ac d l u Hac Hd Hu Hl. apply (R_step i j bc ac); assumption.
        -- intros k. reflexivity.
        -- apply R_col0. lia.
Qed.

(** The value returned satisfies what holds of cell [(|b|, |a|)]. *)
Lemma getLevenshteinDistance_invariant :
  R (String.length b) (String.length a) (GraphService.getLevenshteinDistance a b).
Proof.
  unfold GraphService.getLevenshteinDistance. apply fillMatrix_invariant.
  - intros k. reflexivity.
  - lia.
  - apply length_seq.
  - intros t v Hv. apply lookup_seq in Hv as [-> Ht]. apply R_row0. lia.
Qed.

End EditDistance.

(** Property X1.  [getLevenshteinDistance] lies between the difference of
    the two lengths and the larger of them; against the empty string it is
    the length of the other string. *)
Theorem getLevenshteinDistance_bounds :
  forall a b : string,
    let d := GraphService.getLevenshteinDistance a b in
    (String.length a - String.length b <= d)%nat
    /\ (String.length b - String.length a <= d)%nat
    /\ (d <= Nat.max (String.length a) (String.length b))%nat
    /\ GraphService.getLevenshteinDistance a "" = String.length a
    /\ GraphService.getLevenshteinDistance "" b = String.length b.
Proof.
  assert (H : forall a b : string,
             (String.length b - String.length a
              <= GraphService.getLevenshteinDistance a b)%nat
             /\ (String.length a - String.length b
                 <= GraphService.getLevenshteinDistance a b)%nat
             /\ (GraphService.getLevenshteinDistance a b
                 <= Nat.max (String.length b) (String.length a))%nat).
  { intros a b.
    apply (getLevenshteinDistance_invariant a b
             (fun i j v => (i - j <= v /\ j - i <= v /\ v <= Nat.max i j)%nat)).
    - intros j _. lia.
    - intros i _. lia.
    - intros i j bc ac d l u _ _ Hd Hu Hl. destruct (Ascii.eqb bc ac); lia. }
  intros a b d. subst d.
  destruct (H a b) as (H1 & H2 & H3).
  destruct (H a "") as (H4 & H5 & H6).
  destruct (H "" b) as (H7 & H8 & H9).
  cbn [String.length] in *. repeat split; lia.
Qed.

(** Property X2.  [getLevenshteinDistance] is 0 exactly for equal
    strings. *)
Theorem getLevenshteinDistance_zero_iff :
  forall a b : string, GraphService.getLevenshteinDistance a b = 0%nat <-> a = b.
Proof.
  intros a b. split; [| intros ->; apply getLevenshteinDistance_self].
  intros Hzero.
  assert (H : GraphService.getLevenshteinDistance a b = 0%nat ->
              String.length b = String.length a
              /\ forall k, (k < String.length b)%nat -> String.get k a = String.get k b).
  { apply (getLevenshteinDistance_invariant a b
             (fun i j v => v = 0%nat ->
                           i = j /\ forall k, (k < i)%nat -> String.get k a = String.get k b)).
    - intros j _ ->. split; [reflexivity | intros k Hk; lia].
    - intros i _ ->. split; [reflexivity | intros k Hk; lia].
    - intros i j bc ac d l u Hbc Hac Hd _ _.
      destruct (Ascii.eqb_spec bc ac) as [-> | Hne]; [| intros H0; lia].
      intros H0. destruct (Hd H0) as [-> Hpre]. split; [reflexivity |].
      intros k Hk. destruct (Nat.eq_dec k j) as [-> | Hkj]; [congruence |].
      apply Hpre. lia. }
  destruct (H Hzero) as [Hlen Hget].
  apply String.get_correct. intros k.
  destruct (Nat.lt_ge_cases k (String.length b)) as [Hk | Hk]; [apply Hget, Hk |].
  rewrite (proj2 (string_get_length b k)) by exact Hk.
  apply string_get_length. lia.
Qed.

(** *** The distance is symmetric *)

Lemma levCell_step (a b : string) (i j : nat) :
  levCell a b (S i) (S j)
  = match String.get i b, String.get j a with
    | Some bc, Some ac =>
        if Ascii.eqb bc ac then levCell a b i j
        else Nat.min (levCell a b i j + 1)
               (Nat.min (levCell a b (S i) j + 1) (levCell a b i (S j) + 1))
    | _, _ => 0%nat
    end.
Proof. reflexivity. Qed.

Lemma levCell_col0 (a b : string) (i : nat) : levCell a b i 0 = i.
Proof. destruct i; reflexivity. Qed.

Lemma levCell_transpose (a b : string) :
  forall i j, levCell a b i j = levCell b a j i.
Proof.
  induction i as [| i IHi]; intros j.
  - rewrite levCell_col0. reflexivity.
  - induction j as [| j IHj].
    + rewrite levCell_col0. reflexivity.
    + rewrite !levCell_step, IHi, (IHi (S j)), IHj.
      destruct (String.get i b) as [bc |], (String.get j a) as [ac |]; try reflexivity.
      rewrite (Ascii.eqb_sym ac bc).
      destruct (Ascii.eqb bc ac); [reflexivity | lia].
Qed.

Lemma getLevenshteinDistance_levCell (a b : string) :
  GraphService.getLevenshteinDistance a b
  = levCell a b (String.length b) (String.length a).
Proof.
  apply (getLevenshteinDistance_invariant a b (fun i j v => v = levCell a b i j)).
  - intros j _. reflexivity.
  - intros i _. rewrite levCell_col0. reflexivity.
  - intros i j bc ac d l u Hbc Hac -> -> ->.
    rewrite levCell_step, Hbc, Hac. reflexivity.
Qed.

(** Property X3.  Swapping the two strings does not change
    [getLevenshteinDistance], although the code fills the matrix row by
    row along its second argument. *)
Theorem getLevenshteinDistance_symmetric :
  forall a b : string,
    GraphService.getLevenshteinDistance a b = GraphService.getLevenshteinDistance b a.
Proof.
  intros a b. rewrite !getLevenshteinDistance_levCell. apply levCell_transpose.
Qed.

(** ** Lexical duplicate detection: what the result list looks like *)

Lemma lexicalSimilarity_le_1 (l1 l2 : string) :
  (GraphService.lexicalSimilarity l1 l2 <= 1)%Q.
Proof.
  unfold GraphService.lexicalSimilarity.
  destruct (Nat.ltb_spec 0 (Nat.max (String.length l1) (String.length l2))) as [Hpos | _];
    [| discriminate].
  assert (0 <= inject_Z (Z.of_nat (GraphService.getLevenshteinDistance
                                     (toLowerCase l1) (toLowerCase l2)))
               / inject_Z (Z.of_nat (Nat.max (String.length l1) (String.length l2))))%Q.
  { apply Qle_shift_div_l; [apply inject_nat_pos; exact Hpos |].
    rewrite Qmult_0_l. change 0%Q with (inject_Z 0). rewrite <- Zle_Qle. lia. }
  Lqa.lra.
Qed.

Lemma insertDesc_sorted (c : DuplicateCandidate.t) (sorted : list DuplicateCandidate.t) :
  StronglySorted (fun c1 c2 => (DuplicateCandidate.similarity c2
                                <= DuplicateCandidate.similarity c1)%Q) sorted ->
  StronglySorted (fun c1 c2 => (DuplicateCandidate.similarity c2
                                <= DuplicateCandidate.similarity c1)%Q)
    (GraphService.insertDesc c sorted).
Proof.
  induction sorted as [| x rest IH]; intros Hs; cbn [GraphService.insertDesc].
  - repeat constructor.
  - apply StronglySorted_inv in Hs as [Hrest Hx].
    destruct (Qle_bool (DuplicateCandidate.similarity c) (DuplicateCandidate.similarity x))
      eqn:Hle.
    + apply Qle_bool_iff in Hle. constructor; [apply IH; exact Hrest |].
      apply List.Forall_forall. intros y Hy. apply insertDesc_In in Hy as [-> | Hy].
      * exact Hle.
      * rewrite List.Forall_forall in Hx. apply Hx. exact Hy.
    + assert (Hlt : (DuplicateCandidate.similarity x < DuplicateCandidate.similarity c)%Q).
      { apply Qnot_le_lt. intros H. apply Qle_bool_iff in H. congruence. }
      constructor; [constructor; assumption |].
      apply List.Forall_forall. intros y [<- | Hy].
      * apply Qlt_le_weak. exact Hlt.
      * rewrite List.Forall_forall in Hx. specialize (Hx y Hy).
        apply Qle_trans with (DuplicateCandidate.similarity x);
          [exact Hx | apply Qlt_le_weak; exact Hlt].
Qed.

Lemma sortDesc_sorted (cs : list DuplicateCandidate.t) :
  StronglySorted (fun c1 c2 => (DuplicateCandidate.similarity c2
                                <= DuplicateCandidate.similarity c1)%Q)
    (GraphService.sortDesc cs).
Proof.
  unfold GraphService.sortDesc.
  assert (H : forall acc,
             StronglySorted (fun c1 c2 => (DuplicateCandidate.similarity c2
                                           <= DuplicateCandidate.similarity c1)%Q) acc ->
             StronglySorted (fun c1 c2 => (DuplicateCandidate.similarity c2
                                           <= DuplicateCandidate.similarity c1)%Q)
               (fold_left (fun sorted c => GraphService.insertDesc c sorted) cs acc)).
  { induction cs as [| c cs IH]; intros acc Hacc; cbn [fold_left]; [exact Hacc |].
    apply IH, insertDesc_sorted, Hacc. }
  apply H. constructor.
Qed.

(** Property X4.  The candidates of the lexical [detectDuplicates] come
    out in descending order of similarity; each one pairs a node with a
    later node of the list, of the same type, and its similarity is at
    least the threshold and at most 1. *)
Theorem detectDuplicates_result :
  forall (g : KnowledgeGraph.t) (threshold : Q),
    StronglySorted (fun c1 c2 => (DuplicateCandidate.similarity c2
                                  <= DuplicateCandidate.similarity c1)%Q)
      (GraphService.detectDuplicates g threshold)
    /\ forall c, In c (GraphService.detectDuplicates g threshold) ->
         (threshold <= DuplicateCandidate.similarity c <= 1)%Q
         /\ exists i j n1 n2,
             (i < j)%nat
             /\ KnowledgeGraph.nodes g !! i = Some n1
             /\ KnowledgeGraph.nodes g !! j = Some n2
             /\ DuplicateCandidate.nodeA c = GraphNode.data n1
             /\ DuplicateCandidate.nodeB c = GraphNode.data n2
             /\ NodeData.type (GraphNode.data n1) = NodeData.type (GraphNode.data n2).
Proof.
  intros g threshold. split; [apply sortDesc_sorted |].
  intros c Hc.
  apply detectDuplicates_In in Hc as (i & j & n1 & n2 & Hij & Hi & Hj & Hty & Hth & ->).
  cbn. split.
  - split; [apply Qle_bool_iff; exact Hth | apply lexicalSimilarity_le_1].
  - exists i, j, n1, n2. auto 10.
Qed.

Lemma detectDuplicates_result_witness :
  let c := DuplicateCandidate.mk
             (GraphNode.data (mkNode "dmowski" "Roman Dmowski" Person))
             (GraphNode.data (mkNode "dmowski2" "Roman Dmowski" Person))
             (GraphService.lexicalSimilarity "Roman Dmowski" "Roman Dmowski") in
  ((7 # 10) <= DuplicateCandidate.similarity c <= 1)%Q.
Proof.
  intros c.
  apply (proj2 (detectDuplicates_result duplicatedGraph (7 # 10)) c).
  vm_compute. left. reflexivity.
Defined.

(** ** Cosine similarity: symmetry and self-similarity *)

Section CosineExtra.

Local Open Scope R_scope.

Import CosineSpec.

Lemma dot_comm (a : list R) : forall b, dot a b = dot b a.
Proof.
  induction a as [| x a IH]; intros [| y b]; cbn; try reflexivity.
  rewrite IH. Lra.lra.
Qed.

(** Property X5.  [cosineSimilarity] does not depend on the order of the
    two vectors. *)
Theorem cosineSimilarity_symmetric :
  forall vecA vecB : list R,
    EmbeddingService.cosineSimilarity vecA vecB
    = EmbeddingService.cosineSimilarity vecB vecA.
Proof.
  intros vecA vecB. rewrite !cosineSimilarity_cases.
  destruct (Nat.eqb_spec (length vecA) (length vecB)) as [Hlen | Hlen].
  - rewrite <- Hlen, Nat.eqb_refl. cbn [negb orb].
    destruct (length vecA =? 0)%nat; [reflexivity |].
    unfold cosine. rewrite (dot_comm vecA vecB).
    destruct (Req_dec_T (norm2 vecA) 0), (Req_dec_T (norm2 vecB) 0); try reflexivity.
    rewrite (Rmult_comm (sqrt (norm2 vecA))). reflexivity.
  - destruct (Nat.eqb_spec (length vecB) (length vecA)) as [Hlen' | _]; [congruence |].
    reflexivity.
Qed.

(** Property X6.  [cosineSimilarity] of a vector with itself is 1,
    provided the sum of the squares of its entries is not 0. *)
Theorem cosineSimilarity_self :
  forall vecA : list R,
    norm2 vecA <> 0 -> EmbeddingService.cosineSimilarity vecA vecA = 1.
Proof.
  intros vecA Hn.
  assert (Hne : vecA <> []) by (intros ->; apply Hn; reflexivity).
  rewrite cosineSimilarity_cosine by auto.
  unfold cosine. rewrite sqrt_sqrt by apply norm2_nonneg.
  unfold norm2 in *. field. exact Hn.
Qed.

Lemma cosineSimilarity_self_witness :
  EmbeddingService.cosineSimilarity [3; 4] [3; 4] = 1.
Proof.
  apply (cosineSimilarity_self [3; 4]). unfold norm2. cbn. Lra.lra.
Defined.

End CosineExtra.

(** ** Communities are the connected components *)

Lemma adjacent_sym (edges : list GraphEdge.t) (x y : string) :
  adjacent edges x y -> adjacent edges y x.
Proof. intros (e & He & H). exists e. split; [exact He | tauto]. Qed.

Lemma connected_trans (edges : list GraphEdge.t) (x y z : string) :
  connected edges x y -> connected edges y z -> connected edges x z.
Proof.
  intros Hxy Hyz. induction Hyz as [| y w z _ IH Hadj]; [exact Hxy |].
  apply connected_step with w; [apply IH; exact Hxy | exact Hadj].
Qed.

Lemma connected_sym (edges : list GraphEdge.t) (x y : string) :
  connected edges x y -> connected edges y x.
Proof.
  intros H. induction H as [| x y z _ IH Hadj]; [constructor |].
  apply connected_trans with y; [| exact IH].
  apply connected_step with z; [constructor | apply adjacent_sym; exact Hadj].
Qed.

Lemma neighborsOf_adjacent (edges : list GraphEdge.t) (x y : string) :
  In y (neighborsOf edges x) <-> adjacent edges x y.
Proof.
  unfold neighborsOf, adjacent. rewrite in_map_iff. split.
  - intros (e & Hy & He). apply filter_In in He as [He Hf]. exists e. split; [exact He |].
    destruct (String.eqb_spec (esrc e) x) as [Hs | Hs].
    + left. auto.
    + cbn in Hf. apply String.eqb_eq in Hf. right. auto.
  - intros (e & He & [[Hs Ht] | [Ht Hs]]); exists e.
    + rewrite filter_In, Hs, String.eqb_refl. auto.
    + rewrite filter_In, Ht, String.eqb_refl, orb_true_r.
      destruct (String.eqb_spec (esrc e) x) as [Hx | Hx]; [| auto].
      split; [congruence | auto].
Qed.

Section Components.

#[local] Set Warnings "-clear-no-such-hyp".

Variable edges : list GraphEdge.t.
Variable c : nat.

(** A neighbour of the busy id that is already visited carries [c]. *)
Lemma visited_neighbour_label (x y : string) (queue : list string)
    (visited : gset string) (communities : gmap string nat) :
  traversalInv edges c (Some x) queue visited communities ->
  adjacent edges x y -> y ∈ visited -> communities !! y = Some c.
Proof.
  intros Hinv Hadj Hy.
  apply (inv_dom _ _ _ _ _ _ Hinv) in Hy as [k Hk].
  destruct (in_dec string_dec y queue) as [Hq | Hq].
  - apply (inv_queue _ _ _ _ _ _ Hinv). exact Hq.
  - destruct (string_dec x y) as [<- | Hne].
    + apply (inv_busy _ _ _ _ _ _ Hinv). reflexivity.
    + assert (Hx : communities !! x = Some k).
      { apply (inv_closed _ _ _ _ _ _ Hinv y k Hk Hq); [congruence |].
        apply adjacent_sym. exact Hadj. }
      rewrite (inv_busy _ _ _ _ _ _ Hinv x eq_refl) in Hx. congruence.
Qed.

Lemma visitNeighbor_inv (x y : string) (st : Bfs.state) :
  traversalInv edges c (Some x) (Bfs.queue st) (Bfs.visited st) (Bfs.communities st) ->
  adjacent edges x y ->
  let st' := visitNeighbor c st y in
  traversalInv edges c (Some x) (Bfs.queue st') (Bfs.visited st') (Bfs.communities st')
  /\ Bfs.communities st' !! y = Some c
  /\ forall z k, Bfs.communities st !! z = Some k -> Bfs.communities st' !! z = Some k.
Proof.
  intros Hinv Hadj. unfold visitNeighbor.
  destruct (decide (y ∈ Bfs.visited st)) as [Hin | Hout]; cbn zeta.
  - split; [exact Hinv |]. split; [| auto].
    apply (visited_neighbour_label x y _ _ _ Hinv Hadj Hin).
  - assert (Hfresh : Bfs.communities st !! y = None).
    { destruct (Bfs.communities st !! y) eqn:Hy; [| reflexivity].
      exfalso. apply Hout. apply (inv_dom _ _ _ _ _ _ Hinv). eauto. }
    assert (Hkeep : forall z k, Bfs.communities st !! z = Some k ->
                                <[y := c]> (Bfs.communities st) !! z = Some k).
    { intros z k Hz. rewrite lookup_insert_ne; [exact Hz | congruence]. }
    cbn [Bfs.queue Bfs.visited Bfs.communities].
    split; [| split; [apply lookup_insert_eq | exact Hkeep]].
    constructor.
    + intros z. rewrite elem_of_union, elem_of_singleton.
      destruct (decide (y = z)) as [<- | Hne].
      * rewrite lookup_insert_eq. split; eauto.
      * rewrite lookup_insert_ne by exact Hne.
        rewrite (inv_dom _ _ _ _ _ _ Hinv z). split; [intros [-> | H]; [congruence | exact H] | auto].
    + intros z Hz. apply in_app_iff in Hz as [Hz | [<- | []]].
      * apply Hkeep. apply (inv_queue _ _ _ _ _ _ Hinv). exact Hz.
      * apply lookup_insert_eq.
    + intros z [= <-]. apply Hkeep. apply (inv_busy _ _ _ _ _ _ Hinv). reflexivity.
    + intros z k Hz Hq Hb w Hw.
      assert (Hzy : y <> z) by (intros <-; apply Hq, in_app_iff; right; left; reflexivity).
      rewrite lookup_insert_ne in Hz by exact Hzy.
      apply Hkeep. apply (inv_closed _ _ _ _ _ _ Hinv z k Hz); [| exact Hb | exact Hw].
      intros H. apply Hq, in_app_iff. left. exact H.
    + assert (Hx : Bfs.communities st !! x = Some c)
        by (apply (inv_busy _ _ _ _ _ _ Hinv); reflexivity).
      assert (Hreach : forall z, Bfs.communities st !! z = Some c -> connected edges z y).
      { intros z Hz. apply connected_step with x; [| exact Hadj].
        apply (inv_sound _ _ _ _ _ _ Hinv z x c Hz Hx). }
      intros a b k Ha Hb.
      destruct (decide (y = a)) as [<- | Hya]; destruct (decide (y = b)) as [<- | Hyb].
      * constructor.
      * rewrite lookup_insert_eq in Ha. injection Ha as <-.
        rewrite lookup_insert_ne in Hb by exact Hyb.
        apply connected_sym, Hreach, Hb.
      * rewrite lookup_insert_eq in Hb. injection Hb as <-.
        rewrite lookup_insert_ne in Ha by exact Hya.
        apply Hreach, Ha.
      * rewrite lookup_insert_ne in Ha by exact Hya.
        rewrite lookup_insert_ne in Hb by exact Hyb.
        apply (inv_sound _ _ _ _ _ _ Hinv a b k Ha Hb).
Qed.

Lemma visitNeighbors_inv (x : string) (nbs : list string) :
  forall st,
    traversalInv edges c (Some x) (Bfs.queue st) (Bfs.visited st) (Bfs.communities st) ->
    (forall y, In y nbs -> adjacent edges x y) ->
    let st' := fold_left (visitNeighbor c) nbs st in
    traversalInv edges c (Some x) (Bfs.queue st') (Bfs.visited st') (Bfs.communities st')
    /\ (forall y, In y nbs -> Bfs.communities st' !! y = Some c)
    /\ forall z k, Bfs.communities st !! z = Some k -> Bfs.communities st' !! z = Some k.
Proof.
  induction nbs as [| y nbs IH]; intros st Hinv Hadj; cbn [fold_left].
  - split; [exact Hinv |]. split; [intros y [] | auto].
  - destruct (visitNeighbor_inv x y st Hinv (Hadj y (or_introl eq_refl)))
      as (Hinv1 & Hy & Hkeep1).
    destruct (IH _ Hinv1 (fun z Hz => Hadj z (or_intror Hz))) as (Hinv2 & Hall & Hkeep2).
    split; [exact Hinv2 |]. split.
    + intros z [<- | Hz]; [apply Hkeep2, Hy | apply Hall, Hz].
    + intros z k Hz. apply Hkeep2, Hkeep1, Hz.
Qed.

(** One pass of the [while] loop keeps the invariant. *)
Lemma bfsLoop_inv (fuel : nat) :
  forall st,
    traversalInv edges c None (Bfs.queue st) (Bfs.visited st) (Bfs.communities st) ->
    let st' := bfsLoop fuel edges c st in
    traversalInv edges c None (Bfs.queue st') (Bfs.visited st') (Bfs.communities st')
    /\ forall z k, Bfs.communities st !! z = Some k -> Bfs.communities st' !! z = Some k.
Proof.
  induction fuel as [| fuel IH]; intros st Hinv; cbn [bfsLoop].
  - split; [exact Hinv | auto].
  - destruct (Bfs.queue st) as [| x rest] eqn:Hq; [split; [rewrite Hq; exact Hinv | auto] |].
    assert (Hpop : traversalInv edges c (Some x) rest (Bfs.visited st) (Bfs.communities st)).
    { constructor.
      - apply (inv_dom _ _ _ _ _ _ Hinv).
      - intros z Hz. apply (inv_queue _ _ _ _ _ _ Hinv). right. exact Hz.
      - intros z [= <-]. apply (inv_queue _ _ _ _ _ _ Hinv). left. reflexivity.
      - intros z k Hz Hrest Hb w Hw.
        apply (inv_closed _ _ _ _ _ _ Hinv z k Hz); [| discriminate | exact Hw].
        intros [<- | H]; [apply Hb; reflexivity | apply Hrest, H].
      - apply (inv_sound _ _ _ _ _ _ Hinv). }
    destruct (visitNeighbors_inv x (neighborsOf edges x)
                (Bfs.mk rest (Bfs.visited st) (Bfs.communities st)) Hpop
                (fun y Hy => proj1 (neighborsOf_adjacent edges x y) Hy))
      as (Hinv1 & Hall & Hkeep1).
    cbn [Bfs.communities] in Hkeep1.
    set (st1 := fold_left (visitNeighbor c) (neighborsOf edges x)
                  (Bfs.mk rest (Bfs.visited st) (Bfs.communities st))) in *.
    assert (Hdone : traversalInv edges c None (Bfs.queue st1) (Bfs.visited st1)
                      (Bfs.communities st1)).
    { constructor.
      - apply (inv_dom _ _ _ _ _ _ Hinv1).
      - apply (inv_queue _ _ _ _ _ _ Hinv1).
      - discriminate.
      - intros z k Hz Hnq _ w Hw.
        destruct (string_dec x z) as [<- | Hne].
        + rewrite (inv_busy _ _ _ _ _ _ Hinv1 x eq_refl) in Hz. injection Hz as <-.
          apply Hall. apply neighborsOf_adjacent. exact Hw.
        + apply (inv_closed _ _ _ _ _ _ Hinv1 z k Hz Hnq); [congruence | exact Hw].
      - apply (inv_sound _ _ _ _ _ _ Hinv1). }
    destruct (IH st1 Hdone) as (Hinv2 & Hkeep2).
    split; [exact Hinv2 |]. intros z k Hz. apply Hkeep2, Hkeep1, Hz.
Qed.

End Components.

Lemma traversalInv_idle (edges : list GraphEdge.t) (c c' : nat)
    (visited : gset string) (communities : gmap string nat) :
  traversalInv edges c None [] visited communities ->
  traversalInv edges c' None [] visited communities.
Proof.
  intros Hinv. constructor.
  - apply (inv_dom _ _ _ _ _ _ Hinv).
  - intros x [].
  - discriminate.
  - apply (inv_closed _ _ _ _ _ _ Hinv).
  - apply (inv_sound _ _ _ _ _ _ Hinv).
Qed.

(** A traversal only hands out its own community id. *)
Lemma visitNeighbors_labels (c : nat) (nbs : list string) :
  forall st z k,
    Bfs.communities (fold_left (visitNeighbor c) nbs st) !! z = Some k ->
    Bfs.communities st !! z = Some k \/ k = c.
Proof.
  induction nbs as [| y nbs IH]; intros st z k Hz; cbn [fold_left] in Hz; [auto |].
  apply IH in Hz as [Hz | Hz]; [| auto].
  unfold visitNeighbor in Hz. destruct (decide (y ∈ Bfs.visited st)); [auto |].
  cbn [Bfs.communities] in Hz. destruct (decide (y = z)) as [<- | Hne].
  - rewrite lookup_insert_eq in Hz. right. congruence.
  - rewrite lookup_insert_ne in Hz by exact Hne. auto.
Qed.

Lemma bfsLoop_labels (edges : list GraphEdge.t) (c : nat) (fuel : nat) :
  forall st z k,
    Bfs.communities (bfsLoop fuel edges c st) !! z = Some k ->
    Bfs.communities st !! z = Some k \/ k = c.
Proof.
  induction fuel as [| fuel IH]; intros st z k Hz; cbn [bfsLoop] in Hz; [auto |].
  destruct (Bfs.queue st) as [| x rest]; [auto |].
  apply IH in Hz as [Hz | Hz]; [| auto].
  apply visitNeighbors_labels in Hz. exact Hz.
Qed.

Lemma detectStep_inv (edges : list GraphEdge.t) (nodes : list GraphNode.t)
    (st : Detect.state) (node : GraphNode.t) :
  detectInv edges nodes st -> In node nodes ->
  detectInv edges nodes (detectStep edges st node)
  /\ (Detect.nextCommunityId (detectStep edges st node)
      <= S (Detect.nextCommunityId st))%nat.
Proof.
  intros (Hinv & Hlt & Hnode) Hin. unfold detectStep.
  destruct (decide (nid node ∈ Detect.visited st)) as [Hvis | Hnew].
  { split; [exact (conj Hinv (conj Hlt Hnode)) | lia]. }
  cbn zeta. set (s := nid node) in *. set (c := Detect.nextCommunityId st) in *.
  set (C := Detect.communities st) in *. set (V := Detect.visited st) in *.
  assert (Hfresh : C !! s = None).
  { destruct (C !! s) eqn:Hs; [| reflexivity].
    exfalso. apply Hnew. apply (inv_dom _ _ _ _ _ _ Hinv). eauto. }
  assert (Hkeep0 : forall z k, C !! z = Some k -> <[s := c]> C !! z = Some k).
  { intros z k Hz. rewrite lookup_insert_ne; [exact Hz | congruence]. }
  assert (Hstart : traversalInv edges c None [s] ({[s]} ∪ V) (<[s := c]> C)).
  { constructor.
    - intros z. rewrite elem_of_union, elem_of_singleton.
      destruct (decide (s = z)) as [<- | Hne].
      + rewrite lookup_insert_eq. split; eauto.
      + rewrite lookup_insert_ne by exact Hne.
        rewrite (inv_dom _ _ _ _ _ _ Hinv z).
        split; [intros [-> | H]; [congruence | exact H] | auto].
    - intros z [<- | []]. apply lookup_insert_eq.
    - discriminate.
    - intros z k Hz Hq _ w Hw.
      assert (Hzs : s <> z) by (intros <-; apply Hq; left; reflexivity).
      rewrite lookup_insert_ne in Hz by exact Hzs.
      apply Hkeep0.
      apply (inv_closed _ _ _ _ _ _ Hinv z k Hz); [intros [] | discriminate | exact Hw].
    - intros a b k Ha Hb.
      destruct (decide (s = a)) as [<- | Hsa]; destruct (decide (s = b)) as [<- | Hsb].
      + constructor.
      + rewrite lookup_insert_eq in Ha. injection Ha as <-.
        rewrite lookup_insert_ne in Hb by exact Hsb. apply Hlt in Hb. lia.
      + rewrite lookup_insert_eq in Hb. injection Hb as <-.
        rewrite lookup_insert_ne in Ha by exact Hsa. apply Hlt in Ha. lia.
      + rewrite lookup_insert_ne in Ha by exact Hsa.
        rewrite lookup_insert_ne in Hb by exact Hsb.
        apply (inv_sound _ _ _ _ _ _ Hinv a b k Ha Hb). }
  pose proof (bfs_queue_empty edges c s V C) as Hempty.
  unfold bfs in *.
  set (st0 := Bfs.mk [s] ({[s]} ∪ V) (<[s := c]> C)) in *.
  destruct (bfsLoop_inv edges c (bfsFuel edges) st0 Hstart) as (Hend & Hkeep).
  cbn zeta in Hend. rewrite Hempty in Hend.
  pose proof (bfsLoop_labels edges c (bfsFuel edges) st0) as Hlab.
  cbn [Detect.communities Detect.visited Detect.nextCommunityId].
  assert (Hs : Bfs.communities (bfsLoop (bfsFuel edges) edges c st0) !! s = Some c)
    by (apply Hkeep; apply lookup_insert_eq).
  unfold detectInv. simpl. split; [| lia]. split; [apply traversalInv_idle with c; exact Hend |]. split.
  - intros x k Hx. apply Hlab in Hx as [Hx | ->]; [| lia].
    cbn [st0 Bfs.communities] in Hx.
    destruct (decide (s = x)) as [<- | Hne].
    + rewrite lookup_insert_eq in Hx. injection Hx as <-. lia.
    + rewrite lookup_insert_ne in Hx by exact Hne. apply Hlt in Hx. lia.
  - intros x k Hx.
    assert (Hcase : k = c \/ C !! x = Some k).
    { apply Hlab in Hx as [Hx | ->]; [| auto]. cbn [st0 Bfs.communities] in Hx.
      destruct (decide (s = x)) as [<- | Hne].
      - rewrite lookup_insert_eq in Hx. left. congruence.
      - rewrite lookup_insert_ne in Hx by exact Hne. auto. }
    destruct Hcase as [-> | Hold].
    + exists node. split; [exact Hin | exact Hs].
    + destruct (Hnode x k Hold) as (n & Hn & Hk). exists n. split; [exact Hn |].
      apply Hkeep. apply Hkeep0. exact Hk.
Qed.

Lemma detectCommunities_inv (g : KnowledgeGraph.t) :
  let st := fold_left (detectStep (KnowledgeGraph.edges g))
              (KnowledgeGraph.nodes g) (Detect.mk ∅ ∅ 0) in
  detectInv (KnowledgeGraph.edges g) (KnowledgeGraph.nodes g) st
  /\ (Detect.nextCommunityId st <= length (KnowledgeGraph.nodes g))%nat.
Proof.
  set (edges := KnowledgeGraph.edges g). set (all := KnowledgeGraph.nodes g).
  assert (H : forall (nodes : list GraphNode.t) (st : Detect.state),
             detectInv edges all st -> (forall n, In n nodes -> In n all) ->
             let st' := fold_left (detectStep edges) nodes st in
             detectInv edges all st'
             /\ (Detect.nextCommunityId st'
                 <= Detect.nextCommunityId st + length nodes)%nat).
  { induction nodes as [| n nodes IH]; intros st Hinv Hsub; cbn [fold_left length].
    - split; [exact Hinv | lia].
    - destruct (detectStep_inv edges all st n Hinv (Hsub n (or_introl eq_refl)))
        as (Hinv1 & Hnext1).
      destruct (IH _ Hinv1 (fun m Hm => Hsub m (or_intror Hm))) as (Hinv2 & Hnext2).
      split; [exact Hinv2 | lia]. }
  apply (H all (Detect.mk ∅ ∅ 0)); [| auto].
  split; [| split]; cbn [Detect.communities Detect.visited].
  - constructor.
    + intros x. rewrite lookup_empty. split; [set_solver | intros [? ?]; discriminate].
    + intros x [].
    + discriminate.
    + intros x k Hx. rewrite lookup_empty in Hx. discriminate.
    + intros x y k Hx. rewrite lookup_empty in Hx. discriminate.
  - intros x k Hx. rewrite lookup_empty in Hx. discriminate.
  - intros x k Hx. rewrite lookup_empty in Hx. discriminate.
Qed.

(** An id connected to a labelled one carries the same community. *)
Lemma detectCommunities_closed (g : KnowledgeGraph.t) (x y : string) (k : nat) :
  connected (KnowledgeGraph.edges g) x y ->
  detectCommunities g !! x = Some k -> detectCommunities g !! y = Some k.
Proof.
  destruct (detectCommunities_inv g) as ((Hinv & _ & _) & _). fold (detectCommunities g) in Hinv.
  intros Hc Hx. induction Hc as [| x y z _ IH Hadj]; [exact Hx |].
  apply (inv_closed _ _ _ _ _ _ Hinv y k (IH Hx)); [intros [] | discriminate | exact Hadj].
Qed.

(** ** What the analytics operations do with edges that have a missing endpoint *)





(** The stray edge of [strayGraph] is counted in the degree of its source
    and PageRank stays an ordinary number. *)
Example strayGraph_scores :
  Part005.rawDegrees strayGraph !! "a" = Some (Part005.Count 1)
  /\ holds (Part005.calculateDegreeCentrality strayGraph !! "a") 1
  /\ holds (Part005.calculatePageRank strayGraph Part005.defaultIterations
              Part005.defaultDamping !! "a") (15 # 100).
Proof.
  split; [vm_compute; reflexivity |].
  split; eexists; (split; [vm_compute; reflexivity |]); eexists;
    (split; [reflexivity | vm_compute; reflexivity]).
Qed.


(** Property X7.  [detectCommunities] labels the connected components:
    two ids of its result carry the same community number exactly when a
    path of edges, taken in either direction, joins them. *)
Theorem detectCommunities_components (g : KnowledgeGraph.t) (x y : string) (k l : nat) :
  detectCommunities g !! x = Some k ->
  detectCommunities g !! y = Some l ->
  (k = l <-> connected (KnowledgeGraph.edges g) x y).
Proof.
  intros Hx Hy. split.
  - intros <-. destruct (detectCommunities_inv g) as ((Hinv & _ & _) & _).
    apply (inv_sound _ _ _ _ _ _ Hinv x y k Hx Hy).
  - intros Hc. pose proof (detectCommunities_closed g x y k Hc Hx) as Hy'. congruence.
Qed.



Lemma detectCommunities_components_witness :
  0%nat = 0%nat <-> connected (KnowledgeGraph.edges bridgedGraph) "a" "b".
Proof.
  apply (detectCommunities_components bridgedGraph "a" "b" 0 0);
    vm_compute; reflexivity.
Defined.

(** ** The meta block and the derived node fields of an enriched graph *)

Section EnrichedFields.

Local Open Scope Q_scope.

Lemma specGlobalBalance_unit (edges : list GraphEdge.t) (ids : list string) :
  in_unit (specGlobalBalance edges ids).
Proof.
  unfold specGlobalBalance.
  destruct (List.filter (isTriangle edges) (triplesOf ids)) as [| t ts] eqn:Hts.
  - exists 1. split; [reflexivity | split; discriminate].
  - rewrite <- Hts.
    set (triangles := List.filter (isTriangle edges) (triplesOf ids)).
    assert (Hpos : (1 <= length triangles)%nat)
      by (unfold triangles; rewrite Hts; cbn; lia).
    pose proof (ratio_in_unit
                  (length (List.filter (isBalancedTriangle edges) triangles))
                  (length triangles) (List.filter_length_le _ _) Hpos) as Hunit.
    unfold of_nat at 1 in Hunit. rewrite ndiv_of_nat in Hunit by lia. exact Hunit.
Qed.

Lemma floor_of_tenths (q : Q) :
  0 <= q -> q <= 1 -> (0 <= Qfloor (q * inject_Z 10) <= 10)%Z.
Proof.
  intros H0 H1. split.
  - change 0%Z with (Qfloor 0). apply Qfloor_resp_le.
    change (inject_Z 10) with (10 # 1). Lqa.lra.
  - change 10%Z with (Qfloor (inject_Z 10)) at 2. apply Qfloor_resp_le.
    change (inject_Z 10) with (10 # 1). Lqa.lra.
Qed.

End EnrichedFields.

(** Property X9.  The meta block written by the hand-written enrichment
    holds a [modularity] of [0.4 + r / 10] for the draw [r] of
    [Math.random()] -- in exact arithmetic a number of [0.4, 0.5), and one
    that does not depend on the graph: another graph enriched with the
    same draw gets the same modularity --, a [globalBalance] in [0, 1],
    and the [lastSaved] stamp of the input. *)
Theorem enrich_meta :
  forall (random : Q) (g g2 : KnowledgeGraph.t),
    (0 <= random)%Q -> (random < 1)%Q ->
    exists m m2,
      KnowledgeGraph.meta (Part005.enrichGraphWithMetrics random g) = Some m
      /\ KnowledgeGraph.meta (Part005.enrichGraphWithMetrics random g2) = Some m2
      /\ Meta.modularity m2 = Meta.modularity m
      /\ Meta.modularity m = Some (Num ((4 # 10) + random * (1 # 10)))
      /\ (exists q, Meta.modularity m = Some (Num q) /\ (4 # 10 <= q)%Q /\ (q < 5 # 10)%Q)
      /\ holdsUnit (Meta.globalBalance m)
      /\ Meta.lastSaved m = match KnowledgeGraph.meta g with
                            | Some m0 => Meta.lastSaved m0
                            | None => None
                            end.
Proof.
  intros random g g2 H0 H1.
  eexists. eexists. split; [reflexivity |]. split; [reflexivity |].
  cbn [Meta.modularity Meta.globalBalance Meta.lastSaved].
  split; [reflexivity |]. split; [reflexivity |]. split; [| split; [| reflexivity]].
  - eexists. split; [reflexivity |]. split; Lqa.lra.
  - eexists. split; [reflexivity |].
    rewrite Part005_triadic_spec. apply specGlobalBalance_unit.
Qed.

Lemma enrich_meta_witness :
  exists m m2,
    KnowledgeGraph.meta (Part005.enrichGraphWithMetrics (1 # 2) (triangleGraph negative))
    = Some m
    /\ KnowledgeGraph.meta (Part005.enrichGraphWithMetrics (1 # 2) loneGraph) = Some m2
    /\ Meta.modularity m2 = Meta.modularity m
    /\ Meta.modularity m = Some (Num ((4 # 10) + (1 # 2) * (1 # 10)))
    /\ (exists q, Meta.modularity m = Some (Num q) /\ (4 # 10 <= q)%Q /\ (q < 5 # 10)%Q)
    /\ holdsUnit (Meta.globalBalance m)
    /\ Meta.lastSaved m = None.
Proof.
  apply (enrich_meta (1 # 2) (triangleGraph negative) loneGraph);
    [discriminate | reflexivity].
Defined.

(** Property X10.  In the hand-written module every node of the enriched
    graph carries a [kCore] that is a whole number from 0 to 10 and a
    community number below the number of nodes. *)
Theorem Part005_enrich_kCore_community :
  forall (random : Q) (g : KnowledgeGraph.t) (n' : GraphNode.t),
    In n' (KnowledgeGraph.nodes (Part005.enrichGraphWithMetrics random g)) ->
    (exists z : Z,
        NodeData.kCore (GraphNode.data n') = Some (Num (inject_Z z))
        /\ (0 <= z <= 10)%Z)
    /\ exists k : nat,
        NodeData.community (GraphNode.data n') = Some k
        /\ (k < length (KnowledgeGraph.nodes g))%nat.
Proof.
  intros random g n' Hn'. apply Part005_enrich_nodes in Hn' as (n & Hn & ->).
  assert (Hid : In (nid n) (graphIds g)) by (apply in_map; exact Hn).
  cbn. fold (nid n). split.
  - destruct (calculateDegreeCentrality_cases g (nid n) Hid)
      as [Hnan | (v & Hv & q & -> & Hq0 & Hq1)].
    + rewrite Hnan. cbn. exists 0%Z. split; [reflexivity | lia].
    + rewrite Hv. cbn. eexists. split; [reflexivity |].
      apply floor_of_tenths; assumption.
  - destruct (detectCommunities_defined g (nid n) Hid) as [k Hk].
    exists k. split; [exact Hk |].
    destruct (detectCommunities_inv g) as ((_ & Hlt & _) & Hnext).
    apply Hlt in Hk. lia.
Qed.

Lemma Part005_enrich_kCore_community_witness :
  (exists z : Z,
      NodeData.kCore (GraphNode.data (Part005.enrichNode
                        (Part005.calculateDegreeCentrality loneGraph)
                        (Part005.calculatePageRank loneGraph 20 (85 # 100))
                        (detectCommunities loneGraph)
                        (mkNode "a" "Roman Dmowski" Person)))
      = Some (Num (inject_Z z))
      /\ (0 <= z <= 10)%Z)
  /\ exists k : nat,
      NodeData.community (GraphNode.data (Part005.enrichNode
                        (Part005.calculateDegreeCentrality loneGraph)
                        (Part005.calculatePageRank loneGraph 20 (85 # 100))
                        (detectCommunities loneGraph)
                        (mkNode "a" "Roman Dmowski" Person)))
      = Some k
      /\ (k < 1)%nat.
Proof.
  apply (Part005_enrich_kCore_community 0 loneGraph). left. reflexivity.
Defined.

(** ** Degree centrality: the extreme scores and the order of the scores *)

Section DegreeOrder.

Local Open Scope Q_scope.

Lemma ratio_le (a b k : nat) :
  (1 <= k)%nat ->
  inject_Z (Z.of_nat a) / inject_Z (Z.of_nat k)
  <= inject_Z (Z.of_nat b) / inject_Z (Z.of_nat k)
  <-> (a <= b)%nat.
Proof.
  intros Hk. pose proof (inject_nat_pos k ltac:(lia)) as Hpos.
  unfold Qdiv. rewrite Qmult_le_r by (apply Qinv_lt_0_compat; exact Hpos).
  rewrite <- Zle_Qle. lia.
Qed.

Lemma ratio_eq (a b k : nat) :
  (1 <= k)%nat ->
  inject_Z (Z.of_nat a) / inject_Z (Z.of_nat k)
  == inject_Z (Z.of_nat b) / inject_Z (Z.of_nat k)
  <-> a = b.
Proof.
  intros Hk. split.
  - intros Heq. apply Nat.le_antisymm; apply (ratio_le _ _ k Hk); rewrite Heq; apply Qle_refl.
  - intros ->. reflexivity.
Qed.

Lemma calculateDegreeCentrality_value (g : KnowledgeGraph.t) (M : nat) (u : string) :
  Part005.maxDegree (Part005.rawDegrees g) = Part005.Count M ->
  (1 <= M)%nat ->
  In u (graphIds g) ->
  Part005.calculateDegreeCentrality g !! u
  = Some (Num (inject_Z (Z.of_nat (incidence (KnowledgeGraph.edges g) u))
               / inject_Z (Z.of_nat M))).
Proof.
  intros HM Hone Hu. unfold Part005.calculateDegreeCentrality.
  rewrite lookup_fmap, (rawDegrees_incidence g u Hu), HM.
  cbn [fmap option_fmap option_map Part005.numberOf].
  unfold of_nat at 1. rewrite ndiv_of_nat; [reflexivity | lia].
Qed.

End DegreeOrder.

(** Property X11.  Degree centrality of the hand-written module, for the
    ids of nodes.  When no edge end that is not a node carries an
    inherited name: the score is 0 exactly for a node no edge end sits at;
    it is 1 exactly for a node that has an edge end and at least as many
    as every other node; and a node with fewer edge ends never scores
    higher (an edge counts once at each end, a self-loop twice).  When
    some edge end that is not a node carries an inherited name, the score
    of every node is [NaN]. *)
Theorem calculateDegreeCentrality_extremes :
  forall (g : KnowledgeGraph.t) (u : string),
    In u (graphIds g) ->
    let count := incidence (KnowledgeGraph.edges g) in
    let dc := Part005.calculateDegreeCentrality g in
    (noInheritedEndpoint g ->
     (holds (dc !! u) 0 <-> count u = 0%nat)
     /\ (holds (dc !! u) 1
         <-> (1 <= count u)%nat /\ forall v, In v (graphIds g) -> (count v <= count u)%nat)
     /\ forall v, In v (graphIds g) ->
          ((count u <= count v)%nat <-> (or_zero (dc !! u) <= or_zero (dc !! v))%Q))
    /\ ((exists k, In k (endpoints (KnowledgeGraph.edges g))
                   /\ Part005.inherited k = true /\ ~ In k (graphIds g)) ->
        dc !! u = Some NaN).
Proof.
  intros g u Hu count dc. subst dc.
  split; [| intros Hk; apply calculateDegreeCentrality_NaN; assumption].
  intros Hclean.
  destruct (rawDegrees_clean g Hclean) as (M & HM & Hone & Hall & Hatt).
  fold count in Hall, Hatt.
  rewrite (calculateDegreeCentrality_value g M u HM Hone Hu). fold (count u).
  assert (Hzero : (inject_Z (Z.of_nat 0) / inject_Z (Z.of_nat M) == 0)%Q).
  { unfold Qdiv. apply Qmult_0_l. }
  assert (Hfull : (inject_Z (Z.of_nat M) / inject_Z (Z.of_nat M) == 1)%Q).
  { unfold Qdiv. apply Qmult_inv_r. pose proof (inject_nat_pos M ltac:(lia)). Lqa.lra. }
  assert (Hholds : forall (q r : Q), holds (Some (Num q)) r <-> (q == r)%Q).
  { intros q r. unfold holds, is_num. split.
    - intros (v & [= <-] & q' & [= <-] & Heq). exact Heq.
    - intros Heq. exists (Num q). split; [reflexivity |]. exists q. auto. }
  split; [| split].
  - rewrite Hholds, <- Hzero. apply ratio_eq. exact Hone.
  - rewrite Hholds, <- Hfull, (ratio_eq _ _ M Hone). split.
    + intros Heq. split; [lia |]. intros v Hv. rewrite Heq. apply (Hall v Hv).
    + intros [Hpos Hmax].
      pose proof (Hall u Hu) as Hle.
      destruct Hatt as [H1 | (k & Hkin & Hk)]; [lia |].
      specialize (Hmax k Hkin). lia.
  - intros v Hv. rewrite (calculateDegreeCentrality_value g M v HM Hone Hv).
    cbn [or_zero]. symmetry. apply ratio_le. exact Hone.
Qed.

Lemma bridgedGraph_clean : noInheritedEndpoint bridgedGraph.
Proof.
  intros k [<- | [<- | [<- | [<- | []]]]] Hinh;
    try discriminate Hinh; cbn; auto.
Qed.

Lemma calculateDegreeCentrality_extremes_witness :
  let count := incidence (KnowledgeGraph.edges bridgedGraph) in
  let dc := Part005.calculateDegreeCentrality bridgedGraph in
  (holds (dc !! "a") 0 <-> count "a" = 0%nat)
  /\ (holds (dc !! "a") 1
      <-> (1 <= count "a")%nat
          /\ forall v, In v (graphIds bridgedGraph) -> (count v <= count "a")%nat)
  /\ forall v, In v (graphIds bridgedGraph) ->
       ((count "a" <= count v)%nat <-> (or_zero (dc !! "a") <= or_zero (dc !! v))%Q).
Proof.
  apply (calculateDegreeCentrality_extremes bridgedGraph "a").
  - left. reflexivity.
  - exact bridgedGraph_clean.
Defined.

(** In [inheritedGraph] the edge to ["constructor"] turns both scores into
    [NaN]; without it they are 1 and 1. *)
Example inheritedGraph_scores :
  Part005.calculateDegreeCentrality inheritedGraph !! "a" = Some NaN
  /\ Part005.calculateDegreeCentrality inheritedGraph !! "b" = Some NaN
  /\ Part005.calculateDegreeCentrality inheritedGraph !! "constructor" = Some NaN
  /\ holds (Part005.calculateDegreeCentrality (withoutDangling inheritedGraph) !! "a") 1.
Proof.
  repeat split; try (vm_compute; reflexivity).
  eexists. split; [vm_compute; reflexivity |].
  eexists. split; [reflexivity | vm_compute; reflexivity].
Qed.

(** ** The metrics read only the ids of nodes and the endpoints of edges *)




Section Skeleton.

Variable hN : GraphNode.t -> GraphNode.t.
Variable hE : GraphEdge.t -> GraphEdge.t.
Hypothesis hN_id : forall n, nid (hN n) = nid n.
Hypothesis hE_source : forall e, esrc (hE e) = esrc e.
Hypothesis hE_target : forall e, etgt (hE e) = etgt e.

Variables (nodes : list GraphNode.t) (edges : list GraphEdge.t) (m m' : option Meta.t).

Let g := KnowledgeGraph.mk nodes edges m.










End Skeleton.



(** ** PageRank: the floor of every rank and the total of the ranks *)

Section RankMass.

Local Open Scope Q_scope.

(** With every target among the distinct ids, summing what arrives at
    each id counts every edge exactly once. *)
Lemma incoming_total_eq (U : list string) (w : GraphEdge.t -> Q) (E : list GraphEdge.t) :
  List.NoDup U ->
  (forall e, In e E -> In (etgt e) U) ->
  sumOver (fun u => sumOver w (List.filter (fun e => String.eqb (etgt e) u) E)) U
  == sumOver w E.
Proof.
  intros Hnd. induction E as [| e E IH]; intros Htgt.
  - cbn [List.filter]. rewrite sumOver_const, !sumOver_nil. ring.
  - assert (Hsplit :
             sumOver (fun u => sumOver w (List.filter (fun e0 => String.eqb (etgt e0) u)
                                            (e :: E))) U
             == sumOver (fun u => if String.eqb (etgt e) u then w e else 0) U
                + sumOver (fun u => sumOver w
                                      (List.filter (fun e0 => String.eqb (etgt e0) u) E)) U).
    { rewrite <- sumOver_plus. apply sumOver_ext. intros u _.
      cbn [List.filter]. destruct (String.eqb (etgt e) u).
      - rewrite sumOver_cons. reflexivity.
      - Lqa.lra. }
    rewrite Hsplit, sumOver_cons.
    rewrite (sumOver_indicator_in (fun _ => w e) (etgt e) U Hnd)
      by (apply Htgt; left; reflexivity).
    rewrite IH by (intros e0 He0; apply Htgt; right; exact He0).
    reflexivity.
Qed.

Variable g : KnowledgeGraph.t.
Hypothesis ids_nodup : List.NoDup (graphIds g).
Hypothesis sources : sourcesAreNodes g.
Hypothesis targets :
  forall e, In e (KnowledgeGraph.edges g) -> In (etgt e) (graphIds g).
Hypothesis no_sink :
  forall u, In u (graphIds g) -> (0 < Part005.outDegree (KnowledgeGraph.edges g) u)%nat.
Hypothesis nonempty : (0 < length (KnowledgeGraph.nodes g))%nat.

Variable damping : Q.
Hypothesis damping_range : 0 <= damping <= 1.

Lemma nodup_ids : List.nodup string_dec (graphIds g) = graphIds g.
Proof. apply List.nodup_fixed_point. exact ids_nodup. Qed.

Lemma ids_length : length (graphIds g) = length (KnowledgeGraph.nodes g).
Proof. unfold graphIds. apply List.length_map. Qed.

Lemma shares_eq_ranks (ranks : gmap string number) :
  ranksOk (graphIds g) ranks ->
  sumOver (share (KnowledgeGraph.edges g) ranks) (KnowledgeGraph.edges g)
  == sumOver (rankOf ranks) (graphIds g).
Proof.
  intros Hok.
  set (edges := KnowledgeGraph.edges g).
  set (rho := fun u : string =>
                if (0 <? Part005.outDegree edges u)%nat
                then rankOf ranks u / inject_Z (Z.of_nat (Part005.outDegree edges u))
                else 0).
  assert (Hshare : sumOver (share edges ranks) edges
                   == sumOver (fun e => rho (esrc e)) edges).
  { apply sumOver_ext. intros e _. reflexivity. }
  rewrite Hshare, (outgoing_total (graphIds g) ids_nodup rho edges)
    by (intros e He; apply sources, He).
  apply sumOver_ext. intros u Hu. unfold rho.
  pose proof (no_sink u Hu) as Hout. fold edges in Hout.
  destruct (Nat.ltb_spec 0 (Part005.outDegree edges u)) as [_ | Hno]; [| lia].
  field. pose proof (inject_nat_pos _ Hout). Lqa.lra.
Qed.

Lemma round_mass (ranks : gmap string number) :
  ranksOk (graphIds g) ranks ->
  sumOver (rankOf ranks) (graphIds g) == 1 ->
  sumOver (rankOf (Part005.pageRankRound g damping (length (KnowledgeGraph.nodes g)) ranks))
    (graphIds g) == 1.
Proof.
  intros Hok Hone.
  set (edges := KnowledgeGraph.edges g). set (N := length (KnowledgeGraph.nodes g)).
  assert (Hnew : sumOver (rankOf (Part005.pageRankRound g damping N ranks)) (graphIds g)
                 == sumOver (fun u => (1 - damping) / inject_Z (Z.of_nat N)
                                      + damping
                                        * sumOver (share edges ranks)
                                            (List.filter (fun e => String.eqb (etgt e) u)
                                               edges)) (graphIds g)).
  { apply sumOver_ext. intros u Hu.
    destruct (round_lookup g sources ranks Hok damping nonempty u Hu) as (q & Hq & Hval).
    unfold rankOf. fold N in Hq. rewrite Hq. cbn. exact Hval. }
  rewrite Hnew, sumOver_plus, sumOver_const, sumOver_scale.
  rewrite (incoming_total_eq (graphIds g) (share edges ranks) edges ids_nodup targets).
  unfold edges. rewrite (shares_eq_ranks ranks Hok), Hone, ids_length. fold N.
  field. pose proof (inject_nat_pos N nonempty). Lqa.lra.
Qed.

Lemma initial_mass :
  sumOver
    (rankOf (fold_left
               (fun ranks n =>
                  <[nid n := ndiv (Num 1) (of_nat (length (KnowledgeGraph.nodes g)))]> ranks)
               (KnowledgeGraph.nodes g) (∅ : gmap string number)))
    (graphIds g) == 1.
Proof.
  set (N := length (KnowledgeGraph.nodes g)).
  assert (Hsum : sumOver (rankOf (fold_left
                    (fun ranks n => <[nid n := ndiv (Num 1) (of_nat N)]> ranks)
                    (KnowledgeGraph.nodes g) (∅ : gmap string number))) (graphIds g)
                 == sumOver (fun _ => 1 / inject_Z (Z.of_nat N)) (graphIds g)).
  { apply sumOver_ext. intros u Hu. unfold rankOf.
    rewrite (lookup_fold_insert (fun _ => ndiv (Num 1) (of_nat N))).
    destruct (in_dec string_dec u (List.map nid (KnowledgeGraph.nodes g)));
      [| contradiction].
    rewrite ndiv_of_nat by exact nonempty. reflexivity. }
  rewrite Hsum, sumOver_const, ids_length. fold N.
  field. pose proof (inject_nat_pos N nonempty). Lqa.lra.
Qed.

Lemma calculatePageRank_mass_ok (iterations : nat) :
  ranksOk (graphIds g) (Part005.calculatePageRank g iterations damping)
  /\ sumOver (rankOf (Part005.calculatePageRank g iterations damping)) (graphIds g) == 1.
Proof.
  split; [apply calculatePageRank_ok; assumption |].
  pose proof (fun k => calculatePageRank_ok g k damping damping_range sources nonempty)
    as Hok.
  unfold Part005.calculatePageRank in *.
  destruct (Nat.eqb_spec (length (KnowledgeGraph.nodes g)) 0) as [Hz | _]; [lia |].
  cbn zeta in *.
  induction iterations as [| k IH].
  - apply initial_mass.
  - rewrite Nat.iter_succ. apply round_mass; [apply (Hok k) | exact IH].
Qed.

End RankMass.

(** Property X13.  PageRank of the hand-written module keeps the total
    rank: on a graph whose node ids are distinct, whose edges all start and
    end at nodes and whose nodes all have an outgoing edge, the ranks of
    the nodes add up to 1 after any number of rounds, for any damping in
    [0, 1]. *)
Theorem calculatePageRank_mass :
  forall (g : KnowledgeGraph.t) (iterations : nat) (damping : Q),
    List.NoDup (graphIds g) ->
    (forall e, In e (KnowledgeGraph.edges g) ->
               In (esrc e) (graphIds g) /\ In (etgt e) (graphIds g)) ->
    (forall u, In u (graphIds g) ->
               (0 < Part005.outDegree (KnowledgeGraph.edges g) u)%nat) ->
    (0 < length (KnowledgeGraph.nodes g))%nat ->
    (0 <= damping <= 1)%Q ->
    (sumOver (rankOf (Part005.calculatePageRank g iterations damping)) (graphIds g) == 1)%Q.
Proof.
  intros g iterations damping Hnd Hends Hout Hpos Hd.
  apply calculatePageRank_mass_ok; try assumption.
  - intros e He. apply (Hends e He).
  - intros e He. apply (Hends e He).
Qed.

Lemma calculatePageRank_mass_witness :
  (sumOver (rankOf (Part005.calculatePageRank signedGraph 20 (85 # 100)))
     (graphIds signedGraph) == 1)%Q.
Proof.
  apply (calculatePageRank_mass signedGraph 20 (85 # 100)).
  - repeat constructor; cbn; intuition discriminate.
  - intros e [<- | [<- | []]]; cbn; intuition.
  - intros u [<- | [<- | []]]; cbn; lia.
  - cbn. lia.
  - split; discriminate.
Defined.

(** Property X14.  After at least one round of PageRank (hand-written
    module) a node that no edge points to holds exactly (1 - damping) / N,
    whatever the rest of the graph looks like; and when every edge starts
    at a node and the damping is in [0, 1], no node holds less. *)
Theorem calculatePageRank_floor :
  forall (g : KnowledgeGraph.t) (k : nat) (damping : Q) (u : string),
    In u (graphIds g) ->
    let N := length (KnowledgeGraph.nodes g) in
    let floor := ((1 - damping) / inject_Z (Z.of_nat N))%Q in
    let ranks := Part005.calculatePageRank g (S k) damping in
    ((forall e, In e (KnowledgeGraph.edges g) -> etgt e <> u) ->
     holds (ranks !! u) floor)
    /\ (sourcesAreNodes g -> (0 <= damping <= 1)%Q ->
        exists q, ranks !! u = Some (Num q) /\ (floor <= q)%Q).
Proof.
  intros g k damping u Hu N floor ranks.
  assert (Hpos : (0 < N)%nat).
  { subst N. unfold graphIds in Hu. destruct (KnowledgeGraph.nodes g); [destruct Hu |].
    cbn. lia. }
  assert (Hranks : exists prev,
             ranks = Part005.pageRankRound g damping N prev
             /\ prev = Part005.calculatePageRank g k damping).
  { subst ranks. unfold Part005.calculatePageRank. fold N.
    destruct (Nat.eqb_spec N 0) as [Hz | _]; [lia |]. cbn zeta.
    rewrite Nat.iter_succ. eexists. split; reflexivity. }
  destruct Hranks as (prev & Hranks & Hprev). split.
  - intros Hnone. rewrite Hranks. unfold Part005.pageRankRound.
    rewrite (lookup_fold_insert
               (fun k0 => nadd (ndiv (Num (1 - damping)) (of_nat N))
                            (nmul (Num damping)
                               (Part005.incomingSum (KnowledgeGraph.edges g) prev k0)))).
    destruct (in_dec string_dec u (List.map nid (KnowledgeGraph.nodes g))) as [_ | Hno];
      [| contradiction].
    assert (Hempty : List.filter (fun e => String.eqb (etgt e) u) (KnowledgeGraph.edges g)
                     = []).
    { induction (KnowledgeGraph.edges g) as [| e es IH]; [reflexivity |].
      cbn [List.filter]. destruct (String.eqb_spec (etgt e) u) as [Heq | _].
      - exfalso. apply (Hnone e); [left; reflexivity | exact Heq].
      - apply IH. intros e0 He0. apply Hnone. right. exact He0. }
    unfold Part005.incomingSum. rewrite Hempty. cbn [fold_left].
    rewrite ndiv_of_nat by exact Hpos. cbn [nmul nadd].
    eexists. split; [reflexivity |]. eexists. split; [reflexivity |].
    subst floor. ring.
  - intros Hsrc Hd.
    assert (Hok : ranksOk (graphIds g) prev).
    { rewrite Hprev. apply calculatePageRank_ok; assumption. }
    destruct (round_lookup g Hsrc prev Hok damping Hpos u Hu) as (q & Hq & Hval).
    exists q. split; [rewrite Hranks; exact Hq |].
    assert (Hin : (0 <= sumOver (share (KnowledgeGraph.edges g) prev)
                         (List.filter (fun e => String.eqb (etgt e) u)
                            (KnowledgeGraph.edges g)))%Q).
    { apply sumOver_nonneg. intros e He. apply filter_In in He.
      apply (share_nonneg g Hsrc prev Hok). tauto. }
    assert (Hscaled : (0 <= damping
                            * sumOver (share (KnowledgeGraph.edges g) prev)
                                (List.filter (fun e => String.eqb (etgt e) u)
                                   (KnowledgeGraph.edges g)))%Q)
      by (apply Qmult_le_0_compat; [apply Hd | exact Hin]).
    subst floor. rewrite Hval. fold N. Lqa.lra.
Qed.

Lemma calculatePageRank_floor_witness :
  holds (Part005.calculatePageRank strayGraph 20 (85 # 100) !! "a")
    ((1 - (85 # 100)) / inject_Z (Z.of_nat 1)).
Proof.
  apply (proj1 (calculatePageRank_floor strayGraph 19 (85 # 100) "a"
                  (or_introl eq_refl))).
  intros e [<- | []]. discriminate.
Defined.

(** ** The adjacency list behind the clustering coefficient *)

Lemma setAdd_In (x b : string) (s : list string) :
  In b (GraphService.setAdd x s) <-> In b s \/ b = x.
Proof.
  unfold GraphService.setAdd. destruct (existsb (String.eqb x) s) eqn:Hx.
  - apply existsb_eqb_In in Hx. split; [auto |]. intros [H | ->]; assumption.
  - rewrite in_app_iff. cbn. intuition.
Qed.

Lemma setAdd_NoDup (x : string) (s : list string) :
  List.NoDup s -> List.NoDup (GraphService.setAdd x s).
Proof.
  intros Hnd. unfold GraphService.setAdd. destruct (existsb (String.eqb x) s) eqn:Hx;
    [exact Hnd |].
  assert (Hnot : ~ In x s).
  { intros Hin. apply existsb_eqb_In in Hin. congruence. }
  apply List.NoDup_app; [exact Hnd | repeat constructor; intros [] |].
  intros y Hy [<- | []]. contradiction.
Qed.

Lemma addNeighbor_listed (k x u v : string) (adj : gmap string (list string)) :
  is_Some (adj !! k) ->
  listed (GraphService.addNeighbor k x adj) u v <-> listed adj u v \/ (u = k /\ v = x).
Proof.
  intros [s Hs]. unfold listed, GraphService.addNeighbor. rewrite Hs.
  destruct (decide (k = u)) as [<- | Hne].
  - rewrite lookup_insert_eq, Hs. split.
    + intros (N & [= <-] & Hv). apply setAdd_In in Hv as [Hv | ->]; [left; eauto | auto].
    + intros [(N & [= <-] & Hv) | [_ ->]]; eexists; (split; [reflexivity |]);
        apply setAdd_In; auto.
  - rewrite lookup_insert_ne by exact Hne. split; [auto |].
    intros [H | [-> _]]; [exact H | congruence].
Qed.

Lemma addNeighbor_NoDup (k x : string) (adj : gmap string (list string)) :
  (forall u N, adj !! u = Some N -> List.NoDup N) ->
  forall u N, GraphService.addNeighbor k x adj !! u = Some N -> List.NoDup N.
Proof.
  intros Hnd u N. unfold GraphService.addNeighbor.
  destruct (adj !! k) as [s |] eqn:Hs; [| apply Hnd].
  destruct (decide (k = u)) as [<- | Hne].
  - rewrite lookup_insert_eq. intros [= <-]. apply setAdd_NoDup. apply (Hnd k s Hs).
  - rewrite lookup_insert_ne by exact Hne. apply Hnd.
Qed.

Lemma adjacent_snoc (es : list GraphEdge.t) (e : GraphEdge.t) (u v : string) :
  adjacent (es ++ [e]) u v
  <-> adjacent es u v \/ (esrc e = u /\ etgt e = v) \/ (etgt e = u /\ esrc e = v).
Proof.
  unfold adjacent. split.
  - intros (e0 & He0 & Hj). apply in_app_iff in He0 as [He0 | [<- | []]]; [left; eauto | auto].
  - intros [(e0 & He0 & Hj) | Hj].
    + exists e0. split; [apply in_app_iff; auto | exact Hj].
    + exists e. split; [apply in_app_iff; right; left; reflexivity | exact Hj].
Qed.

(** The adjacency list has the ids of the nodes as keys; each entry is
    duplicate-free and lists the ids of nodes that an edge joins to the
    key. *)
Lemma undirectedAdjacency_inv (nodes : list GraphNode.t) (edges : list GraphEdge.t) :
  let adj := GraphService.undirectedAdjacency nodes edges in
  let ids := List.map nid nodes in
  (forall u, is_Some (adj !! u) <-> In u ids)
  /\ (forall u N, adj !! u = Some N -> List.NoDup N)
  /\ (forall u v, listed adj u v <-> In u ids /\ In v ids /\ adjacent edges u v).
Proof.
  cbn zeta. induction edges as [| e es IH] using rev_ind.
  - unfold GraphService.undirectedAdjacency. cbn [fold_left].
    assert (Hlookup : forall u,
               fold_left (fun adj n => <[nid n := @nil string]> adj) nodes
                 (∅ : gmap string (list string)) !! u
               = if in_dec string_dec u (List.map nid nodes)
                 then Some (@nil string) else None).
    { intros u. rewrite (lookup_fold_insert (fun _ => @nil string)).
      rewrite lookup_empty. reflexivity. }
    split; [| split].
    + intros u. rewrite Hlookup. destruct (in_dec _ _ _); split; eauto.
      * intros [? [=]].
      * contradiction.
    + intros u N. rewrite Hlookup. destruct (in_dec _ _ _); intros [= <-]. constructor.
    + intros u v. unfold listed. split.
      * intros (N & HN & Hv). rewrite Hlookup in HN.
        destruct (in_dec _ _ _); [injection HN as <-; destruct Hv | discriminate].
      * intros (_ & _ & e & [] & _).
  - destruct IH as (Hkeys & Hnd & Hlist).
    unfold GraphService.undirectedAdjacency in *. rewrite fold_left_app. cbn [fold_left].
    set (adj := fold_left GraphService.addUndirected es
                  (fold_left (fun adj n => <[nid n := @nil string]> adj) nodes ∅)) in *.
    split; [| split].
    + intros u. rewrite addUndirected_keys. apply Hkeys.
    + intros u N. unfold GraphService.addUndirected. destruct (_ && _); [| apply Hnd].
      apply addNeighbor_NoDup, addNeighbor_NoDup, Hnd.
    + intros u v. rewrite adjacent_snoc.
      destruct (decide (is_Some (adj !! esrc e) /\ is_Some (adj !! etgt e)))
        as [[Hs Ht] | Hno].
      * unfold GraphService.addUndirected.
        rewrite (bool_decide_eq_true_2 _ Hs), (bool_decide_eq_true_2 _ Ht). cbn [andb].
        rewrite addNeighbor_listed by (apply addNeighbor_keys; exact Ht).
        rewrite addNeighbor_listed by exact Hs.
        rewrite Hlist. apply Hkeys in Hs, Ht. split.
        -- intros [[H | [-> ->]] | [-> ->]]; [tauto | auto 6 | auto 6].
        -- intros (Hu & Hv & [H | [[<- <-] | [<- <-]]]); [left; left; tauto | auto | auto].
      * rewrite (addUndirected_skip adj e Hno), Hlist. split; [tauto |].
        intros (Hu & Hv & [H | Hj]); [tauto |]. exfalso. apply Hno.
        rewrite !Hkeys. destruct Hj as [[-> ->] | [-> ->]]; auto.
Qed.

(** Property X15.  The adjacency list of [calculateClusteringCoefficient]
    has exactly the ids of the nodes as keys, and the entry of a node is
    the duplicate-free list of the node ids that some edge joins to it, in
    either direction; an edge with an endpoint that is no node adds
    nothing, and a self-loop makes a node its own neighbour. *)
Theorem undirectedAdjacency_spec :
  forall (nodes : list GraphNode.t) (edges : list GraphEdge.t) (u : string),
    let adj := GraphService.undirectedAdjacency nodes edges in
    (is_Some (adj !! u) <-> In u (List.map nid nodes))
    /\ forall N, adj !! u = Some N ->
         List.NoDup N
         /\ forall v, In v N <-> In v (List.map nid nodes) /\ adjacent edges u v.
Proof.
  intros nodes edges u adj.
  destruct (undirectedAdjacency_inv nodes edges) as (Hkeys & Hnd & Hlist).
  split; [apply Hkeys |]. intros N HN. split; [apply (Hnd u N HN) |].
  intros v. split.
  - intros Hv. apply Hlist. exists N. auto.
  - intros [Hv Hadj].
    assert (Hu : In u (List.map nid nodes)) by (apply Hkeys; eauto).
    destruct (proj2 (Hlist u v) (conj Hu (conj Hv Hadj))) as (N' & HN' & Hv').
    fold adj in HN'. congruence.
Qed.

Lemma undirectedAdjacency_spec_witness :
  List.NoDup ["b"; "c"]
  /\ forall v, In v ["b"; "c"]
               <-> In v (List.map nid (KnowledgeGraph.nodes (triangleGraph positive)))
                   /\ adjacent (KnowledgeGraph.edges (triangleGraph positive)) "a" v.
Proof.
  apply (proj2 (undirectedAdjacency_spec
                  (KnowledgeGraph.nodes (triangleGraph positive))
                  (KnowledgeGraph.edges (triangleGraph positive)) "a")).
  vm_compute. reflexivity.
Defined.

(** ** The clustering coefficient at its extremes *)

Section ClusteringExtremes.

Local Open Scope Q_scope.

Lemma holds_Num (q r : Q) : holds (Some (Num q)) r <-> q == r.
Proof.
  unfold holds, is_num. split.
  - intros (v & [= <-] & q' & [= <-] & Heq). exact Heq.
  - intros Heq. exists (Num q). split; [reflexivity |]. exists q. auto.
Qed.

Lemma ratio_zero (a k : nat) :
  (1 <= k)%nat -> inject_Z (Z.of_nat a) / inject_Z (Z.of_nat k) == 0 <-> a = 0%nat.
Proof.
  intros Hk. rewrite <- (ratio_eq a 0 k Hk).
  assert (Hzero : inject_Z (Z.of_nat 0) / inject_Z (Z.of_nat k) == 0)
    by (unfold Qdiv; apply Qmult_0_l).
  rewrite Hzero. reflexivity.
Qed.

Lemma ratio_one (a k : nat) :
  (1 <= k)%nat -> inject_Z (Z.of_nat a) / inject_Z (Z.of_nat k) == 1 <-> a = k.
Proof.
  intros Hk. rewrite <- (ratio_eq a k k Hk).
  assert (Hfull : inject_Z (Z.of_nat k) / inject_Z (Z.of_nat k) == 1).
  { unfold Qdiv. apply Qmult_inv_r. pose proof (inject_nat_pos k ltac:(lia)). Lqa.lra. }
  rewrite Hfull. reflexivity.
Qed.

Lemma filter_length_all {A : Type} (p : A -> bool) (l : list A) :
  length (List.filter p l) = length l <-> forall x, In x l -> p x = true.
Proof.
  induction l as [| y l IH]; cbn [List.filter length].
  - split; [intros _ x [] | reflexivity].
  - pose proof (List.filter_length_le p l) as Hle.
    destruct (p y) eqn:Hy; cbn [length].
    + split.
      * intros Hlen x [<- | Hx]; [exact Hy | apply IH; [lia | exact Hx]].
      * intros Hall. f_equal. apply IH. intros x Hx. apply Hall. right. exact Hx.
    + split; [lia |]. intros Hall. specialize (Hall y (or_introl eq_refl)). congruence.
Qed.

Lemma filter_length_none {A : Type} (p : A -> bool) (l : list A) :
  length (List.filter p l) = 0%nat <-> forall x, In x l -> p x = false.
Proof.
  induction l as [| y l IH]; cbn [List.filter length].
  - split; [intros _ x [] | reflexivity].
  - destruct (p y) eqn:Hy; cbn [length].
    + split; [lia |]. intros Hall. specialize (Hall y (or_introl eq_refl)). congruence.
    + rewrite IH. split.
      * intros Hall x [<- | Hx]; [exact Hy | apply Hall, Hx].
      * intros Hall x Hx. apply Hall. right. exact Hx.
Qed.

Lemma pairsOf_length (l : list string) :
  (2 * length (pairsOf l) = length l * (length l - 1))%nat.
Proof.
  induction l as [| u l IH]; [reflexivity |].
  cbn [pairsOf length]. rewrite length_app, List.length_map.
  replace (S (length l) - 1)%nat with (length l) by lia.
  destruct (length l) as [| k]; cbn in *; nia.
Qed.

Lemma innerLinks_filter (adj : gmap string (list string)) (a : string) (rest : list string) :
  forall links,
    fold_left (fun links b => if GraphService.hasNeighbor adj a b then S links else links)
      rest links
    = (links + length (List.filter (linked adj) (List.map (pair a) rest)))%nat.
Proof.
  induction rest as [| b rest IH]; intros links; cbn [fold_left List.map List.filter].
  - cbn. lia.
  - rewrite IH. unfold linked at 2. cbn [fst snd].
    destruct (GraphService.hasNeighbor adj a b); cbn [length]; lia.
Qed.

Lemma countLinks_filter (adj : gmap string (list string)) (l : list string) :
  forall links,
    GraphService.countLinks adj l links
    = (links + length (List.filter (linked adj) (pairsOf l)))%nat.
Proof.
  induction l as [| a rest IH]; intros links; cbn [GraphService.countLinks pairsOf].
  - cbn. lia.
  - rewrite IH, innerLinks_filter, List.filter_app, length_app. lia.
Qed.

Lemma hasNeighbor_listed (adj : gmap string (list string)) (a b : string) :
  GraphService.hasNeighbor adj a b = true <-> listed adj a b.
Proof.
  unfold GraphService.hasNeighbor, listed. destruct (adj !! a) as [s |].
  - rewrite existsb_eqb_In. split; [eauto |]. intros (N & [= <-] & Hb). exact Hb.
  - split; [discriminate | intros (N & [=] & _)].
Qed.

End ClusteringExtremes.

(** Property X16.  The clustering coefficient of a node with fewer than
    two neighbours is 0.  With two neighbours or more it is 1 exactly when
    every two of its neighbours are joined by an edge, and 0 exactly when
    no two of them are. *)
Theorem clustering_extremes :
  forall (nodes : list GraphNode.t) (edges : list GraphEdge.t) (u : string)
         (N : list string),
    GraphService.undirectedAdjacency nodes edges !! u = Some N ->
    let cc := GraphService.calculateClusteringCoefficient nodes edges !! u in
    ((length N < 2)%nat -> cc = Some (Num 0))
    /\ ((2 <= length N)%nat ->
        (holds cc 1 <-> forall a b, In (a, b) (pairsOf N) -> adjacent edges a b)
        /\ (holds cc 0 <-> forall a b, In (a, b) (pairsOf N) -> ~ adjacent edges a b)).
Proof.
  intros nodes edges u N HN cc. subst cc.
  unfold GraphService.calculateClusteringCoefficient. rewrite lookup_fmap, HN.
  cbn [fmap option_fmap option_map]. unfold GraphService.coefficient.
  set (adj := GraphService.undirectedAdjacency nodes edges) in *.
  destruct (undirectedAdjacency_inv nodes edges) as (Hkeys & _ & Hlist).
  fold adj in Hkeys, Hlist.
  assert (Hpair : forall a b, In (a, b) (pairsOf N) ->
                              (linked adj (a, b) = true <-> adjacent edges a b)).
  { intros a b Hab. apply pairsOf_In in Hab as [Ha Hb].
    unfold linked. cbn [fst snd]. rewrite hasNeighbor_listed, Hlist.
    assert (Hin : forall v, In v N -> In v (List.map nid nodes)).
    { intros v Hv. apply (Hlist u v). exists N. auto. }
    split; [tauto |]. intros Hadj. auto. }
  split.
  - intros Hk. destruct (Nat.ltb_spec (length N) 2) as [_ | Hge]; [reflexivity | lia].
  - intros Hk. destruct (Nat.ltb_spec (length N) 2) as [Hlt | _]; [lia |].
    pose proof (pairsOf_length N) as Hlen.
    assert (Hpos : (1 <= length N * (length N - 1))%nat) by nia.
    rewrite countLinks_filter. cbn [Nat.add].
    assert (Hval : forall a k, (1 <= k)%nat ->
                     ndiv (of_nat a) (of_nat k)
                     = Num (inject_Z (Z.of_nat a) / inject_Z (Z.of_nat k))%Q).
    { intros a k Hk1. unfold of_nat at 1. apply ndiv_of_nat. lia. }
    rewrite (Hval _ _ Hpos).
    rewrite !holds_Num, (ratio_one _ _ Hpos), (ratio_zero _ _ Hpos).
    pose proof (List.filter_length_le (linked adj) (pairsOf N)) as Hle.
    split.
    + rewrite <- Hlen.
      assert (Hiff : (2 * length (List.filter (linked adj) (pairsOf N))
                      = 2 * length (pairsOf N))%nat
                     <-> length (List.filter (linked adj) (pairsOf N))
                         = length (pairsOf N)) by lia.
      rewrite Hiff, filter_length_all. split.
      * intros Hall a b Hab. apply (Hpair a b Hab). apply (Hall (a, b) Hab).
      * intros Hall [a b] Hab. apply (Hpair a b Hab). apply (Hall a b Hab).
    + assert (Hiff : (2 * length (List.filter (linked adj) (pairsOf N)))%nat = 0%nat
                     <-> length (List.filter (linked adj) (pairsOf N)) = 0%nat) by lia.
      rewrite Hiff, filter_length_none. split.
      * intros Hnone a b Hab Hadj. apply (Hpair a b Hab) in Hadj.
        rewrite (Hnone (a, b) Hab) in Hadj. discriminate.
      * intros Hnone [a b] Hab. destruct (linked adj (a, b)) eqn:Hl; [| reflexivity].
        exfalso. apply (Hnone a b Hab). apply (Hpair a b Hab). exact Hl.
Qed.

Lemma clustering_extremes_witness :
  holds (GraphService.calculateClusteringCoefficient
           (KnowledgeGraph.nodes (triangleGraph positive))
           (KnowledgeGraph.edges (triangleGraph positive)) !! "a") 1
  <-> forall a b, In (a, b) (pairsOf ["b"; "c"])
                  -> adjacent (KnowledgeGraph.edges (triangleGraph positive)) a b.
Proof.
  apply (proj2 (clustering_extremes
                  (KnowledgeGraph.nodes (triangleGraph positive))
                  (KnowledgeGraph.edges (triangleGraph positive)) "a" ["b"; "c"]
                  ltac:(vm_compute; reflexivity))).
  cbn. lia.
Defined.

(** ** The store: deleting nodes *)

Lemma frames_ids (ns ns' : list GraphNode.t) :
  List.map nodeFrame ns' = List.map nodeFrame ns -> List.map nid ns' = List.map nid ns.
Proof.
  revert ns'. induction ns as [| n ns IH]; intros [| n' ns']; cbn [List.map];
    try discriminate; [reflexivity |].
  intros H.
  assert (Hn : nodeFrame n' = nodeFrame n) by congruence.
  assert (Hns : List.map nodeFrame ns' = List.map nodeFrame ns) by congruence.
  f_equal; [apply nodeFrame_nid, Hn | apply IH, Hns].
Qed.

Lemma idsInclude_In (ids : list string) (x : string) :
  Store.idsInclude ids x = true <-> In x ids.
Proof. apply existsb_eqb_In. Qed.

Lemma filtered_ids (p : string -> bool) (nodes : list GraphNode.t) (u : string) :
  In u (List.map nid (List.filter (fun n => p (nid n)) nodes))
  <-> In u (List.map nid nodes) /\ p u = true.
Proof.
  rewrite !in_map_iff. split.
  - intros (n & <- & Hn). apply filter_In in Hn as [Hn Hp]. eauto.
  - intros [(n & <- & Hn) Hp]. exists n. split; [reflexivity |].
    apply filter_In. auto.
Qed.

Lemma removedGraph_references (nodeId : string) (g : KnowledgeGraph.t) :
  referencesIntact g -> referencesIntact (Store.removedGraph nodeId g).
Proof.
  intros Hg e He. unfold Store.removedGraph in *. cbn in He.
  apply filter_In in He as [He Hkeep]. apply andb_prop in Hkeep as [Hs Ht].
  destruct (Hg e He) as [Hsrc Htgt]. unfold graphIds. cbn [KnowledgeGraph.nodes].
  split; apply (filtered_ids (fun x => negb (String.eqb x nodeId))); auto.
Qed.

Lemma bulkDeletedGraph_references (selected : list string) (g : KnowledgeGraph.t) :
  referencesIntact g -> referencesIntact (Store.bulkDeletedGraph selected g).
Proof.
  intros Hg e He. unfold Store.bulkDeletedGraph in *. cbn in He.
  apply filter_In in He as [He Hkeep]. apply andb_prop in Hkeep as [Hs Ht].
  destruct (Hg e He) as [Hsrc Htgt]. unfold graphIds. cbn [KnowledgeGraph.nodes].
  split; apply (filtered_ids (fun x => negb (Store.idsInclude selected x))); auto.
Qed.

Lemma mergedGraph_references (keepId dropId : string) (g : KnowledgeGraph.t) :
  referencesIntact g -> In keepId (graphIds g) -> keepId <> dropId ->
  referencesIntact (Store.mergedGraph keepId dropId g).
Proof.
  intros Hg Hkeep Hne r Hr. unfold Store.mergedGraph in *. cbn in Hr.
  apply filter_In in Hr as [Hr _]. apply in_map_iff in Hr as (e & <- & He).
  destruct (redirect_endpoints keepId dropId e) as (_ & -> & ->).
  destruct (Hg e He) as [Hsrc Htgt]. unfold graphIds. cbn [KnowledgeGraph.nodes].
  assert (Hred : forall x, In x (graphIds g) ->
                   In (redirectId keepId dropId x)
                     (List.map nid
                        (List.filter (fun n => negb (String.eqb (nid n) dropId))
                           (KnowledgeGraph.nodes g)))).
  { intros x Hx. apply (filtered_ids (fun y => negb (String.eqb y dropId))).
    unfold redirectId. destruct (String.eqb_spec x dropId) as [-> | Hxd].
    - split; [exact Hkeep |]. destruct (String.eqb_spec keepId dropId); [contradiction | reflexivity].
    - split; [exact Hx |]. destruct (String.eqb_spec x dropId); [contradiction | reflexivity]. }
  split; apply Hred; assumption.
Qed.

(** The merged graph still holds the kept node. *)
Lemma mergedGraph_nonempty (keepId dropId : string) (g : KnowledgeGraph.t) :
  In keepId (graphIds g) -> keepId <> dropId ->
  KnowledgeGraph.nodes (Store.mergedGraph keepId dropId g) <> [].
Proof.
  intros Hkeep Hne Hnil.
  assert (Hin : In keepId (List.map nid
                             (KnowledgeGraph.nodes (Store.mergedGraph keepId dropId g)))).
  { unfold Store.mergedGraph. cbn [KnowledgeGraph.nodes].
    apply (filtered_ids (fun y => negb (String.eqb y dropId))).
    split; [exact Hkeep |].
    destruct (String.eqb_spec keepId dropId); [contradiction | reflexivity]. }
  rewrite Hnil in Hin. destruct Hin.
Qed.

Section Deletion.

Variable enrich : KnowledgeGraph.t -> option KnowledgeGraph.t.

Hypothesis enrich_nodes : forall g g',
    enrich g = Some g' ->
    List.map nodeFrame (KnowledgeGraph.nodes g')
    = List.map nodeFrame (KnowledgeGraph.nodes g).

Hypothesis enrich_edges : forall g g',
    enrich g = Some g' ->
    List.map edgeFrame (KnowledgeGraph.edges g')
    = List.map edgeFrame (KnowledgeGraph.edges g).

Lemma enrich_ids (g g' : KnowledgeGraph.t) :
  enrich g = Some g' -> graphIds g' = graphIds g.
Proof. intros Hg'. unfold graphIds. apply frames_ids, (enrich_nodes g g' Hg'). Qed.

Lemma enrich_edge_origin (g g' : KnowledgeGraph.t) (e' : GraphEdge.t) :
  enrich g = Some g' ->
  In e' (KnowledgeGraph.edges g') ->
  exists e, In e (KnowledgeGraph.edges g) /\ esrc e' = esrc e /\ etgt e' = etgt e.
Proof.
  intros Hg' He'.
  destruct (map_eq_In edgeFrame _ _ e' (enrich_edges g g' Hg') He') as (e & He & Hf).
  apply edgeFrame_endpoints in Hf as (_ & Hs & Ht). eauto.
Qed.

Lemma enrich_keeps_references (g g' : KnowledgeGraph.t) :
  enrich g = Some g' -> referencesIntact g -> referencesIntact g'.
Proof.
  intros Hg' Hg e' He'. rewrite (enrich_ids g g' Hg').
  destruct (enrich_edge_origin g g' e' Hg' He') as (e & He & -> & ->). apply Hg, He.
Qed.

Lemma removeNode_generic (nodeId : string) (st st' : Store.selecting) :
  Store.removeNode enrich nodeId st = Some st' -> nodeRemoved nodeId st st'.
Proof.
  unfold Store.removeNode.
  destruct (enrich _) as [enriched |] eqn:Henriched; [| discriminate].
  intros [= <-]. unfold nodeRemoved.
  cbn [Store.selectedNodeIds Store.slots Store.graph Store.filteredGraph Store.toasts].
  split; [reflexivity |]. split; [reflexivity |]. split; [reflexivity |].
  split; [| split].
  - intros u. rewrite (enrich_ids _ _ Henriched).
    unfold graphIds at 1, Store.removedGraph. cbn [KnowledgeGraph.nodes].
    rewrite (filtered_ids (fun x => negb (String.eqb x nodeId))).
    destruct (String.eqb_spec u nodeId); cbn; intuition congruence.
  - intros e' He'.
    destruct (enrich_edge_origin _ _ e' Henriched He') as (e & He & -> & ->).
    unfold Store.removedGraph in He. cbn in He. apply filter_In in He as [_ Hkeep].
    apply andb_prop in Hkeep as [Hs Ht].
    destruct (String.eqb_spec (esrc e) nodeId); [discriminate |].
    destruct (String.eqb_spec (etgt e) nodeId); [discriminate |]. auto.
  - intros Hg. apply (enrich_keeps_references _ _ Henriched).
    apply removedGraph_references, Hg.
Qed.

Lemma bulkDeleteSelection_generic (toastId : string) (st st' : Store.selecting) :
  Store.selectedNodeIds st <> [] ->
  Store.bulkDeleteSelection enrich toastId st = Some st' ->
  selectionDeleted toastId st st'.
Proof.
  unfold Store.bulkDeleteSelection, selectionDeleted.
  destruct (Store.selectedNodeIds st) as [| x sel] eqn:Hsel; [intros H; contradiction |].
  intros _.
  destruct (enrich _) as [enriched |] eqn:Henriched; [| discriminate].
  intros [= <-]. unfold Store.addToast.
  cbn [Store.selectedNodeIds Store.slots Store.graph Store.filteredGraph Store.toasts].
  split; [reflexivity |]. split; [reflexivity |]. split; [reflexivity |].
  split; [| split].
  - intros u. rewrite (enrich_ids _ _ Henriched).
    unfold graphIds at 1, Store.bulkDeletedGraph. cbn [KnowledgeGraph.nodes].
    rewrite (filtered_ids (fun y => negb (Store.idsInclude (x :: sel) y))).
    rewrite <- (idsInclude_In (x :: sel) u).
    destruct (Store.idsInclude (x :: sel) u); cbn; intuition congruence.
  - intros e' He'.
    destruct (enrich_edge_origin _ _ e' Henriched He') as (e & He & -> & ->).
    unfold Store.bulkDeletedGraph in He. cbn [KnowledgeGraph.edges] in He.
    apply filter_In in He as [_ Hkeep]. apply andb_prop in Hkeep as [Hs Ht].
    rewrite <- !(idsInclude_In (x :: sel)).
    destruct (Store.idsInclude (x :: sel) (esrc e)); [discriminate |].
    destruct (Store.idsInclude (x :: sel) (etgt e)); [discriminate |].
    split; discriminate.
  - intros Hg. apply (enrich_keeps_references _ _ Henriched).
    apply bulkDeletedGraph_references, Hg.
Qed.

Lemma mergeNodes_references (keepId dropId : string) (st st' : Store.state) :
  Store.mergeNodes enrich keepId dropId st = Some st' ->
  referencesIntact (Store.graph st) ->
  In keepId (graphIds (Store.graph st)) -> keepId <> dropId ->
  referencesIntact (Store.graph st').
Proof.
  unfold Store.mergeNodes.
  destruct (enrich _) as [enriched |] eqn:Henriched; [| discriminate].
  intros [= <-] Hg Hkeep Hne. cbn [Store.graph].
  apply (enrich_keeps_references _ _ Henriched).
  apply mergedGraph_references; assumption.
Qed.

End Deletion.

(** Property X17.  [removeNode].  With the hand-written analytics module
    doing the enrichment the action returns, and then the stored graph
    keeps exactly the node ids other than the removed one, none of its
    edges mentions the removed id, the selection is emptied, both graph
    slots hold the same graph, the toasts stay, and if every edge of the
    old graph joined two nodes then so does every edge of the new one.
    With the cytoscape-backed module, which is the one the store imports,
    the same holds whenever the action returns; but the action throws as
    soon as a node is left, and the store keeps its state. *)
Theorem removeNode_spec :
  forall library (random : Q) (nodeId : string) (st : Store.selecting),
    (exists st',
        Store.removeNode (returning (Part005.enrichGraphWithMetrics random)) nodeId st
        = Some st'
        /\ nodeRemoved nodeId st st')
    /\ (forall st',
           Store.removeNode (GraphService.enrichGraphWithMetrics library random) nodeId st
           = Some st' ->
           nodeRemoved nodeId st st')
    /\ (KnowledgeGraph.nodes (Store.removedGraph nodeId (Store.graph (Store.slots st)))
        <> [] ->
        Store.removeNode (GraphService.enrichGraphWithMetrics library random) nodeId st
        = None).
Proof.
  intros library random nodeId st. split; [| split].
  - destruct (enrichment_frames library random _ (or_introl eq_refl)) as [Hn He].
    eexists. split; [reflexivity |].
    apply (removeNode_generic _ Hn He). reflexivity.
  - intros st' Hst'.
    destruct (enrichment_frames library random _ (or_intror eq_refl)) as [Hn He].
    apply (removeNode_generic _ Hn He _ _ _ Hst').
  - intros Hnodes. unfold Store.removeNode.
    rewrite GraphService_enrich_throws by exact Hnodes. reflexivity.
Qed.

Lemma duplicatedGraph_references : referencesIntact duplicatedGraph.
Proof.
  intros e [<- | [<- | [<- | [<- | []]]]]; cbn; auto 6.
Qed.

(** The store with the module it imports, holding [duplicatedGraph]:
    removing ["liga"] throws. *)
Lemma removeNode_spec_witness :
  Store.removeNode (GraphService.enrichGraphWithMetrics (constantLibrary (Num 0)) 0)
    "liga" (Store.mkSelecting (Store.mk duplicatedGraph duplicatedGraph) ["liga"] [])
  = None.
Proof.
  apply (proj2 (proj2 (removeNode_spec (constantLibrary (Num 0)) 0 "liga"
                         (Store.mkSelecting (Store.mk duplicatedGraph duplicatedGraph)
                            ["liga"] [])))).
  discriminate.
Defined.

(** Removing the last node is the one removal that the store completes
    with the module it imports. *)
Example removeNode_loneGraph :
  exists st',
    Store.removeNode (GraphService.enrichGraphWithMetrics (constantLibrary (Num 0)) 0)
      "a" (Store.mkSelecting (Store.mk loneGraph loneGraph) ["a"] [])
    = Some st'
    /\ KnowledgeGraph.nodes (Store.graph (Store.slots st')) = []
    /\ Store.selectedNodeIds st' = [].
Proof. eexists. split; [reflexivity |]. split; reflexivity. Qed.

(** With the hand-written module the two entries of Dmowski are left. *)
Example removeNode_duplicatedGraph :
  exists st',
    Store.removeNode (returning (Part005.enrichGraphWithMetrics 0)) "liga"
      (Store.mkSelecting (Store.mk duplicatedGraph duplicatedGraph) ["liga"] [])
    = Some st'
    /\ graphIds (Store.graph (Store.slots st')) = ["dmowski"; "dmowski2"]
    /\ List.map (fun e => EdgeData.id (GraphEdge.data e))
         (KnowledgeGraph.edges (Store.graph (Store.slots st'))) = ["e3"].
Proof. eexists. split; [reflexivity |]. split; reflexivity. Qed.

(** Property X18.  [bulkDeleteSelection].  With an empty selection the
    action returns at once and nothing changes, whatever the analytics
    module.  Otherwise, with the hand-written module the action returns,
    and then the stored graph keeps exactly the node ids outside the
    selection, none of its edges mentions a selected id, the selection is
    emptied, both graph slots hold the same graph, the toast "Bulk Delete"
    with the number of selected ids is appended to the toasts, and edges
    that joined two nodes before still do.  With the cytoscape-backed
    module, which is the one the store imports, the same holds whenever
    the action returns; but the action throws as soon as a node is left,
    and the store keeps its state: no node is deleted and no toast is
    shown. *)
Theorem bulkDeleteSelection_spec :
  forall library (random : Q) (toastId : string) (st : Store.selecting),
    (Store.selectedNodeIds st = [] ->
     forall enrich, Store.bulkDeleteSelection enrich toastId st = Some st)
    /\ (Store.selectedNodeIds st <> [] ->
        (exists st',
            Store.bulkDeleteSelection (returning (Part005.enrichGraphWithMetrics random))
              toastId st = Some st'
            /\ selectionDeleted toastId st st')
        /\ (forall st',
               Store.bulkDeleteSelection
                 (GraphService.enrichGraphWithMetrics library random) toastId st
               = Some st' ->
               selectionDeleted toastId st st')
        /\ (KnowledgeGraph.nodes
              (Store.bulkDeletedGraph (Store.selectedNodeIds st)
                 (Store.graph (Store.slots st))) <> [] ->
            Store.bulkDeleteSelection
              (GraphService.enrichGraphWithMetrics library random) toastId st
            = None)).
Proof.
  intros library random toastId st. split.
  - intros Hsel enrich. unfold Store.bulkDeleteSelection. rewrite Hsel. reflexivity.
  - intros Hsel. split; [| split].
    + destruct (enrichment_frames library random _ (or_introl eq_refl)) as [Hn He].
      assert (Hret : exists st',
                 Store.bulkDeleteSelection
                   (returning (Part005.enrichGraphWithMetrics random)) toastId st
                 = Some st').
      { unfold Store.bulkDeleteSelection.
        destruct (Store.selectedNodeIds st); [contradiction | eexists; reflexivity]. }
      destruct Hret as [st' Hst']. exists st'. split; [exact Hst' |].
      apply (bulkDeleteSelection_generic _ Hn He _ _ _ Hsel Hst').
    + intros st' Hst'.
      destruct (enrichment_frames library random _ (or_intror eq_refl)) as [Hn He].
      apply (bulkDeleteSelection_generic _ Hn He _ _ _ Hsel Hst').
    + intros Hnodes. unfold Store.bulkDeleteSelection.
      destruct (Store.selectedNodeIds st) as [| x sel]; [contradiction |].
      rewrite GraphService_enrich_throws by exact Hnodes. reflexivity.
Qed.

(** The store with the module it imports, holding [duplicatedGraph]:
    deleting two of the three nodes throws. *)
Lemma bulkDeleteSelection_spec_witness :
  Store.bulkDeleteSelection (GraphService.enrichGraphWithMetrics (constantLibrary (Num 0)) 0)
    "toast1"
    (Store.mkSelecting (Store.mk duplicatedGraph duplicatedGraph) ["liga"; "dmowski2"] [])
  = None.
Proof.
  apply (proj2 (proj2 (proj2 (bulkDeleteSelection_spec (constantLibrary (Num 0)) 0
                                "toast1"
                                (Store.mkSelecting
                                   (Store.mk duplicatedGraph duplicatedGraph)
                                   ["liga"; "dmowski2"] []))
                         ltac:(discriminate)))).
  discriminate.
Defined.

(** With the hand-written module one node is left, and the toast says
    how many were removed. *)
Example bulkDeleteSelection_duplicatedGraph :
  exists st',
    Store.bulkDeleteSelection (returning (Part005.enrichGraphWithMetrics 0)) "toast1"
      (Store.mkSelecting (Store.mk duplicatedGraph duplicatedGraph) ["liga"; "dmowski2"] [])
    = Some st'
    /\ graphIds (Store.graph (Store.slots st')) = ["dmowski"]
    /\ Store.toasts st' = [Toast.mk "toast1" "Bulk Delete" "Removed 2 nodes." Toast.info].
Proof. eexists. split; [reflexivity |]. split; reflexivity. Qed.

(** Property X19.  [mergeNodes] used as meant: every edge of the graph
    joins two nodes, the kept id is the id of a node and differs from the
    dropped id.  With the hand-written analytics module the action returns
    and every edge of the merged graph joins two of its nodes.  With the
    cytoscape-backed module, which is the one the store imports, the
    action throws, and the store keeps the unmerged graph. *)
Theorem mergeNodes_keeps_references :
  forall library (random : Q) (keepId dropId : string) (st : Store.state),
    referencesIntact (Store.graph st) ->
    In keepId (graphIds (Store.graph st)) ->
    keepId <> dropId ->
    (exists st',
        Store.mergeNodes (returning (Part005.enrichGraphWithMetrics random))
          keepId dropId st = Some st'
        /\ referencesIntact (Store.graph st'))
    /\ Store.mergeNodes (GraphService.enrichGraphWithMetrics library random)
         keepId dropId st = None.
Proof.
  intros library random keepId dropId st Hg Hkeep Hne. split.
  - destruct (enrichment_frames library random _ (or_introl eq_refl)) as [Hn He].
    eexists. split; [reflexivity |].
    apply (mergeNodes_references _ Hn He keepId dropId st); auto.
  - unfold Store.mergeNodes.
    rewrite GraphService_enrich_throws; [reflexivity |].
    apply mergedGraph_nonempty; assumption.
Qed.

Lemma mergeNodes_keeps_references_witness :
  (exists st',
      Store.mergeNodes (returning (Part005.enrichGraphWithMetrics 0))
        "dmowski" "dmowski2" (Store.mk duplicatedGraph duplicatedGraph) = Some st'
      /\ referencesIntact (Store.graph st'))
  /\ Store.mergeNodes (GraphService.enrichGraphWithMetrics (constantLibrary (Num 0)) 0)
       "dmowski" "dmowski2" (Store.mk duplicatedGraph duplicatedGraph) = None.
Proof.
  apply (mergeNodes_keeps_references (constantLibrary (Num 0)) 0
           "dmowski" "dmowski2" (Store.mk duplicatedGraph duplicatedGraph)).
  - exact duplicatedGraph_references.
  - left. reflexivity.
  - discriminate.
Defined.

(** ** Deleting in bulk and deleting one by one *)










(** ** Selecting nodes *)

Lemma filter_all {A : Type} (p : A -> bool) (l : list A) :
  (forall x, In x l -> p x = true) -> List.filter p l = l.
Proof.
  induction l as [| y l IH]; intros Hall; [reflexivity |].
  cbn [List.filter]. rewrite (Hall y (or_introl eq_refl)). f_equal.
  apply IH. intros x Hx. apply Hall. right. exact Hx.
Qed.

(** Property X21.  [toggleNodeSelection] never touches the graph.  Without
    the multi flag the selection becomes the clicked id alone.  With it,
    the clicked id changes sides and every other id stays where it was; a
    duplicate-free selection stays duplicate-free; and toggling an
    unselected id twice gives back the state one started from. *)
Theorem toggleNodeSelection_spec :
  forall (id : string) (multi : bool) (st : Store.selecting),
    let selected := Store.selectedNodeIds st in
    let st' := Store.toggleNodeSelection id multi st in
    let selected' := Store.selectedNodeIds st' in
    Store.slots st' = Store.slots st
    /\ (multi = false -> selected' = [id])
    /\ (multi = true ->
        (In id selected' <-> ~ In id selected)
        /\ forall x, x <> id -> (In x selected' <-> In x selected))
    /\ (List.NoDup selected -> List.NoDup selected')
    /\ (~ In id selected ->
        Store.toggleNodeSelection id true (Store.toggleNodeSelection id true st) = st).
Proof.
  intros id multi [slots selected toasts]. cbn zeta.
  cbn [Store.selectedNodeIds Store.slots].
  assert (Hgone : forall x, In x (List.filter (fun nid => negb (String.eqb nid id)) selected)
                            <-> In x selected /\ x <> id).
  { intros x. rewrite filter_In.
    destruct (String.eqb_spec x id); cbn; intuition congruence. }
  unfold Store.toggleNodeSelection. cbn [Store.selectedNodeIds Store.slots].
  destruct (Store.idsInclude selected id) eqn:Hinc.
  - apply idsInclude_In in Hinc.
    split; [destruct multi; reflexivity |].
    split; [intros ->; reflexivity |]. split; [| split].
    + intros ->. cbn [Store.selectedNodeIds]. split.
      * rewrite Hgone. tauto.
      * intros x Hx. rewrite Hgone. tauto.
    + intros Hnd. destruct multi; cbn [Store.selectedNodeIds].
      * apply List.NoDup_filter. exact Hnd.
      * repeat constructor. intros [].
    + intros Hout. contradiction.
  - assert (Hout : ~ In id selected).
    { intros Hin. apply idsInclude_In in Hin. congruence. }
    split; [destruct multi; reflexivity |].
    split; [intros ->; reflexivity |]. split; [| split].
    + intros ->. cbn [Store.selectedNodeIds]. split.
      * rewrite in_app_iff. cbn. tauto.
      * intros x Hx. rewrite in_app_iff. cbn. intuition congruence.
    + intros Hnd. destruct multi; cbn [Store.selectedNodeIds].
      * apply List.NoDup_app; [exact Hnd | repeat constructor; intros [] |].
        intros x Hx [<- | []]. contradiction.
      * repeat constructor. intros [].
    + intros _. cbn [Store.selectedNodeIds Store.slots].
      assert (Hin : Store.idsInclude (selected ++ [id]) id = true).
      { apply idsInclude_In, in_app_iff. right. left. reflexivity. }
      rewrite Hin. cbn [Store.selectedNodeIds Store.slots]. f_equal.
      rewrite List.filter_app. cbn [List.filter]. rewrite String.eqb_refl. cbn [negb].
      rewrite app_nil_r. apply filter_all. intros x Hx.
      destruct (String.eqb_spec x id) as [-> | _]; [contradiction | reflexivity].
Qed.

Lemma toggleNodeSelection_spec_witness :
  let st := Store.mkSelecting (Store.mk duplicatedGraph duplicatedGraph) ["liga"] [] in
  Store.toggleNodeSelection "dmowski" true (Store.toggleNodeSelection "dmowski" true st)
  = st.
Proof.
  apply (toggleNodeSelection_spec "dmowski" true
           (Store.mkSelecting (Store.mk duplicatedGraph duplicatedGraph) ["liga"] [])).
  intros [H | []]. discriminate H.
Defined.

(** ** Accepting a duplicate candidate *)

Lemma filter_one_out (nodes : list GraphNode.t) (dropId : string) :
  List.NoDup (List.map nid nodes) -> In dropId (List.map nid nodes) ->
  (length (List.filter (fun n => negb (String.eqb (nid n) dropId)) nodes) + 1
   = length nodes)%nat.
Proof.
  induction nodes as [| n nodes IH]; intros Hnd Hin; [destruct Hin |].
  cbn [List.map] in Hnd, Hin. inversion Hnd as [| ? ? Hn Hrest]; subst.
  cbn [List.filter length]. destruct (String.eqb_spec (nid n) dropId) as [Hdrop | Hne].
  - cbn [negb]. rewrite filter_all; [lia |].
    intros x Hx. destruct (String.eqb_spec (nid x) dropId) as [Heq | _]; [| reflexivity].
    exfalso. apply Hn. rewrite Hdrop, <- Heq. apply in_map. exact Hx.
  - cbn [negb length]. destruct Hin as [Heq | Hin]; [contradiction |].
    rewrite <- (IH Hrest Hin). lia.
Qed.

Lemma distinct_positions (nodes : list GraphNode.t) (i j : nat) (n1 n2 : GraphNode.t) :
  List.NoDup (List.map nid nodes) -> (i < j)%nat ->
  nodes !! i = Some n1 -> nodes !! j = Some n2 -> nid n1 <> nid n2.
Proof.
  intros Hnd Hij Hi Hj Heq. apply NoDup_ListNoDup in Hnd.
  assert (H1 : List.map nid nodes !! i = Some (nid n1))
    by (rewrite list_lookup_fmap, Hi; reflexivity).
  assert (H2 : List.map nid nodes !! j = Some (nid n1))
    by (rewrite list_lookup_fmap, Hj, Heq; reflexivity).
  pose proof (NoDup_lookup _ _ _ _ Hnd H1 H2). lia.
Qed.

(** Property X22.  Accepting a candidate of the lexical duplicate
    detector, on a graph with distinct node ids: [handleMerge] drops the
    node whose description is strictly shorter, the second one on a tie.
    With the hand-written analytics module doing the enrichment the action
    returns; the kept id stays, the dropped id leaves, the graph loses
    exactly one node, and the result is the merge of the dropped id into
    the kept one.  With the cytoscape-backed module, which is the one the
    store imports, the action throws, and the store keeps both nodes. *)
Theorem handleMerge_spec :
  forall library (random threshold : Q) (c : DuplicateCandidate.t) (st : Store.state),
    List.NoDup (graphIds (Store.graph st)) ->
    In c (GraphService.detectDuplicates (Store.graph st) threshold) ->
    let a := DuplicateCandidate.nodeA c in
    let b := DuplicateCandidate.nodeB c in
    exists keep drop,
      ((keep = a /\ drop = b
        /\ (Store.descriptionLength b <= Store.descriptionLength a)%nat)
       \/ (keep = b /\ drop = a
           /\ (Store.descriptionLength a < Store.descriptionLength b)%nat))
      /\ (exists st',
             Store.handleMerge (returning (Part005.enrichGraphWithMetrics random)) c st
             = Some st'
             /\ In (NodeData.id keep) (graphIds (Store.graph st'))
             /\ ~ In (NodeData.id drop) (graphIds (Store.graph st'))
             /\ (length (KnowledgeGraph.nodes (Store.graph st')) + 1
                 = length (KnowledgeGraph.nodes (Store.graph st)))%nat
             /\ mergedInto (NodeData.id keep) (NodeData.id drop) (Store.graph st)
                  (Store.graph st'))
      /\ Store.handleMerge (GraphService.enrichGraphWithMetrics library random) c st
         = None.
Proof.
  intros library random threshold c st Hnd Hc a b.
  destruct (enrichment_frames library random _ (or_introl eq_refl)) as [Hnodes Hedges].
  apply detectDuplicates_In in Hc as (i & j & n1 & n2 & Hij & Hi & Hj & _ & _ & Hceq).
  assert (Ha : a = GraphNode.data n1) by (subst a; rewrite Hceq; reflexivity).
  assert (Hb : b = GraphNode.data n2) by (subst b; rewrite Hceq; reflexivity).
  assert (Hne : NodeData.id a <> NodeData.id b).
  { rewrite Ha, Hb. apply (distinct_positions _ i j n1 n2 Hnd Hij Hi Hj). }
  assert (Hina : In (NodeData.id a) (graphIds (Store.graph st))).
  { rewrite Ha. apply (in_map nid). apply (list_elem_of_lookup_2 _ i) in Hi.
    apply list_elem_of_In. exact Hi. }
  assert (Hinb : In (NodeData.id b) (graphIds (Store.graph st))).
  { rewrite Hb. apply (in_map nid). apply (list_elem_of_lookup_2 _ j) in Hj.
    apply list_elem_of_In. exact Hj. }
  assert (Hgen : forall keepId dropId,
             keepId <> dropId ->
             In keepId (graphIds (Store.graph st)) ->
             In dropId (graphIds (Store.graph st)) ->
             (exists st',
                 Store.mergeNodes (returning (Part005.enrichGraphWithMetrics random))
                   keepId dropId st = Some st'
                 /\ In keepId (graphIds (Store.graph st'))
                 /\ ~ In dropId (graphIds (Store.graph st'))
                 /\ (length (KnowledgeGraph.nodes (Store.graph st')) + 1
                     = length (KnowledgeGraph.nodes (Store.graph st)))%nat
                 /\ mergedInto keepId dropId (Store.graph st) (Store.graph st'))
             /\ Store.mergeNodes (GraphService.enrichGraphWithMetrics library random)
                  keepId dropId st = None).
  { intros keepId dropId Hkd Hk Hd. split.
    - destruct (mergeNodes_returns random keepId dropId st) as [st' Hst'].
      exists st'. split; [exact Hst' |].
      pose proof (merge_result _ _ _ _ _ Hst') as Hres.
      set (r := Store.graph st') in *.
      assert (Hids : graphIds r
                     = List.map nid
                         (List.filter (fun n => negb (String.eqb (nid n) dropId))
                            (KnowledgeGraph.nodes (Store.graph st)))).
      { rewrite (enrich_ids _ Hnodes _ _ Hres). reflexivity. }
      rewrite Hids, !(filtered_ids (fun x => negb (String.eqb x dropId))).
      split; [| split; [| split]].
      + split; [exact Hk |].
        destruct (String.eqb_spec keepId dropId); [contradiction | reflexivity].
      + rewrite String.eqb_refl. intros [_ H]. discriminate H.
      + rewrite <- (filter_one_out _ dropId Hnd Hd). f_equal.
        rewrite <- (List.length_map nid (KnowledgeGraph.nodes r)).
        fold (graphIds r). rewrite Hids, List.length_map. reflexivity.
      + apply (merge_generic _ Hnodes Hedges _ _ _ _ Hst').
    - unfold Store.mergeNodes.
      rewrite GraphService_enrich_throws; [reflexivity |].
      apply mergedGraph_nonempty; assumption. }
  unfold Store.handleMerge. fold a b.
  destruct (Nat.leb_spec (Store.descriptionLength b) (Store.descriptionLength a))
    as [Hle | Hlt].
  - exists a, b. split; [left; auto |]. apply Hgen; auto.
  - exists b, a. split; [right; auto |]. apply Hgen; auto.
Qed.

Lemma handleMerge_spec_witness :
  let c := DuplicateCandidate.mk
             (GraphNode.data (mkNode "dmowski" "Roman Dmowski" Person))
             (GraphNode.data (mkNode "dmowski2" "Roman Dmowski" Person))
             (GraphService.lexicalSimilarity "Roman Dmowski" "Roman Dmowski") in
  let st := Store.mk duplicatedGraph duplicatedGraph in
  exists keep drop,
    ((keep = DuplicateCandidate.nodeA c /\ drop = DuplicateCandidate.nodeB c
      /\ (Store.descriptionLength (DuplicateCandidate.nodeB c)
          <= Store.descriptionLength (DuplicateCandidate.nodeA c))%nat)
     \/ (keep = DuplicateCandidate.nodeB c /\ drop = DuplicateCandidate.nodeA c
         /\ (Store.descriptionLength (DuplicateCandidate.nodeA c)
             < Store.descriptionLength (DuplicateCandidate.nodeB c))%nat))
    /\ (exists st',
           Store.handleMerge (returning (Part005.enrichGraphWithMetrics 0)) c st = Some st'
           /\ In (NodeData.id keep) (graphIds (Store.graph st'))
           /\ ~ In (NodeData.id drop) (graphIds (Store.graph st'))
           /\ (length (KnowledgeGraph.nodes (Store.graph st')) + 1
               = length (KnowledgeGraph.nodes duplicatedGraph))%nat
           /\ mergedInto (NodeData.id keep) (NodeData.id drop) duplicatedGraph
                (Store.graph st'))
    /\ Store.handleMerge (GraphService.enrichGraphWithMetrics (constantLibrary (Num 0)) 0)
         c st = None.
Proof.
  apply (handleMerge_spec (constantLibrary (Num 0)) 0 (7 # 10)
           (DuplicateCandidate.mk
              (GraphNode.data (mkNode "dmowski" "Roman Dmowski" Person))
              (GraphNode.data (mkNode "dmowski2" "Roman Dmowski" Person))
              (GraphService.lexicalSimilarity "Roman Dmowski" "Roman Dmowski"))
           (Store.mk duplicatedGraph duplicatedGraph)).
  - repeat constructor; cbn; intuition discriminate.
  - vm_compute. left. reflexivity.
Defined.

(** ** Regional metrics *)

Section Isolation.

Local Open Scope Q_scope.

Lemma countEdges_counts (nodes : list GraphNode.t) (edges : list GraphEdge.t) :
  forall c,
    let valid := List.filter (validEdge nodes) edges in
    fold_left (countEdge nodes) edges c
    = RegionCounters.mk
        (RegionCounters.sameRegionEdges c + length (List.filter (sameRegion nodes) valid))
        (RegionCounters.totalValidEdges c + length valid).
Proof.
  induction edges as [| e edges IH]; intros [same total]; cbn [fold_left List.filter].
  - cbn. f_equal; lia.
  - rewrite IH. unfold countEdge.
    destruct (validEdge nodes e); cbn [List.filter RegionCounters.sameRegionEdges
                                        RegionCounters.totalValidEdges];
      [| reflexivity].
    destruct (sameRegion nodes e); cbn [length]; f_equal; lia.
Qed.

End Isolation.

(** Property X23.  The isolation index of [calculateRegionalMetrics] is
    the share of same-region edges among the valid edges, those whose two
    endpoints are nodes with a region other than the empty one and
    'Unknown': it lies in [0, 1], is 0 when no edge is valid, is 1 exactly
    when every valid edge stays inside one region and 0 exactly when none
    does. *)
Theorem isolationIndex_spec :
  forall (g : KnowledgeGraph.t),
    let nodes := KnowledgeGraph.nodes g in
    let valid := List.filter (validEdge nodes) (KnowledgeGraph.edges g) in
    let index := RegionalAnalysisResult.isolationIndex (calculateRegionalMetrics g) in
    in_unit index
    /\ (valid = [] -> index = Num 0)
    /\ (valid <> [] ->
        (is_num index 1 <-> forall e, In e valid -> sameRegion nodes e = true)
        /\ (is_num index 0 <-> forall e, In e valid -> sameRegion nodes e = false)).
Proof.
  intros g nodes valid index. subst index valid. unfold calculateRegionalMetrics.
  cbn [RegionalAnalysisResult.isolationIndex]. fold nodes.
  rewrite countEdges_counts. unfold isolationIndexOf.
  set (valid := List.filter (validEdge nodes) (KnowledgeGraph.edges g)).
  cbn [RegionCounters.sameRegionEdges RegionCounters.totalValidEdges Nat.add].
  pose proof (List.filter_length_le (sameRegion nodes) valid) as Hle.
  assert (Hnum : forall (q r : Q), is_num (Num q) r <-> (q == r)%Q).
  { intros q r. unfold is_num. split.
    - intros (q' & [= <-] & Heq). exact Heq.
    - intros Heq. exists q. auto. }
  destruct (Nat.ltb_spec 0 (length valid)) as [Hpos | Hno].
  - split; [apply ratio_in_unit; [exact Hle | lia] |].
    split; [intros Hnil; rewrite Hnil in Hpos; cbn in Hpos; lia |].
    intros _. unfold of_nat at 1 3. rewrite !ndiv_of_nat by lia.
    rewrite !Hnum, (ratio_one _ _ Hpos), (ratio_zero _ _ Hpos).
    split; [apply filter_length_all | apply filter_length_none].
  - split; [exists 0%Q; split; [reflexivity | split; discriminate] |].
    split; [reflexivity |]. intros Hne. exfalso. apply Hne.
    apply List.length_zero_iff_nil. lia.
Qed.

Lemma isolationIndex_spec_witness :
  is_num (RegionalAnalysisResult.isolationIndex (calculateRegionalMetrics regionalGraph)) 1
  <-> forall e,
      In e (List.filter (validEdge (KnowledgeGraph.nodes regionalGraph))
              (KnowledgeGraph.edges regionalGraph)) ->
      sameRegion (KnowledgeGraph.nodes regionalGraph) e = true.
Proof.
  apply (proj2 (proj2 (isolationIndex_spec regionalGraph))).
  vm_compute. discriminate.
Defined.

(** *** The bridge scores *)

Lemma assign_elem (k : string) (v : Q) (scores : list (string * Q)) (x : string * Q) :
  In x (assign k v scores) -> x = (k, v) \/ In x scores.
Proof.
  induction scores as [| [k0 v0] rest IH]; cbn [assign].
  - intros [<- | []]. auto.
  - destruct (String.eqb k0 k).
    + intros [<- | H]; [auto | right; right; exact H].
    + intros [<- | H]; [right; left; reflexivity |].
      destruct (IH H) as [-> | H']; [auto | right; right; exact H'].
Qed.

Lemma assign_has (k : string) (v : Q) (scores : list (string * Q)) :
  In (k, v) (assign k v scores).
Proof.
  induction scores as [| [k0 v0] rest IH]; cbn [assign]; [left; reflexivity |].
  destruct (String.eqb k0 k); [left; reflexivity | right; exact IH].
Qed.

Lemma assign_other (k k' : string) (v v' : Q) (scores : list (string * Q)) :
  k' <> k -> In (k', v') scores -> In (k', v') (assign k v scores).
Proof.
  intros Hne. induction scores as [| [k0 v0] rest IH]; cbn [assign]; [intros [] |].
  destruct (String.eqb_spec k0 k) as [-> | Hk0].
  - intros [[= <- <-] | H]; [contradiction | right; exact H].
  - intros [H | H]; [left; exact H | right; apply IH, H].
Qed.

Lemma assign_keys (k k' : string) (v : Q) (scores : list (string * Q)) :
  In k' (List.map fst (assign k v scores)) <-> k' = k \/ In k' (List.map fst scores).
Proof.
  induction scores as [| [k0 v0] rest IH]; cbn [assign List.map fst].
  - cbn. intuition.
  - destruct (String.eqb_spec k0 k) as [-> | Hk0]; cbn [List.map fst In].
    + intuition.
    + rewrite IH. intuition.
Qed.

Lemma assign_NoDup (k : string) (v : Q) (scores : list (string * Q)) :
  List.NoDup (List.map fst scores) -> List.NoDup (List.map fst (assign k v scores)).
Proof.
  induction scores as [| [k0 v0] rest IH]; cbn [assign List.map fst]; intros Hnd.
  - repeat constructor. intros [].
  - inversion Hnd as [| ? ? Hk0 Hrest]; subst.
    destruct (String.eqb_spec k0 k) as [-> | Hne]; cbn [List.map fst].
    + constructor; assumption.
    + constructor; [| apply IH, Hrest].
      rewrite assign_keys. intros [-> | H]; contradiction.
Qed.

Section BridgeScores.

Variables (nodes : list GraphNode.t) (edges : list GraphEdge.t).

Lemma scores_keep (ns : list GraphNode.t) :
  forall acc k v,
    ~ In k (List.map nid ns) -> In (k, v) acc ->
    In (k, v) (fold_left (scoreNode nodes edges) ns acc).
Proof.
  induction ns as [| m ns IH]; intros acc k v Hk Hin; cbn [fold_left]; [exact Hin |].
  cbn [List.map] in Hk. apply IH; [intros H; apply Hk; right; exact H |].
  unfold scoreNode. destruct (bool_decide _); [exact Hin |].
  apply assign_other; [| exact Hin]. intros ->. apply Hk. left. reflexivity.
Qed.

Lemma scores_fold (ns : list GraphNode.t) :
  forall acc,
    List.NoDup (List.map fst acc) ->
    let scores := fold_left (scoreNode nodes edges) ns acc in
    List.NoDup (List.map fst scores)
    /\ (forall k v, In (k, v) scores ->
          In (k, v) acc
          \/ exists n, In n ns /\ nid n = k
                       /\ NodeData.region (GraphNode.data n) <> Some "Unknown"
                       /\ v = bridgeScore nodes edges n)
    /\ (List.NoDup (List.map nid ns) ->
        forall n, In n ns ->
                  NodeData.region (GraphNode.data n) <> Some "Unknown" ->
                  In (nid n, bridgeScore nodes edges n) scores).
Proof.
  induction ns as [| n ns IH]; intros acc Hacc; cbn [fold_left].
  - split; [exact Hacc |]. split; [auto | intros _ n []].
  - assert (Hstep : List.NoDup (List.map fst (scoreNode nodes edges acc n))).
    { unfold scoreNode. destruct (bool_decide _); [exact Hacc | apply assign_NoDup, Hacc]. }
    destruct (IH _ Hstep) as (Hnd & Horigin & Hcomplete).
    split; [exact Hnd |]. split.
    + intros k v Hkv. destruct (Horigin k v Hkv) as [Hin | (n0 & Hn0 & H)].
      * unfold scoreNode in Hin.
        destruct (bool_decide_reflect
                    (NodeData.region (GraphNode.data n) = Some "Unknown")) as [Hu | Hu];
          [auto |].
        apply assign_elem in Hin as [[= -> ->] | Hin]; [| auto].
        right. exists n. split; [left; reflexivity | auto].
      * right. exists n0. split; [right; exact Hn0 | exact H].
    + cbn [List.map]. intros Hids n0 [<- | Hn0] Hregion.
      * inversion Hids as [| ? ? Hfresh Hrest]; subst.
        assert (Hhere : In (nid n, bridgeScore nodes edges n) (scoreNode nodes edges acc n)).
        { unfold scoreNode. rewrite bool_decide_eq_false_2 by exact Hregion.
          apply assign_has. }
        apply scores_keep; [exact Hfresh | exact Hhere].
      * inversion Hids; subst. apply Hcomplete; assumption.
Qed.

Lemma bridgeScores_spec :
  let scores := bridgeScoresOf nodes edges in
  List.NoDup (List.map fst scores)
  /\ (forall k v, In (k, v) scores ->
        exists n, In n nodes /\ nid n = k
                  /\ NodeData.region (GraphNode.data n) <> Some "Unknown"
                  /\ v = bridgeScore nodes edges n)
  /\ (List.NoDup (List.map nid nodes) ->
      forall n, In n nodes ->
                NodeData.region (GraphNode.data n) <> Some "Unknown" ->
                In (nid n, bridgeScore nodes edges n) scores).
Proof.
  destruct (scores_fold nodes [] (List.NoDup_nil _)) as (Hnd & Horigin & Hcomplete).
  split; [exact Hnd |]. split; [| exact Hcomplete].
  intros k v Hkv. destruct (Horigin k v Hkv) as [[] | H]. exact H.
Qed.

End BridgeScores.

(** *** The order of [Object.entries] and the sort *)

Lemma insertIndex_perm (i : N) (kv : string * Q) (sorted : list (N * (string * Q))) :
  insertIndex i kv sorted ≡ₚ (i, kv) :: sorted.
Proof.
  induction sorted as [| [j x] rest IH]; cbn [insertIndex]; [reflexivity |].
  destruct (i <? j)%N; [reflexivity |].
  rewrite IH. apply Permutation_swap.
Qed.

Lemma indexedEntries_perm (scores : list (string * Q)) :
  List.map snd (indexedEntries scores)
  ≡ₚ List.filter (fun kv => bool_decide (is_Some (arrayIndex (fst kv)))) scores.
Proof.
  unfold indexedEntries.
  assert (H : forall (l : list (string * Q)) (acc : list (N * (string * Q))),
             List.map snd
               (fold_left
                  (fun sorted kv =>
                     match arrayIndex (fst kv) with
                     | Some i => insertIndex i kv sorted
                     | None => sorted
                     end) l acc)
             ≡ₚ List.map snd acc
                ++ List.filter (fun kv => bool_decide (is_Some (arrayIndex (fst kv)))) l).
  { induction l as [| kv l IH]; intros acc; cbn [fold_left List.filter].
    - rewrite app_nil_r. reflexivity.
    - rewrite IH. destruct (arrayIndex (fst kv)) as [i |] eqn:Hi.
      + rewrite bool_decide_eq_true_2 by eauto.
        rewrite (fmap_Permutation snd _ _ (insertIndex_perm i kv acc)). cbn [fmap list_fmap snd].
        apply Permutation_middle.
      + rewrite bool_decide_eq_false_2 by (intros [? [=]]). reflexivity. }
  rewrite H. reflexivity.
Qed.

Lemma filter_split_perm {A : Type} (p : A -> bool) (l : list A) :
  List.filter p l ++ List.filter (fun x => negb (p x)) l ≡ₚ l.
Proof.
  induction l as [| x l IH]; [reflexivity |].
  cbn [List.filter]. destruct (p x); cbn [negb app].
  - rewrite IH. reflexivity.
  - rewrite <- Permutation_middle, IH. reflexivity.
Qed.

Lemma Object_entries_perm (scores : list (string * Q)) : Object_entries scores ≡ₚ scores.
Proof.
  unfold Object_entries. rewrite indexedEntries_perm. apply filter_split_perm.
Qed.

Lemma insertScore_perm (e : string * Q) (sorted : list (string * Q)) :
  insertScore e sorted ≡ₚ e :: sorted.
Proof.
  induction sorted as [| x rest IH]; cbn [insertScore]; [reflexivity |].
  destruct (Qle_bool (snd e) (snd x)); [| reflexivity].
  rewrite IH. apply Permutation_swap.
Qed.

Lemma sortByScore_perm (l : list (string * Q)) : sortByScore l ≡ₚ l.
Proof.
  unfold sortByScore.
  assert (H : forall (l acc : list (string * Q)),
             fold_left (fun sorted e => insertScore e sorted) l acc ≡ₚ acc ++ l).
  { clear l. induction l as [| e l IH]; intros acc; cbn [fold_left].
    - rewrite app_nil_r. reflexivity.
    - rewrite IH, insertScore_perm. apply Permutation_middle. }
  rewrite H. reflexivity.
Qed.

Lemma insertScore_sorted (e : string * Q) (sorted : list (string * Q)) :
  StronglySorted (fun x y => (snd y <= snd x)%Q) sorted ->
  StronglySorted (fun x y => (snd y <= snd x)%Q) (insertScore e sorted).
Proof.
  induction sorted as [| x rest IH]; intros Hs; cbn [insertScore].
  - repeat constructor.
  - inversion Hs as [| ? ? Hrest Hall]; subst.
    destruct (Qle_bool (snd e) (snd x)) eqn:Hle.
    + apply Qle_bool_iff in Hle. constructor; [apply IH, Hrest |].
      apply List.Forall_forall. intros y Hy.
      apply list_elem_of_In in Hy. rewrite insertScore_perm in Hy.
      apply list_elem_of_In in Hy. destruct Hy as [<- | Hy]; [exact Hle |].
      rewrite List.Forall_forall in Hall. apply Hall, Hy.
    + assert (Hlt : (snd x < snd e)%Q).
      { apply Qnot_le_lt. intros H. apply Qle_bool_iff in H. congruence. }
      constructor; [exact Hs |]. constructor; [apply Qlt_le_weak, Hlt |].
      rewrite List.Forall_forall in Hall. apply List.Forall_forall. intros y Hy.
      apply Qle_trans with (snd x); [apply Hall, Hy | apply Qlt_le_weak, Hlt].
Qed.

Lemma sortByScore_sorted (l : list (string * Q)) :
  StronglySorted (fun x y => (snd y <= snd x)%Q) (sortByScore l).
Proof.
  unfold sortByScore.
  assert (H : forall (l acc : list (string * Q)),
             StronglySorted (fun x y => (snd y <= snd x)%Q) acc ->
             StronglySorted (fun x y => (snd y <= snd x)%Q)
               (fold_left (fun sorted e => insertScore e sorted) l acc)).
  { clear l. induction l as [| e l IH]; intros acc Hacc; cbn [fold_left]; [exact Hacc |].
    apply IH, insertScore_sorted, Hacc. }
  apply H. constructor.
Qed.

Lemma sorted_split {A : Type} (R : A -> A -> Prop) (l1 l2 : list A) :
  StronglySorted R (l1 ++ l2) ->
  StronglySorted R l1 /\ forall x y, In x l1 -> In y l2 -> R x y.
Proof.
  induction l1 as [| a l1 IH]; cbn [app]; intros Hs.
  - split; [constructor | intros x y []].
  - inversion Hs as [| ? ? Hrest Hall]; subst. destruct (IH Hrest) as [Hs1 Hcross].
    rewrite List.Forall_forall in Hall. split.
    + constructor; [exact Hs1 |]. apply List.Forall_forall. intros y Hy.
      apply Hall, in_app_iff. auto.
    + intros x y [<- | Hx] Hy; [apply Hall, in_app_iff; auto | apply Hcross; assumption].
Qed.

Lemma sorted_map {A B : Type} (R : A -> A -> Prop) (R' : B -> B -> Prop) (f : A -> B)
    (l : list A) :
  (forall x y, R x y -> R' (f x) (f y)) ->
  StronglySorted R l -> StronglySorted R' (List.map f l).
Proof.
  intros Hf. induction l as [| a l IH]; intros Hs; cbn [List.map]; [constructor |].
  inversion Hs as [| ? ? Hrest Hall]; subst. constructor; [apply IH, Hrest |].
  rewrite List.Forall_forall in Hall. apply List.Forall_forall. intros y Hy.
  apply in_map_iff in Hy as (x & <- & Hx). apply Hf, Hall, Hx.
Qed.

(** Property X24.  The bridges of [calculateRegionalMetrics]: at most five
    entries, with distinct ids, in descending order of score; each is a
    node whose region is not 'Unknown', with the score of that node (the
    number of its edges that lead to a node of another known region, times
    its importance, or times 1 when the importance is missing or 0) and its
    label, or its id when the label is empty.  When the node ids of the
    graph are distinct they are the top five: a node that is left out and
    whose region is not 'Unknown' scores no higher than any listed one. *)
Theorem bridges_spec :
  forall (g : KnowledgeGraph.t),
    let nodes := KnowledgeGraph.nodes g in
    let edges := KnowledgeGraph.edges g in
    let bs := RegionalAnalysisResult.bridges (calculateRegionalMetrics g) in
    (length bs <= 5)%nat
    /\ StronglySorted (fun b1 b2 => (Bridge.score b2 <= Bridge.score b1)%Q) bs
    /\ List.NoDup (List.map Bridge.id bs)
    /\ (forall b, In b bs ->
          Bridge.label b = labelOrId nodes (Bridge.id b)
          /\ exists n, In n nodes /\ nid n = Bridge.id b
                       /\ NodeData.region (GraphNode.data n) <> Some "Unknown"
                       /\ Bridge.score b = bridgeScore nodes edges n)
    /\ (List.NoDup (graphIds g) ->
        forall n, In n nodes ->
          NodeData.region (GraphNode.data n) <> Some "Unknown" ->
          (exists b, In b bs /\ Bridge.id b = nid n
                     /\ Bridge.score b = bridgeScore nodes edges n)
          \/ (length bs = 5%nat
              /\ forall b, In b bs -> (bridgeScore nodes edges n <= Bridge.score b)%Q)).
Proof.
  intros g nodes edges bs. subst bs. unfold calculateRegionalMetrics.
  cbn [RegionalAnalysisResult.bridges]. fold nodes edges.
  set (scores := bridgeScoresOf nodes edges).
  set (L := sortByScore (Object_entries scores)).
  set (mkB := fun kv : string * Q => Bridge.mk (fst kv) (labelOrId nodes (fst kv)) (snd kv)).
  destruct (bridgeScores_spec nodes edges) as (Hkeys & Horigin & Hcomplete).
  fold scores in Hkeys, Horigin, Hcomplete.
  assert (Hperm : L ≡ₚ scores).
  { unfold L. rewrite sortByScore_perm. apply Object_entries_perm. }
  assert (Hsplit : L = (take 5 L ++ drop 5 L)%list) by (symmetry; apply take_drop).
  pose proof (sortByScore_sorted (Object_entries scores)) as Hsorted. fold L in Hsorted.
  rewrite Hsplit in Hsorted. apply sorted_split in Hsorted as [Htop Hcross].
  assert (Hin : forall kv, In kv (take 5 L) -> In kv scores).
  { intros kv Hkv. apply (Permutation_in _ Hperm). rewrite Hsplit.
    apply in_app_iff. left. exact Hkv. }
  split; [| split; [| split; [| split]]].
  - rewrite List.length_map, length_take. lia.
  - apply (sorted_map (fun x y => (snd y <= snd x)%Q)); [| exact Htop].
    intros x y Hxy. exact Hxy.
  - rewrite List.map_map. cbn [mkB Bridge.id].
    assert (Hnd : List.NoDup (List.map fst L)).
    { apply NoDup_ListNoDup. rewrite (fmap_Permutation fst _ _ Hperm).
      apply NoDup_ListNoDup. exact Hkeys. }
    rewrite Hsplit, List.map_app in Hnd. apply List.NoDup_app_remove_r in Hnd. exact Hnd.
  - intros b Hb. apply in_map_iff in Hb as ([k v] & <- & Hkv). cbn [mkB Bridge.label Bridge.id
                                                                     Bridge.score fst snd].
    split; [reflexivity |]. apply Horigin, Hin, Hkv.
  - intros Hids n Hn Hregion.
    pose proof (Hcomplete Hids n Hn Hregion) as Hscore.
    apply (Permutation_in _ (Permutation_sym Hperm)) in Hscore.
    rewrite Hsplit in Hscore. apply in_app_iff in Hscore as [Htaken | Hleft].
    + left. exists (mkB (nid n, bridgeScore nodes edges n)).
      split; [apply in_map; exact Htaken | split; reflexivity].
    + right. split.
      * rewrite List.length_map, length_take.
        assert (Hlong : (5 < length L)%nat).
        { destruct (Nat.le_gt_cases (length L) 5) as [Hshort | Hlong]; [| exact Hlong].
          rewrite drop_ge in Hleft by exact Hshort. destruct Hleft. }
        lia.
      * intros b Hb. apply in_map_iff in Hb as (kv & <- & Hkv).
        cbn [mkB Bridge.score]. apply (Hcross kv _ Hkv Hleft).
Qed.

Lemma bridges_spec_witness :
  (exists b,
      In b (RegionalAnalysisResult.bridges (calculateRegionalMetrics regionalGraph))
      /\ Bridge.id b = "seyda"
      /\ Bridge.score b
         = bridgeScore (KnowledgeGraph.nodes regionalGraph)
             (KnowledgeGraph.edges regionalGraph)
             (regionNode "seyda" "Marian Seyda" (Some "Wielkopolska") None))
  \/ (length (RegionalAnalysisResult.bridges (calculateRegionalMetrics regionalGraph))
      = 5%nat
      /\ forall b,
          In b (RegionalAnalysisResult.bridges (calculateRegionalMetrics regionalGraph)) ->
          (bridgeScore (KnowledgeGraph.nodes regionalGraph)
             (KnowledgeGraph.edges regionalGraph)
             (regionNode "seyda" "Marian Seyda" (Some "Wielkopolska") None)
           <= Bridge.score b)%Q).
Proof.
  destruct (bridges_spec regionalGraph) as (_ & _ & _ & _ & Htop).
  apply (Htop ltac:(repeat constructor; cbn; intuition discriminate)
           (regionNode "seyda" "Marian Seyda" (Some "Wielkopolska") None)).
  - right. right. left. reflexivity.
  - discriminate.
Defined.

(** ** Semantic duplicate detection *)

Section SemanticDetection.

Local Open Scope R_scope.

Variable embedContent : nat -> string -> option (list R).

(** What the inner loop pushes for the pair [(d1, d2)]. *)
Lemma semantic_comparePair_elem (threshold : R) (E : gmap string (list R))
    (cs : list SemanticCandidate.t) (d1 d2 : NodeData.t) (c : SemanticCandidate.t) :
  In c (Semantic.comparePair threshold E cs d1 d2) ->
  In c cs
  \/ (SemanticCandidate.nodeA c = d1 /\ SemanticCandidate.nodeB c = d2
      /\ NodeData.type d1 = NodeData.type d2 /\ NodeData.id d1 <> NodeData.id d2
      /\ threshold <= SemanticCandidate.similarity c <= 1).
Proof.
  unfold Semantic.comparePair.
  destruct (bool_decide_reflect (NodeData.type d1 <> NodeData.type d2)) as [Hty | Hty];
    [auto |].
  destruct (String.eqb_spec (NodeData.id d1) (NodeData.id d2)) as [Hid | Hid]; [auto |].
  destruct (E !! NodeData.id d1) as [vec1 |]; [| auto].
  destruct (E !! NodeData.id d2) as [vec2 |]; [| auto].
  destruct (negb _ && negb _); [| auto].
  destruct (Rle_dec threshold (EmbeddingService.cosineSimilarity vec1 vec2)) as [Hth | Hth];
    [| auto].
  intros Hc. apply in_app_iff in Hc as [Hc | [<- | []]]; [auto |].
  right. cbn. repeat split; try assumption.
  - destruct (decide (NodeData.type d1 = NodeData.type d2)); [assumption | contradiction].
  - apply cosineSimilarity_range.
Qed.

Lemma semantic_scanInner_elem (threshold : R) (E : gmap string (list R))
    (d1 : NodeData.t) (rest : list GraphNode.t) :
  forall (cs : list SemanticCandidate.t) (c : SemanticCandidate.t),
    In c (fold_left
            (fun cs n2 => Semantic.comparePair threshold E cs d1 (GraphNode.data n2))
            rest cs) ->
    In c cs
    \/ exists j n2,
        rest !! j = Some n2
        /\ SemanticCandidate.nodeA c = d1 /\ SemanticCandidate.nodeB c = GraphNode.data n2
        /\ NodeData.type d1 = NodeData.type (GraphNode.data n2)
        /\ NodeData.id d1 <> NodeData.id (GraphNode.data n2)
        /\ threshold <= SemanticCandidate.similarity c <= 1.
Proof.
  induction rest as [| n rest IH]; intros cs c; cbn [fold_left]; [auto |].
  intros Hc. apply IH in Hc as [Hc | (j & n2 & Hj & H)].
  - apply semantic_comparePair_elem in Hc as [Hc | H]; [auto |].
    right. exists 0%nat, n. split; [reflexivity | exact H].
  - right. exists (S j), n2. split; [exact Hj | exact H].
Qed.

Lemma semantic_scanPairs_elem (threshold : R) (E : gmap string (list R))
    (nodes : list GraphNode.t) :
  forall (cs : list SemanticCandidate.t) (c : SemanticCandidate.t),
    In c (Semantic.scanPairs threshold E nodes cs) ->
    In c cs
    \/ exists i j n1 n2,
        (i < j)%nat /\ nodes !! i = Some n1 /\ nodes !! j = Some n2
        /\ SemanticCandidate.nodeA c = GraphNode.data n1
        /\ SemanticCandidate.nodeB c = GraphNode.data n2
        /\ NodeData.type (GraphNode.data n1) = NodeData.type (GraphNode.data n2)
        /\ nid n1 <> nid n2
        /\ threshold <= SemanticCandidate.similarity c <= 1.
Proof.
  induction nodes as [| n nodes IH]; intros cs c; cbn [Semantic.scanPairs]; [auto |].
  intros Hc. apply IH in Hc as [Hc | (i & j & n1 & n2 & Hij & Hi & Hj & H)].
  - apply semantic_scanInner_elem in Hc as [Hc | (j & n2 & Hj & H)]; [auto |].
    right. exists 0%nat, (S j), n, n2.
    split; [lia | split; [reflexivity | split; [exact Hj | exact H]]].
  - right. exists (S i), (S j), n1, n2.
    split; [lia | split; [exact Hi | split; [exact Hj | exact H]]].
Qed.

Lemma semantic_insertDesc_perm (c : SemanticCandidate.t) (sorted : list SemanticCandidate.t) :
  Semantic.insertDesc c sorted ≡ₚ c :: sorted.
Proof.
  induction sorted as [| x rest IH]; cbn [Semantic.insertDesc]; [reflexivity |].
  destruct (Rle_dec _ _); [| reflexivity].
  rewrite IH. apply Permutation_swap.
Qed.

Lemma semantic_sortDesc_perm (cs : list SemanticCandidate.t) : Semantic.sortDesc cs ≡ₚ cs.
Proof.
  unfold Semantic.sortDesc.
  assert (H : forall (l acc : list SemanticCandidate.t),
             fold_left (fun sorted c => Semantic.insertDesc c sorted) l acc ≡ₚ acc ++ l).
  { induction l as [| e l IH]; intros acc; cbn [fold_left].
    - rewrite app_nil_r. reflexivity.
    - rewrite IH, semantic_insertDesc_perm. apply Permutation_middle. }
  rewrite H. reflexivity.
Qed.

Lemma semantic_insertDesc_sorted (c : SemanticCandidate.t)
    (sorted : list SemanticCandidate.t) :
  StronglySorted
    (fun x y => SemanticCandidate.similarity y <= SemanticCandidate.similarity x) sorted ->
  StronglySorted
    (fun x y => SemanticCandidate.similarity y <= SemanticCandidate.similarity x)
    (Semantic.insertDesc c sorted).
Proof.
  induction sorted as [| x rest IH]; intros Hs; cbn [Semantic.insertDesc].
  - repeat constructor.
  - inversion Hs as [| ? ? Hrest Hall]; subst.
    destruct (Rle_dec (SemanticCandidate.similarity c) (SemanticCandidate.similarity x))
      as [Hle | Hgt].
    + constructor; [apply IH, Hrest |].
      apply List.Forall_forall. intros y Hy.
      apply (Permutation_in _ (semantic_insertDesc_perm c rest)) in Hy.
      destruct Hy as [<- | Hy]; [exact Hle |].
      rewrite List.Forall_forall in Hall. apply Hall, Hy.
    + constructor; [exact Hs |]. constructor; [Lra.lra |].
      rewrite List.Forall_forall in Hall. apply List.Forall_forall. intros y Hy.
      specialize (Hall y Hy). cbn in Hall. Lra.lra.
Qed.

Lemma semantic_sortDesc_sorted (cs : list SemanticCandidate.t) :
  StronglySorted
    (fun x y => SemanticCandidate.similarity y <= SemanticCandidate.similarity x)
    (Semantic.sortDesc cs).
Proof.
  unfold Semantic.sortDesc.
  assert (H : forall (l acc : list SemanticCandidate.t),
             StronglySorted
               (fun x y => SemanticCandidate.similarity y <= SemanticCandidate.similarity x)
               acc ->
             StronglySorted
               (fun x y => SemanticCandidate.similarity y <= SemanticCandidate.similarity x)
               (fold_left (fun sorted c => Semantic.insertDesc c sorted) l acc)).
  { induction l as [| e l IH]; intros acc Hacc; cbn [fold_left]; [exact Hacc |].
    apply IH, semantic_insertDesc_sorted, Hacc. }
  apply H. constructor.
Qed.

(** One call of [getEmbedding]: at most one request, and the cache only
    grows. *)
Lemma getEmbedding_session (text : string) (s : EmbeddingService.session) :
  let s' := snd (EmbeddingService.getEmbedding embedContent text s) in
  (EmbeddingService.requests s <= EmbeddingService.requests s'
   <= S (EmbeddingService.requests s))%nat
  /\ forall t v, EmbeddingService.embeddingsCache s !! t = Some v ->
                 EmbeddingService.embeddingsCache s' !! t = Some v.
Proof.
  unfold EmbeddingService.getEmbedding.
  destruct (String.eqb text ""); [cbn; split; [lia | auto] |].
  destruct (EmbeddingService.embeddingsCache s !! text) as [cached |] eqn:Hc;
    [cbn; split; [lia | auto] |].
  destruct (embedContent (EmbeddingService.requests s) text) as [embedding |];
    cbn; (split; [lia |]); [| auto].
  intros t v Ht. rewrite lookup_insert_ne; [exact Ht | congruence].
Qed.

Lemma embedNodes_session (nodes : list GraphNode.t) :
  forall (acc : gmap string (list R) * EmbeddingService.session),
    let r := fold_left (Semantic.embedNode embedContent) nodes acc in
    (EmbeddingService.requests (snd acc) <= EmbeddingService.requests (snd r)
     <= EmbeddingService.requests (snd acc) + length nodes)%nat
    /\ forall t v, EmbeddingService.embeddingsCache (snd acc) !! t = Some v ->
                   EmbeddingService.embeddingsCache (snd r) !! t = Some v.
Proof.
  induction nodes as [| n nodes IH]; intros acc; cbn [fold_left length].
  - split; [lia | auto].
  - destruct (IH (Semantic.embedNode embedContent acc n)) as [Hreq Hcache].
    destruct (getEmbedding_session
                (Semantic.embeddingText (GraphNode.data n)) (snd acc)) as [Hreq1 Hcache1].
    unfold Semantic.embedNode in *. cbn [snd] in *. split; [lia |].
    intros t v Ht. apply Hcache, Hcache1, Ht.
Qed.

End SemanticDetection.

(** Property X25.  The candidates of the semantic duplicate detector come
    in descending order of similarity; each pairs a node with a later node
    of the list, both among the first 30, of the same type and with
    different ids, and its similarity is at least the threshold and at
    most 1 -- whatever the embedding model answers. *)
Theorem detectDuplicatesSemantic_result :
  forall (embedContent : nat -> string -> option (list R)) (g : KnowledgeGraph.t)
         (threshold : R) (s : EmbeddingService.session),
    let cs := fst (Semantic.detectDuplicatesSemantic embedContent g threshold s) in
    StronglySorted
      (fun c1 c2 => (SemanticCandidate.similarity c2 <= SemanticCandidate.similarity c1)%R)
      cs
    /\ Forall
         (fun c =>
            (threshold <= SemanticCandidate.similarity c <= 1)%R
            /\ exists i j n1 n2,
                (i < j < 30)%nat
                /\ KnowledgeGraph.nodes g !! i = Some n1
                /\ KnowledgeGraph.nodes g !! j = Some n2
                /\ SemanticCandidate.nodeA c = GraphNode.data n1
                /\ SemanticCandidate.nodeB c = GraphNode.data n2
                /\ NodeData.type (GraphNode.data n1) = NodeData.type (GraphNode.data n2)
                /\ nid n1 <> nid n2)
         cs.
Proof.
  intros embedContent g threshold s cs. subst cs.
  unfold Semantic.detectDuplicatesSemantic. cbn [fst].
  split; [apply semantic_sortDesc_sorted |].
  apply List.Forall_forall. intros c Hc.
  apply (Permutation_in _ (semantic_sortDesc_perm _)) in Hc.
  apply semantic_scanPairs_elem in Hc
    as [[] | (i & j & n1 & n2 & Hij & Hi & Hj & Ha & Hb & Hty & Hid & Hsim)].
  unfold Semantic.nodesToCheck in Hi, Hj.
  apply lookup_take_Some in Hi as [Hi Hi30]. apply lookup_take_Some in Hj as [Hj Hj30].
  split; [exact Hsim |]. exists i, j, n1, n2. repeat split; try assumption; lia.
Qed.

(** Property X26.  One run of the semantic duplicate detector sends at
    most 30 requests to the embedding model, and never more than the graph
    has nodes; nothing that was in the cache before the run is lost or
    changed by it. *)
Theorem detectDuplicatesSemantic_session :
  forall (embedContent : nat -> string -> option (list R)) (g : KnowledgeGraph.t)
         (threshold : R) (s : EmbeddingService.session),
    let s' := snd (Semantic.detectDuplicatesSemantic embedContent g threshold s) in
    (EmbeddingService.requests s <= EmbeddingService.requests s'
     <= EmbeddingService.requests s + Nat.min 30 (length (KnowledgeGraph.nodes g)))%nat
    /\ forall t v, EmbeddingService.embeddingsCache s !! t = Some v ->
                   EmbeddingService.embeddingsCache s' !! t = Some v.
Proof.
  intros embedContent g threshold s s'. subst s'.
  unfold Semantic.detectDuplicatesSemantic. cbn [snd].
  destruct (embedNodes_session embedContent (Semantic.nodesToCheck g) (∅, s))
    as [Hreq Hcache].
  cbn [snd] in Hreq, Hcache. unfold Semantic.nodesToCheck in Hreq at 3.
  rewrite length_take in Hreq. split; [exact Hreq | exact Hcache].
Qed.

Lemma detectDuplicatesSemantic_session_witness :
  let s := EmbeddingService.mkSession {[ "Liga Narodowa: " := [1%R] ]} 3 in
  EmbeddingService.embeddingsCache
    (snd (Semantic.detectDuplicatesSemantic (fun _ _ => None) duplicatedGraph 1 s))
    !! "Liga Narodowa: " = Some [1%R].
Proof.
  apply (proj2 (detectDuplicatesSemantic_session (fun _ _ => None) duplicatedGraph 1
                  (EmbeddingService.mkSession {[ "Liga Narodowa: " := [1%R] ]} 3))).
  vm_compute. reflexivity.
Defined.

(** Property X27.  [getEmbedding] serves a non-empty answer from the
    cache the next time: a second call with the same text returns the same
    vector and sends no request. *)
Theorem getEmbedding_cached :
  forall (embedContent : nat -> string -> option (list R)) (text : string)
         (s : EmbeddingService.session),
    let r := EmbeddingService.getEmbedding embedContent text s in
    fst r <> [] ->
    EmbeddingService.getEmbedding embedContent text (snd r) = (fst r, snd r).
Proof.
  intros embedContent text s r Hne. subst r.
  unfold EmbeddingService.getEmbedding in *.
  destruct (String.eqb text "") eqn:Htext; [contradiction |].
  destruct (EmbeddingService.embeddingsCache s !! text) as [cached |] eqn:Hc.
  - cbn [fst snd]. rewrite Hc. reflexivity.
  - destruct (embedContent (EmbeddingService.requests s) text) as [embedding |];
      [| contradiction].
    cbn [fst snd EmbeddingService.embeddingsCache]. rewrite lookup_insert_eq.
    reflexivity.
Qed.

Lemma getEmbedding_cached_witness :
  let embedContent := fun (_ : nat) (_ : string) => Some [1%R] in
  let s := EmbeddingService.mkSession ∅ 0 in
  let r := EmbeddingService.getEmbedding embedContent "Roman Dmowski: " s in
  EmbeddingService.getEmbedding embedContent "Roman Dmowski: " (snd r) = (fst r, snd r).
Proof.
  apply (getEmbedding_cached (fun _ _ => Some [1%R]) "Roman Dmowski: "
           (EmbeddingService.mkSession ∅ 0)).
  discriminate.
Defined.

(** ** The two lexical duplicate detectors agree *)

Section DetectorsAgree.

Local Open Scope Q_scope.

Variable threshold : Q.
Hypothesis threshold_pos : 0 < threshold.

Lemma stringSimilarity_value (l1 l2 : string) :
  (0 < Nat.max (String.length l1) (String.length l2))%nat ->
  exists q, LegacyDuplicates.stringSimilarity l1 l2 = Num q
            /\ q == GraphService.lexicalSimilarity l1 l2.
Proof.
  intros Hpos. unfold LegacyDuplicates.stringSimilarity, GraphService.lexicalSimilarity.
  assert (Hlen : String.length (if (String.length l2 <? String.length l1)%nat
                                then l1 else l2)
                 = Nat.max (String.length l1) (String.length l2)).
  { destruct (Nat.ltb_spec (String.length l2) (String.length l1)); lia. }
  rewrite Hlen. set (k := Nat.max (String.length l1) (String.length l2)) in *.
  rewrite ndiv_of_nat by exact Hpos.
  destruct (Nat.ltb_spec 0 k) as [_ | Hno]; [| lia].
  eexists. split; [reflexivity |].
  field. pose proof (inject_nat_pos k Hpos). Lqa.lra.
Qed.

Lemma stringSimilarity_empty (l1 l2 : string) :
  Nat.max (String.length l1) (String.length l2) = 0%nat ->
  LegacyDuplicates.stringSimilarity l1 l2 = NaN
  /\ GraphService.lexicalSimilarity l1 l2 = 0.
Proof.
  intros Hz. unfold LegacyDuplicates.stringSimilarity, GraphService.lexicalSimilarity.
  assert (Hlen : String.length (if (String.length l2 <? String.length l1)%nat
                                then l1 else l2) = 0%nat).
  { destruct (Nat.ltb_spec (String.length l2) (String.length l1)); lia. }
  rewrite Hlen, Hz. split; reflexivity.
Qed.

Lemma Qle_bool_compat (q r : Q) : q == r -> Qle_bool threshold q = Qle_bool threshold r.
Proof.
  intros Heq. destruct (Qle_bool threshold r) eqn:Hr.
  - apply Qle_bool_iff. apply Qle_bool_iff in Hr. rewrite Heq. exact Hr.
  - destruct (Qle_bool threshold q) eqn:Hq; [| reflexivity].
    apply Qle_bool_iff in Hq. rewrite Heq in Hq. apply Qle_bool_iff in Hq. congruence.
Qed.

Lemma comparePair_agree (cs1 cs2 : list DuplicateCandidate.t) (d1 d2 : NodeData.t) :
  Forall2 sameCandidate cs1 cs2 ->
  Forall2 sameCandidate
    (LegacyDuplicates.comparePair threshold cs1 d1 d2)
    (GraphService.comparePair threshold cs2 d1 d2).
Proof.
  intros Hcs. unfold LegacyDuplicates.comparePair, GraphService.comparePair.
  destruct (bool_decide (NodeData.type d1 <> NodeData.type d2)); [exact Hcs |].
  destruct (Nat.eq_dec (Nat.max (String.length (NodeData.label d1))
                          (String.length (NodeData.label d2))) 0%nat) as [Hz | Hnz].
  - destruct (stringSimilarity_empty _ _ Hz) as [-> ->].
    assert (Hno : Qle_bool threshold 0 = false).
    { destruct (Qle_bool threshold 0) eqn:H; [| reflexivity].
      apply Qle_bool_iff in H. Lqa.lra. }
    rewrite Hno. exact Hcs.
  - destruct (stringSimilarity_value (NodeData.label d1) (NodeData.label d2) ltac:(lia))
      as (q & -> & Hq).
    rewrite (Qle_bool_compat _ _ Hq).
    destruct (Qle_bool threshold _); [| exact Hcs].
    apply Forall2_app; [exact Hcs |]. constructor; [| constructor].
    repeat split; [exact Hq].
Qed.

Lemma scanPairs_agree (nodes : list GraphNode.t) :
  forall cs1 cs2,
    Forall2 sameCandidate cs1 cs2 ->
    Forall2 sameCandidate
      (LegacyDuplicates.scanPairs threshold nodes cs1)
      (GraphService.scanPairs threshold nodes cs2).
Proof.
  induction nodes as [| n nodes IH]; intros cs1 cs2 Hcs;
    cbn [LegacyDuplicates.scanPairs GraphService.scanPairs]; [exact Hcs |].
  apply IH. clear IH. revert cs1 cs2 Hcs.
  induction nodes as [| m nodes IH]; intros cs1 cs2 Hcs; cbn [fold_left]; [exact Hcs |].
  apply IH, comparePair_agree, Hcs.
Qed.

Lemma insertDesc_agree (c1 c2 : DuplicateCandidate.t) (s1 s2 : list DuplicateCandidate.t) :
  sameCandidate c1 c2 -> Forall2 sameCandidate s1 s2 ->
  Forall2 sameCandidate (GraphService.insertDesc c1 s1) (GraphService.insertDesc c2 s2).
Proof.
  intros Hc Hs. induction Hs as [| x1 x2 r1 r2 Hx Hr IH]; cbn [GraphService.insertDesc].
  - constructor; [exact Hc | constructor].
  - pose proof Hc as (_ & _ & Hsim). pose proof Hx as (_ & _ & Hxsim).
    assert (Hsame : Qle_bool (DuplicateCandidate.similarity c1)
                      (DuplicateCandidate.similarity x1)
                    = Qle_bool (DuplicateCandidate.similarity c2)
                        (DuplicateCandidate.similarity x2)).
    { destruct (Qle_bool (DuplicateCandidate.similarity c2)
                  (DuplicateCandidate.similarity x2)) eqn:H2.
      - apply Qle_bool_iff. apply Qle_bool_iff in H2. rewrite Hsim, Hxsim. exact H2.
      - destruct (Qle_bool (DuplicateCandidate.similarity c1)
                    (DuplicateCandidate.similarity x1)) eqn:H1; [| reflexivity].
        apply Qle_bool_iff in H1. rewrite Hsim, Hxsim in H1.
        apply Qle_bool_iff in H1. congruence. }
    rewrite Hsame. clear Hsame.
    destruct (Qle_bool (DuplicateCandidate.similarity c2)
                (DuplicateCandidate.similarity x2)).
    + constructor; [exact Hx | exact IH].
    + constructor; [exact Hc |]. constructor; [exact Hx | exact Hr].
Qed.

End DetectorsAgree.

Lemma sortDesc_agree (cs1 cs2 : list DuplicateCandidate.t) :
  Forall2 sameCandidate cs1 cs2 ->
  Forall2 sameCandidate (GraphService.sortDesc cs1) (GraphService.sortDesc cs2).
Proof.
  unfold GraphService.sortDesc. intros Hcs.
  assert (H : forall acc1 acc2,
             Forall2 sameCandidate acc1 acc2 ->
             Forall2 sameCandidate
               (fold_left (fun sorted c => GraphService.insertDesc c sorted) cs1 acc1)
               (fold_left (fun sorted c => GraphService.insertDesc c sorted) cs2 acc2)).
  { induction Hcs as [| c1 c2 r1 r2 Hc Hr IH]; intros acc1 acc2 Hacc; cbn [fold_left];
      [exact Hacc |].
    apply IH, insertDesc_agree; assumption. }
  apply H. constructor.
Qed.

(** Property X28.  For a positive threshold the string-based detector of
    the hand-written module and the lexical detector of the
    cytoscape-backed module return the same candidates in the same order,
    with similarities that denote the same numbers.  (At a threshold of 0
    or below they differ on pairs of nodes whose labels are both empty:
    there the first computes 0/0 and stays silent.) *)
Theorem detectDuplicates_agree :
  forall (g : KnowledgeGraph.t) (threshold : Q),
    (0 < threshold)%Q ->
    Forall2 sameCandidate
      (LegacyDuplicates.detectDuplicates g threshold)
      (GraphService.detectDuplicates g threshold).
Proof.
  intros g threshold Hpos.
  unfold LegacyDuplicates.detectDuplicates, GraphService.detectDuplicates.
  apply sortDesc_agree, scanPairs_agree; [exact Hpos | constructor].
Qed.

Lemma detectDuplicates_agree_witness :
  Forall2 sameCandidate
    (LegacyDuplicates.detectDuplicates duplicatedGraph LegacyDuplicates.defaultThreshold)
    (GraphService.detectDuplicates duplicatedGraph LegacyDuplicates.defaultThreshold).
Proof.
  apply (detectDuplicates_agree duplicatedGraph LegacyDuplicates.defaultThreshold).
  reflexivity.
Defined.

(** With threshold 0 the two detectors part on a pair of empty labels. *)
Lemma detectDuplicates_differ_at_zero :
  LegacyDuplicates.detectDuplicates unlabelledGraph 0 = []
  /\ length (GraphService.detectDuplicates unlabelledGraph 0) = 1%nat.
Proof. split; reflexivity. Qed.

(** ** The store: adding nodes and edges *)

Section Adding.

Variable enrich : KnowledgeGraph.t -> option KnowledgeGraph.t.

Hypothesis enrich_nodes : forall g g',
    enrich g = Some g' ->
    List.map nodeFrame (KnowledgeGraph.nodes g')
    = List.map nodeFrame (KnowledgeGraph.nodes g).

Hypothesis enrich_edges : forall g g',
    enrich g = Some g' ->
    List.map edgeFrame (KnowledgeGraph.edges g')
    = List.map edgeFrame (KnowledgeGraph.edges g).

Variable parseInt : string -> option Z.
Variable edgeId : nat -> string.

Lemma imap_endpoints (raws : list Store.rawEdge) :
  forall (f : nat -> nat),
    List.map (fun e => (esrc e, etgt e))
      (imap (fun k => Store.normalizeEdge edgeId (f k)) raws)
    = List.map (fun e => (Store.rawSource e, Store.rawTarget e)) raws.
Proof.
  induction raws as [| e raws IH]; intros f; [reflexivity |].
  cbn [imap List.map]. f_equal. apply (IH (fun k => f (S k))).
Qed.

Lemma frames_endpoints (es es' : list GraphEdge.t) :
  List.map edgeFrame es' = List.map edgeFrame es ->
  List.map (fun e => (esrc e, etgt e)) es' = List.map (fun e => (esrc e, etgt e)) es.
Proof.
  revert es'. induction es as [| e es IH]; intros [| e' es']; cbn [List.map];
    try discriminate; [reflexivity |].
  intros H.
  assert (He : edgeFrame e' = edgeFrame e) by congruence.
  assert (Hes : List.map edgeFrame es' = List.map edgeFrame es) by congruence.
  apply edgeFrame_endpoints in He as (_ & -> & ->). f_equal. apply IH, Hes.
Qed.

Lemma filtered_NoDup {A : Type} (f : A -> string) (p : A -> bool) (l : list A) :
  List.NoDup (List.map f l) -> List.NoDup (List.map f (List.filter p l)).
Proof.
  induction l as [| a l IH]; intros Hnd; [constructor |].
  cbn [List.map] in Hnd. inversion Hnd as [| ? ? Ha Hrest]; subst.
  cbn [List.filter]. destruct (p a); [| apply IH, Hrest].
  cbn [List.map]. constructor; [| apply IH, Hrest].
  intros Hin. apply Ha. apply in_map_iff in Hin as (m & Hm & Hin).
  apply filter_In in Hin as [Hin _]. rewrite <- Hm. apply in_map. exact Hin.
Qed.

Lemma addNodesAndEdges_generic (newNodesRaw : list Store.rawNode)
    (newEdgesRaw : list Store.rawEdge) (st st' : Store.state) :
  Store.addNodesAndEdges enrich parseInt edgeId newNodesRaw newEdgesRaw st = Some st' ->
  Store.filteredGraph st' = Store.graph st'
  /\ extendedBy newNodesRaw newEdgesRaw (Store.graph st) (Store.graph st').
Proof.
  unfold Store.addNodesAndEdges.
  destruct (enrich _) as [enriched |] eqn:Henriched; [| discriminate].
  intros [= <-]. cbn [Store.graph Store.filteredGraph]. split; [reflexivity |].
  unfold extendedBy. cbn zeta.
  set (g := Store.graph st) in *.
  set (added := List.filter
                  (fun n => negb (Store.idsInclude (graphIds g) (Store.rawId n)))
                  newNodesRaw).
  set (x := Store.extendedGraph parseInt edgeId newNodesRaw newEdgesRaw g) in *.
  assert (Hids : graphIds x = (graphIds g ++ List.map Store.rawId added)%list).
  { unfold graphIds, x, Store.extendedGraph. cbn [KnowledgeGraph.nodes].
    rewrite List.map_app, List.map_map. reflexivity. }
  assert (Hends : List.map (fun e => (esrc e, etgt e)) (KnowledgeGraph.edges x)
                  = (List.map (fun e => (esrc e, etgt e)) (KnowledgeGraph.edges g)
                     ++ List.map (fun e => (Store.rawSource e, Store.rawTarget e))
                          newEdgesRaw)%list).
  { unfold x, Store.extendedGraph. cbn [KnowledgeGraph.edges].
    rewrite List.map_app. f_equal. apply (imap_endpoints newEdgesRaw (fun k => k)). }
  assert (Hadded : forall u, In u (List.map Store.rawId added)
                             <-> In u (List.map Store.rawId newNodesRaw)
                                 /\ ~ In u (graphIds g)).
  { intros u. unfold added. rewrite !in_map_iff. split.
    - intros (n & <- & Hn). apply filter_In in Hn as [Hn Hnew]. split; [eauto |].
      intros Hin. apply idsInclude_In in Hin. rewrite Hin in Hnew. discriminate.
    - intros [(n & <- & Hn) Hnew]. exists n. split; [reflexivity |].
      apply filter_In. split; [exact Hn |].
      destruct (Store.idsInclude (graphIds g) (Store.rawId n)) eqn:Hinc; [| reflexivity].
      apply idsInclude_In in Hinc. contradiction. }
  split; [| split; [| split; [| split]]].
  - rewrite (enrich_ids enrich enrich_nodes _ _ Henriched). exact Hids.
  - rewrite <- List.firstn_map, (enrich_nodes _ _ Henriched). unfold x, Store.extendedGraph.
    cbn [KnowledgeGraph.nodes]. rewrite List.map_app, List.firstn_app.
    rewrite List.length_map, Nat.sub_diag. cbn [List.firstn].
    rewrite app_nil_r, <- (List.length_map nodeFrame), List.firstn_all. reflexivity.
  - rewrite (frames_endpoints _ _ (enrich_edges x _ Henriched)). exact Hends.
  - intros Hold Hnew. rewrite (enrich_ids enrich enrich_nodes _ _ Henriched), Hids.
    apply List.NoDup_app; [exact Hold | |].
    + apply filtered_NoDup. exact Hnew.
    + intros u Hu Hu'. apply Hadded in Hu' as [_ Hu']. contradiction.
  - intros Hg Hraw.
    apply (enrich_keeps_references enrich enrich_nodes enrich_edges _ _ Henriched).
    assert (Hknown : forall u,
               In u (graphIds g) \/ In u (List.map Store.rawId newNodesRaw) ->
               In u (graphIds x)).
    { intros u Hu. rewrite Hids. apply in_app_iff.
      destruct (in_dec string_dec u (graphIds g)) as [Hin | Hout]; [auto |].
      right. apply Hadded. destruct Hu as [Hu | Hu]; [contradiction | auto]. }
    intros e He.
    assert (Hpair : In (esrc e, etgt e)
                      (List.map (fun e => (esrc e, etgt e)) (KnowledgeGraph.edges x)))
      by (apply (in_map (fun e => (esrc e, etgt e))); exact He).
    rewrite Hends in Hpair. apply in_app_iff in Hpair as [Hpair | Hpair].
    + apply in_map_iff in Hpair as (e0 & [= <- <-] & He0).
      destruct (Hg e0 He0). split; apply Hknown; auto.
    + apply in_map_iff in Hpair as (r & [= <- <-] & Hr).
      destruct (Hraw r Hr). split; apply Hknown; assumption.
Qed.

End Adding.

(** Property X29.  [addNodesAndEdges].  With the hand-written analytics
    module doing the enrichment the action returns, and then: the nodes
    already in the graph stay, in place and with their data; of the raw
    nodes exactly those whose id is not yet in the graph are appended, in
    order; every raw edge is appended after the old edges with the
    endpoints it names; both graph slots hold the same graph.  If the old
    ids are distinct and the raw ids are distinct, so are the new ids; and
    if the old edges joined nodes and every raw edge names old or raw
    nodes, the new edges join nodes too.  With the cytoscape-backed
    module, which is the one the store imports, the same holds whenever
    the action returns; but the action throws as soon as the extended
    graph has a node, and the store keeps the graph it had. *)
Theorem addNodesAndEdges_spec :
  forall library (random : Q)
         (parseInt : string -> option Z) (edgeId : nat -> string)
         (newNodesRaw : list Store.rawNode) (newEdgesRaw : list Store.rawEdge)
         (st : Store.state),
    (exists st',
        Store.addNodesAndEdges (returning (Part005.enrichGraphWithMetrics random))
          parseInt edgeId newNodesRaw newEdgesRaw st = Some st'
        /\ Store.filteredGraph st' = Store.graph st'
        /\ extendedBy newNodesRaw newEdgesRaw (Store.graph st) (Store.graph st'))
    /\ (forall st',
           Store.addNodesAndEdges (GraphService.enrichGraphWithMetrics library random)
             parseInt edgeId newNodesRaw newEdgesRaw st = Some st' ->
           Store.filteredGraph st' = Store.graph st'
           /\ extendedBy newNodesRaw newEdgesRaw (Store.graph st) (Store.graph st'))
    /\ (KnowledgeGraph.nodes
          (Store.extendedGraph parseInt edgeId newNodesRaw newEdgesRaw (Store.graph st))
        <> [] ->
        Store.addNodesAndEdges (GraphService.enrichGraphWithMetrics library random)
          parseInt edgeId newNodesRaw newEdgesRaw st = None).
Proof.
  intros library random parseInt edgeId newNodesRaw newEdgesRaw st. split; [| split].
  - destruct (enrichment_frames library random _ (or_introl eq_refl)) as [Hn He].
    eexists. split; [reflexivity |].
    apply (addNodesAndEdges_generic _ Hn He parseInt edgeId). reflexivity.
  - intros st' Hst'.
    destruct (enrichment_frames library random _ (or_intror eq_refl)) as [Hn He].
    apply (addNodesAndEdges_generic _ Hn He parseInt edgeId _ _ _ _ Hst').
  - intros Hnodes. unfold Store.addNodesAndEdges.
    rewrite GraphService_enrich_throws by exact Hnodes. reflexivity.
Qed.

(** The store with the module it imports, holding [duplicatedGraph]:
    adding a node and an edge throws. *)
Lemma addNodesAndEdges_spec_witness :
  Store.addNodesAndEdges (GraphService.enrichGraphWithMetrics (constantLibrary (Num 0)) 0)
    (fun _ => Some 1858%Z) (fun _ => "edge_1")
    [Store.mkRawNode "liga" "Liga Narodowa" Organization None None None None;
     Store.mkRawNode "balicki" "Zygmunt Balicki" Person (Some "1858-1916")
       None None (Some "Galicja")]
    [Store.mkRawEdge "balicki" "liga" (Some "founded") "" None]
    (Store.mk duplicatedGraph duplicatedGraph)
  = None.
Proof.
  apply (proj2 (proj2 (addNodesAndEdges_spec (constantLibrary (Num 0)) 0
                         (fun _ => Some 1858%Z) (fun _ => "edge_1")
                         [Store.mkRawNode "liga" "Liga Narodowa" Organization
                            None None None None;
                          Store.mkRawNode "balicki" "Zygmunt Balicki" Person
                            (Some "1858-1916") None None (Some "Galicja")]
                         [Store.mkRawEdge "balicki" "liga" (Some "founded") "" None]
                         (Store.mk duplicatedGraph duplicatedGraph)))).
  discriminate.
Defined.

(** With the hand-written module the new node joins the three old ones;
    the raw node whose id is taken is left out. *)
Example addNodesAndEdges_duplicatedGraph :
  exists st',
    Store.addNodesAndEdges (returning (Part005.enrichGraphWithMetrics 0))
      (fun _ => Some 1858%Z) (fun _ => "edge_1")
      [Store.mkRawNode "liga" "Liga Narodowa" Organization None None None None;
       Store.mkRawNode "balicki" "Zygmunt Balicki" Person (Some "1858-1916")
         None None (Some "Galicja")]
      [Store.mkRawEdge "balicki" "liga" (Some "founded") "" None]
      (Store.mk duplicatedGraph duplicatedGraph)
    = Some st'
    /\ graphIds (Store.graph st') = ["dmowski"; "dmowski2"; "liga"; "balicki"].
Proof. eexists. split; reflexivity. Qed.

(** ** The sign heuristic of the edge metrics *)

Lemma append_cons (c : ascii) (a b : string) : String c a ++ b = String c (a ++ b).
Proof. reflexivity. Qed.

Lemma append_empty (b : string) : "" ++ b = b.
Proof. reflexivity. Qed.

Lemma prefix_append (kw text : string) :
  String.prefix kw text = true <-> exists post, text = kw ++ post.
Proof.
  revert text. induction kw as [| c kw IH]; intros text.
  - split; [intros _; exists text; reflexivity | intros _; destruct text; reflexivity].
  - destruct text as [| d text]; cbn [String.prefix].
    + split; [discriminate | intros (post & Hpost); discriminate Hpost].
    + destruct (Ascii.ascii_dec c d) as [Hcd | Hne].
      * subst d. rewrite IH. split.
        -- intros (post & Hpost). exists post. rewrite append_cons, Hpost. reflexivity.
        -- intros (post & Hpost). exists post. rewrite append_cons in Hpost.
           injection Hpost as Hpost. exact Hpost.
      * split; [discriminate |]. intros (post & Hpost). rewrite append_cons in Hpost.
        injection Hpost as Hc _. exfalso. apply Hne. symmetry. exact Hc.
Qed.

Lemma includes_substring (text kw : string) :
  includes text kw = true <-> exists pre post, text = pre ++ kw ++ post.
Proof.
  split.
  - induction text as [| c text IH]; cbn [includes]; intros H;
      apply orb_true_iff in H as [H | H].
    + apply prefix_append in H as (post & ->). exists "", post. reflexivity.
    + discriminate.
    + apply prefix_append in H as (post & ->). exists "", post. reflexivity.
    + destruct (IH H) as (pre & post & ->). exists (String c pre), post. reflexivity.
  - intros (pre & post & ->). induction pre as [| c pre IH].
    + rewrite append_empty. destruct (kw ++ post) eqn:Heq; cbn [includes];
        apply orb_true_iff; left; apply prefix_append; exists post; auto.
    + rewrite append_cons. cbn [includes]. rewrite IH. apply orb_true_r.
Qed.

Lemma toLowerCase_append (a b : string) :
  toLowerCase (a ++ b) = toLowerCase a ++ toLowerCase b.
Proof.
  induction a as [| c a IH]; [reflexivity |].
  rewrite append_cons. cbn [toLowerCase]. rewrite IH, append_cons. reflexivity.
Qed.

Lemma lower_ascii_idempotent (c : ascii) : lower_ascii (lower_ascii c) = lower_ascii c.
Proof. destruct c as [[] [] [] [] [] [] [] []]; reflexivity. Qed.

Lemma toLowerCase_idempotent (s : string) : toLowerCase (toLowerCase s) = toLowerCase s.
Proof.
  induction s as [| c s IH]; cbn [toLowerCase]; [reflexivity |].
  rewrite lower_ascii_idempotent, IH. reflexivity.
Qed.

Lemma append_assoc (a b c : string) : (a ++ b) ++ c = a ++ b ++ c.
Proof.
  induction a as [| x a IH]; [reflexivity |]. rewrite !append_cons, IH. reflexivity.
Qed.

Lemma isNegative_substring (lbl : string) :
  isNegative lbl = true
  <-> exists kw pre post, In kw negativeKeywords /\ toLowerCase lbl = pre ++ kw ++ post.
Proof.
  unfold isNegative. rewrite existsb_exists. split.
  - intros (kw & Hkw & Hinc). apply includes_substring in Hinc as (pre & post & H).
    exists kw, pre, post. auto.
  - intros (kw & pre & post & Hkw & H). exists kw. split; [exact Hkw |].
    apply includes_substring. eauto.
Qed.

(** Property X30.  The sign that [processEdgeMetrics] gives an edge
    without one is read off the label by substring search, whatever the
    case of its ASCII letters: it is negative exactly when the lower-cased
    label contains one of the keywords somewhere, also inside a word;
    changing the case leaves it as it is; and a label that contains a
    negatively read label is read as negative. *)
Theorem heuristicSign_spec :
  forall lbl : string,
    (heuristicSign lbl = negative
     <-> exists kw pre post,
         In kw negativeKeywords /\ toLowerCase lbl = pre ++ kw ++ post)
    /\ heuristicSign (toLowerCase lbl) = heuristicSign lbl
    /\ forall pre post,
         heuristicSign lbl = negative -> heuristicSign (pre ++ lbl ++ post) = negative.
Proof.
  intros lbl.
  assert (Hneg : forall l, heuristicSign l = negative <-> isNegative l = true).
  { intros l. unfold heuristicSign. destruct (isNegative l); split; congruence. }
  split; [| split].
  - rewrite Hneg. apply isNegative_substring.
  - unfold heuristicSign, isNegative. rewrite toLowerCase_idempotent. reflexivity.
  - intros pre post H. apply Hneg, isNegative_substring in H as (kw & p & q & Hkw & Hl).
    apply Hneg, isNegative_substring.
    exists kw, (toLowerCase pre ++ p), (q ++ toLowerCase post). split; [exact Hkw |].
    rewrite !toLowerCase_append, Hl, !append_assoc. reflexivity.
Qed.

Lemma heuristicSign_spec_witness : heuristicSign "He WROTE it" = negative.
Proof.
  apply (proj2 (proj2 (heuristicSign_spec "wrote")) "He " " it").
  reflexivity.
Defined.
